(** * TrafficSimulator: the synchronisation core of [traffic_simulator.py]

    A shallow embedding of the coordination code of the simulator: the
    road and car records, the admission function [can_cross], the car and
    light threads ([car_process], [traffic_light_process]) and the
    orchestration entry points ([toggle_simulation], [start_simulation],
    [stop_simulation]).

    Modelling choices.
    - Python floats are IEEE binary64; they are embedded as Rocq's
      primitive floats, so [0.1 + 0.1 + ...] rounds as it does in CPython.
    - [Car] objects are shared by reference between the thread that owns
      them and the [cars] list of their road: the model keeps a store
      ([heap]) of car objects and lists of references into it.
    - Each [with road.lock:] / [with road.condition:] block is one atomic
      step of the thread that runs it; [time.sleep] and [condition.wait]
      are the scheduling points.  A reading of [time.time()] is an input
      of the step that makes it.  ([road.lock] and the lock inside
      [road.condition] are two different locks in the source; the model
      takes the blocks of both kinds as atomic with respect to each
      other.)
    - The core reads three input widgets ([case_var], [cars_entry],
      [k_entry]), kept as strings.  The window (message queue, log box,
      labels, canvas) is modelled apart, in the last part of the file,
      on top of the core: the threads only post messages to it. *)

From Stdlib Require Import ZArith List String Ascii Bool Floats Lia DecimalString.
From stdpp Require Import base tactics option list.

Local Open Scope Z_scope.
Local Open Scope string_scope.
Local Open Scope list_scope.

(** ** Simulation constants *)

Definition LIGHT_DURATION : Z := 5.
Definition CAR_CROSSING_TIME : Z := 2.
Definition CANVAS_WIDTH : Z := 500.
Definition MAX_WAITING_TIME : Z := 30.
Definition SAFE_DISTANCE : Z := 10.

(** An [int] used where a float is expected. *)
Definition float_of_int (z : Z) : float :=
  match z with
  | Z0 => 0%float
  | Zpos p => PrimFloat.of_uint63 (Uint63.of_Z (Zpos p))
  | Zneg p => PrimFloat.opp (PrimFloat.of_uint63 (Uint63.of_Z (Zpos p)))
  end.

(** The literal [0.1]. *)
Definition tenth : float := PrimFloat.div (float_of_int 1) (float_of_int 10).

(** ** Data model *)

Inductive LightState := RED | GREEN | YELLOW.

Definition LightState_eqb (a b : LightState) : bool :=
  match a, b with
  | RED, RED | GREEN, GREEN | YELLOW, YELLOW => true
  | _, _ => false
  end.

(** The keys of the [roads] dictionary: [1] and [2]. *)
Inductive RoadNum := Road1 | Road2.

Definition RoadNum_eqb (a b : RoadNum) : bool :=
  match a, b with
  | Road1, Road1 | Road2, Road2 => true
  | _, _ => false
  end.

Definition road_key (r : RoadNum) : Z :=
  match r with Road1 => 1 | Road2 => 2 end.

Record Car := mkCar {
  car_id : Z;
  road_num : RoadNum;
  position : float;
  speed : float;
  waiting_time : float;
  state : string
}.

(** The [__eq__] a dataclass generates: field by field. *)
Definition Car_eqb (a b : Car) : bool :=
  Z.eqb (car_id a) (car_id b)
  && RoadNum_eqb (road_num a) (road_num b)
  && PrimFloat.eqb (position a) (position b)
  && PrimFloat.eqb (speed a) (speed b)
  && PrimFloat.eqb (waiting_time a) (waiting_time b)
  && String.eqb (state a) (state b).

Definition set_state (st : string) (c : Car) : Car :=
  mkCar (car_id c) (road_num c) (position c) (speed c) (waiting_time c) st.

Definition set_position (p : float) (c : Car) : Car :=
  mkCar (car_id c) (road_num c) p (speed c) (waiting_time c) (state c).

Definition set_waiting_time (w : float) (c : Car) : Car :=
  mkCar (car_id c) (road_num c) (position c) (speed c) w (state c).

(** A road.  [cars] holds references (indices into the store of car
    objects).  The lock, the condition and the semaphore carry no data;
    their effect is the atomicity of the steps below. *)
Record Road := mkRoad {
  name : string;
  light_state : LightState;
  cars : list nat;
  last_light_change : float;
  queue_length : Z
}.

Definition set_light_state (l : LightState) (r : Road) : Road :=
  mkRoad (name r) l (cars r) (last_light_change r) (queue_length r).

Definition set_cars (cs : list nat) (r : Road) : Road :=
  mkRoad (name r) (light_state r) cs (last_light_change r) (queue_length r).

Definition set_last_light_change (t : float) (r : Road) : Road :=
  mkRoad (name r) (light_state r) (cars r) t (queue_length r).

(** ** Results of fallible code *)

Inductive exn := ValueError.

Inductive result (A : Type) :=
| Ok (a : A)
| Raise (e : exn).
Arguments Ok {A} a.
Arguments Raise {A} e.

(** ** [int(text)] on the contents of an entry widget

    Surrounding white space is dropped, one sign is allowed, then decimal
    digits, where single underscores may separate digits.  (Digits
    outside ASCII are not modelled.) *)

Definition is_space (a : ascii) : bool :=
  let n := nat_of_ascii a in
  ((9 <=? n)%nat && (n <=? 13)%nat) || ((28 <=? n)%nat && (n <=? 32)%nat).

Fixpoint lstrip (l : list ascii) : list ascii :=
  match l with
  | a :: l' => if is_space a then lstrip l' else l
  | [] => []
  end.

Definition strip (l : list ascii) : list ascii :=
  rev (lstrip (rev (lstrip l))).

Definition digit_of (a : ascii) : option Z :=
  let n := nat_of_ascii a in
  if (48 <=? n)%nat && (n <=? 57)%nat then Some (Z.of_nat (n - 48)) else None.

Fixpoint parse_digits (acc : Z) (after_digit : bool) (l : list ascii) : option Z :=
  match l with
  | [] => if after_digit then Some acc else None
  | a :: l' =>
      match digit_of a with
      | Some d => parse_digits (10 * acc + d) true l'
      | None =>
          if Ascii.eqb a "_"%char && after_digit
          then parse_digits acc false l'
          else None
      end
  end.

Definition py_int (s : string) : option Z :=
  match strip (list_ascii_of_string s) with
  | "+"%char :: l => parse_digits 0 false l
  | "-"%char :: l => Z.opp <$> parse_digits 0 false l
  | l => parse_digits 0 false l
  end.

(** ** Threads

    A thread is a program counter.  The counters name the points where
    the source can be interrupted: the scheduling points and the
    boundaries of the [with] blocks. *)

(** [car_process(car_id, road_num)]. *)
Inductive CarPc :=
| PcArrive                         (* started; the car is not created yet *)
| PcWhile (car : nat)              (* at the test of the [while] loop *)
| PcLocked (car : nat)             (* test passed; entering [with road.condition] *)
| PcWaiting (car : nat)            (* blocked in [road.condition.wait()] *)
| PcNotified (car : nat)           (* woken; [wait()] is about to return *)
| PcCrossing (car : nat) (start_time : float)  (* in the crossing loop *)
| PcFinished.

Record CarProc := mkCarProc {
  arg_car_id : Z;
  arg_road_num : RoadNum;
  pc : CarPc
}.

Definition set_pc (p : CarPc) (t : CarProc) : CarProc :=
  mkCarProc (arg_car_id t) (arg_road_num t) p.

(** [traffic_light_process()]: one thread drives both roads in turn. *)
Inductive LightPc :=
| LWhile                                          (* at the test of [while self.is_running] *)
| LFor (rest : list RoadNum)                      (* at the head of [for road_num in [1, 2]] *)
| LGreenSleep (r : RoadNum) (rest : list RoadNum) (* in [time.sleep(LIGHT_DURATION)] *)
| LYellowSleep (r : RoadNum) (rest : list RoadNum)(* in [time.sleep(1)] *)
| LFinished.

(** [update_display()]. *)
Inductive DisplayPc := DWhile | DFinished.

(** ** The simulator object *)

Record TrafficSimulator := mkSim {
  is_running : bool;
  car_threads : list nat;
  case_type : Z;
  road1 : Road;
  road2 : Road;
  case_var : string;
  cars_entry : string;
  k_entry : string;
  light_thread : option nat;
  display_thread : option nat;
  (* the store of car objects and the threads started so far *)
  heap : list Car;
  car_procs : list CarProc;
  light_procs : list LightPc;
  display_procs : list DisplayPc
}.

(** [self.roads[n]]. *)
Definition roads (s : TrafficSimulator) (n : RoadNum) : Road :=
  match n with Road1 => road1 s | Road2 => road2 s end.

Definition set_is_running (b : bool) (s : TrafficSimulator) : TrafficSimulator :=
  mkSim b (car_threads s) (case_type s) (road1 s) (road2 s)
        (case_var s) (cars_entry s) (k_entry s) (light_thread s) (display_thread s)
        (heap s) (car_procs s) (light_procs s) (display_procs s).

Definition set_car_threads (l : list nat) (s : TrafficSimulator) : TrafficSimulator :=
  mkSim (is_running s) l (case_type s) (road1 s) (road2 s)
        (case_var s) (cars_entry s) (k_entry s) (light_thread s) (display_thread s)
        (heap s) (car_procs s) (light_procs s) (display_procs s).

Definition set_case_type (c : Z) (s : TrafficSimulator) : TrafficSimulator :=
  mkSim (is_running s) (car_threads s) c (road1 s) (road2 s)
        (case_var s) (cars_entry s) (k_entry s) (light_thread s) (display_thread s)
        (heap s) (car_procs s) (light_procs s) (display_procs s).

Definition set_road (n : RoadNum) (r : Road) (s : TrafficSimulator) : TrafficSimulator :=
  mkSim (is_running s) (car_threads s) (case_type s)
        (match n with Road1 => r | Road2 => road1 s end)
        (match n with Road1 => road2 s | Road2 => r end)
        (case_var s) (cars_entry s) (k_entry s) (light_thread s) (display_thread s)
        (heap s) (car_procs s) (light_procs s) (display_procs s).

Definition set_light_thread (t : option nat) (s : TrafficSimulator) : TrafficSimulator :=
  mkSim (is_running s) (car_threads s) (case_type s) (road1 s) (road2 s)
        (case_var s) (cars_entry s) (k_entry s) t (display_thread s)
        (heap s) (car_procs s) (light_procs s) (display_procs s).

Definition set_display_thread (t : option nat) (s : TrafficSimulator) : TrafficSimulator :=
  mkSim (is_running s) (car_threads s) (case_type s) (road1 s) (road2 s)
        (case_var s) (cars_entry s) (k_entry s) (light_thread s) t
        (heap s) (car_procs s) (light_procs s) (display_procs s).

Definition set_heap (h : list Car) (s : TrafficSimulator) : TrafficSimulator :=
  mkSim (is_running s) (car_threads s) (case_type s) (road1 s) (road2 s)
        (case_var s) (cars_entry s) (k_entry s) (light_thread s) (display_thread s)
        h (car_procs s) (light_procs s) (display_procs s).

Definition set_car_procs (l : list CarProc) (s : TrafficSimulator) : TrafficSimulator :=
  mkSim (is_running s) (car_threads s) (case_type s) (road1 s) (road2 s)
        (case_var s) (cars_entry s) (k_entry s) (light_thread s) (display_thread s)
        (heap s) l (light_procs s) (display_procs s).

Definition set_light_procs (l : list LightPc) (s : TrafficSimulator) : TrafficSimulator :=
  mkSim (is_running s) (car_threads s) (case_type s) (road1 s) (road2 s)
        (case_var s) (cars_entry s) (k_entry s) (light_thread s) (display_thread s)
        (heap s) (car_procs s) l (display_procs s).

Definition set_display_procs (l : list DisplayPc) (s : TrafficSimulator) : TrafficSimulator :=
  mkSim (is_running s) (car_threads s) (case_type s) (road1 s) (road2 s)
        (case_var s) (cars_entry s) (k_entry s) (light_thread s) (display_thread s)
        (heap s) (car_procs s) (light_procs s) l.

(** [__init__]: both lights red, no car, nothing running; [now] is the
    reading of [time.time()].  The three input widgets start at ["1"],
    ["10"] and ["3"] and are the user's to edit: [case], [cars] and [k]
    are what the user has typed, and the model keeps them fixed from
    then on (the configuration of a run is not edited while it runs). *)
Definition init (case cars k : string) (now : float) : TrafficSimulator :=
  mkSim false [] 1
        (mkRoad "Road 1" RED [] now 0)
        (mkRoad "Road 2" RED [] now 0)
        case cars k None None [] [] [] [].

(** ** The admission function *)

(** The car objects a list of references denotes. *)
Definition deref (h : list Car) (l : list nat) : list Car :=
  omap (fun a => h !! a) l.

Definition is_crossing (c : Car) : bool := String.eqb (state c) "crossing".

(** [max(l, key=lambda c: c.position)] on a non-empty list headed by
    [best]: the first maximal element. *)
Fixpoint max_by_position (best : Car) (l : list Car) : Car :=
  match l with
  | [] => best
  | c :: l' =>
      if PrimFloat.ltb (position best) (position c)
      then max_by_position c l'
      else max_by_position best l'
  end.

Definition can_cross (s : TrafficSimulator) (road : Road) (car : Car) : result bool :=
  if Z.eqb (case_type s) 1 then
    Ok (negb (existsb is_crossing (deref (heap s) (cars road))))
  else
    match py_int (k_entry s) with
    | None => Raise ValueError
    | Some k =>
        let crossing_cars := List.filter is_crossing (deref (heap s) (cars road)) in
        match crossing_cars with
        | [] => Ok true
        | c0 :: rest =>
            if Z.leb k (Z.of_nat (length crossing_cars)) then Ok false
            else if PrimFloat.eqb (position car) (float_of_int 0) then Ok true
            else
              let last_car := max_by_position c0 rest in
              let min_distance :=
                PrimFloat.div (float_of_int SAFE_DISTANCE) (float_of_int CANVAS_WIDTH) in
              Ok (PrimFloat.leb min_distance
                                (PrimFloat.sub (position car) (position last_car)))
        end
    end.

(** ** [car_process] *)

(** [road.condition.notify_all()]: every thread blocked in [wait()] on
    that road's condition is woken. *)
Definition wake (n : RoadNum) (t : CarProc) : CarProc :=
  match pc t with
  | PcWaiting a => if RoadNum_eqb (arg_road_num t) n then set_pc (PcNotified a) t else t
  | _ => t
  end.

Definition notify_all (n : RoadNum) (s : TrafficSimulator) : TrafficSimulator :=
  set_car_procs (map (wake n) (car_procs s)) s.

(** [car in road.cars]: identity or [==], element by element. *)
Definition car_in (h : list Car) (a : nat) (car : Car) (l : list nat) : bool :=
  existsb (fun b => Nat.eqb b a
                    || match h !! b with Some c => Car_eqb c car | None => false end) l.

(** [road.cars.remove(car)]: the first element that is (or equals) [car]. *)
Fixpoint list_remove (h : list Car) (a : nat) (car : Car) (l : list nat) : list nat :=
  match l with
  | [] => []
  | b :: l' =>
      if Nat.eqb b a || match h !! b with Some c => Car_eqb c car | None => false end
      then l'
      else b :: list_remove h a car l'
  end.

(** What follows the [while] loop, whichever way it is left: the
    crossing phase starts if the car was admitted, else the thread ends. *)
Definition after_loop (a : nat) (car : Car) (now : float) : CarPc :=
  if String.eqb (state car) "crossing" then PcCrossing a now else PcFinished.

(** One step of car thread [i]; [now] is what [time.time()] returns if
    the step reads the clock.  [None]: the thread does not exist, is
    blocked or has ended. *)
Definition car_process (i : nat) (now : float) (s : TrafficSimulator)
  : option TrafficSimulator :=
  t ← car_procs s !! i;
  let n := arg_road_num t in
  let road := roads s n in
  let goto p s := set_car_procs (<[i := set_pc p t]> (car_procs s)) s in
  match pc t with
  | PcArrive =>
      (* car = Car(...); with road.lock: road.cars.append(car) *)
      let a := length (heap s) in
      let car := mkCar (arg_car_id t) n (float_of_int 0) (float_of_int 0)
                       (float_of_int 0) "waiting" in
      Some (goto (PcWhile a)
              (set_road n (set_cars (cars road ++ [a]) road)
                 (set_heap (heap s ++ [car]) s)))
  | PcWhile a =>
      (* while self.is_running and car.state != "exited": *)
      car ← heap s !! a;
      if is_running s && negb (String.eqb (state car) "exited")
      then Some (goto (PcLocked a) s)
      else Some (goto (after_loop a car now) s)
  | PcLocked a =>
      (* with road.condition: ... *)
      car ← heap s !! a;
      if LightState_eqb (light_state road) GREEN
         || LightState_eqb (light_state road) YELLOW
      then
        match can_cross s road car with
        | Raise _ => Some (goto PcFinished s)
        | Ok true =>
            let car' := set_state "crossing" car in
            Some (goto (after_loop a car' now) (set_heap (<[a := car']> (heap s)) s))
        | Ok false => Some (goto (PcWaiting a) s)
        end
      else Some (goto (PcWaiting a) s)
  | PcWaiting _ => None
  | PcNotified a =>
      (* car.waiting_time += 0.1; if car.waiting_time > MAX_WAITING_TIME: break *)
      car ← heap s !! a;
      let car' := set_waiting_time (PrimFloat.add (waiting_time car) tenth) car in
      let s' := set_heap (<[a := car']> (heap s)) s in
      if PrimFloat.ltb (float_of_int MAX_WAITING_TIME) (waiting_time car')
      then Some (goto (after_loop a car' now) s')
      else Some (goto (PcWhile a) s')
  | PcCrossing a start_time =>
      car ← heap s !! a;
      if PrimFloat.ltb (PrimFloat.sub now start_time) (float_of_int CAR_CROSSING_TIME)
      then
        (* car.position += 0.1; time.sleep(0.1) *)
        let car' := set_position (PrimFloat.add (position car) tenth) car in
        Some (set_heap (<[a := car']> (heap s)) s)
      else
        (* with road.lock: if car in road.cars: road.cars.remove(car);
           car.state = "exited" *)
        let cars' := if car_in (heap s) a car (cars road)
                     then list_remove (heap s) a car (cars road)
                     else cars road in
        Some (goto PcFinished
                (set_road n (set_cars cars' road)
                   (set_heap (<[a := set_state "exited" car]> (heap s)) s)))
  | PcFinished => None
  end.

(** ** [traffic_light_process] *)

(** [with road.condition: road.light_state = l; road.condition.notify_all()] *)
Definition switch_light (n : RoadNum) (l : LightState) (s : TrafficSimulator)
  : TrafficSimulator :=
  notify_all n (set_road n (set_light_state l (roads s n)) s).

Definition traffic_light_process (i : nat) (now : float) (s : TrafficSimulator)
  : option TrafficSimulator :=
  p ← light_procs s !! i;
  let goto p s := set_light_procs (<[i := p]> (light_procs s)) s in
  match p with
  | LWhile =>
      if is_running s then Some (goto (LFor [Road1; Road2]) s)
      else Some (goto LFinished s)
  | LFor [] => Some (goto LWhile s)
  | LFor (n :: rest) =>
      if negb (is_running s) then Some (goto LWhile s)
      else
        let road := set_last_light_change now (set_light_state GREEN (roads s n)) in
        Some (goto (LGreenSleep n rest) (notify_all n (set_road n road s)))
  | LGreenSleep n rest =>
      Some (goto (LYellowSleep n rest) (switch_light n YELLOW s))
  | LYellowSleep n rest =>
      Some (goto (LFor rest) (switch_light n RED s))
  | LFinished => None
  end.

(** ** [update_display]: posts a redraw request while the run is active. *)
Definition update_display (i : nat) (s : TrafficSimulator) : option TrafficSimulator :=
  p ← display_procs s !! i;
  match p with
  | DWhile =>
      if is_running s then Some s
      else Some (set_display_procs (<[i := DFinished]> (display_procs s)) s)
  | DFinished => None
  end.

(** ** Orchestration *)

(** The loop that resets the roads, shared by start and stop:
    [road.cars.clear(); road.light_state = RED; notify_all()]. *)
Definition reset_road (n : RoadNum) (s : TrafficSimulator) : TrafficSimulator :=
  notify_all n (set_road n (set_light_state RED (set_cars [] (roads s n))) s).

Definition reset_roads (s : TrafficSimulator) : TrafficSimulator :=
  reset_road Road2 (reset_road Road1 s).

(** The loop that spawns the car threads: [randint i] is what
    [random.randint(1, 2)] returns in round [i]. *)
Fixpoint spawn_cars (randint : nat -> RoadNum) (i : nat) (count : nat)
    (s : TrafficSimulator) : TrafficSimulator :=
  match count with
  | O => s
  | S count' =>
      let tid := length (car_procs s) in
      let t := mkCarProc (Z.of_nat i + 1) (randint i) PcArrive in
      spawn_cars randint (S i) count'
        (set_car_threads (car_threads s ++ [tid])
           (set_car_procs (car_procs s ++ [t]) s))
  end.

Definition start_simulation (randint : nat -> RoadNum) (s : TrafficSimulator)
  : result unit * TrafficSimulator :=
  let s := set_is_running true s in
  match py_int (case_var s) with
  | None => (Raise ValueError, s)
  | Some c =>
      let s := set_case_type c s in
      match py_int (cars_entry s) with
      | None => (Raise ValueError, s)
      | Some num_cars =>
          let s := set_car_threads [] s in
          let s := reset_roads s in
          let s := set_light_thread (Some (length (light_procs s)))
                     (set_light_procs (light_procs s ++ [LWhile]) s) in
          let s := set_display_thread (Some (length (display_procs s)))
                     (set_display_procs (display_procs s ++ [DWhile]) s) in
          (Ok tt, spawn_cars randint 0 (Z.to_nat num_cars) s)
      end
  end.

(** The two [join(timeout=1.0)] calls wait and change nothing. *)
Definition stop_simulation (s : TrafficSimulator) : TrafficSimulator :=
  let s := set_is_running false s in
  let s := set_car_threads [] s in
  reset_roads s.

Definition toggle_simulation (randint : nat -> RoadNum) (s : TrafficSimulator)
  : result unit * TrafficSimulator :=
  if negb (is_running s) then start_simulation randint s
  else (Ok tt, stop_simulation s).

(** ** The step relation

    An event is a click on the start/stop button (the only caller of
    [toggle_simulation]) or one step of one thread.  A click that raises
    leaves the simulator as the exception found it: Tk reports the
    exception and the main loop goes on. *)
Inductive event :=
| Click (randint : nat -> RoadNum)
| CarStep (i : nat) (now : float)
| LightStep (i : nat) (now : float)
| DisplayStep (i : nat).

Definition exec (e : event) (s : TrafficSimulator) : option TrafficSimulator :=
  match e with
  | Click randint => Some (snd (toggle_simulation randint s))
  | CarStep i now => car_process i now s
  | LightStep i now => traffic_light_process i now s
  | DisplayStep i => update_display i s
  end.

Definition step (s s' : TrafficSimulator) : Prop :=
  exists e, exec e s = Some s'.

(** The states a program started with the given widget contents reaches. *)
Inductive reachable (s0 : TrafficSimulator) : TrafficSimulator -> Prop :=
| reach_init : reachable s0 s0
| reach_step s s' : reachable s0 s -> step s s' -> reachable s0 s'.

(** Running a schedule. *)
Fixpoint run (es : list event) (s : TrafficSimulator) : option TrafficSimulator :=
  match es with
  | [] => Some s
  | e :: es' => s' ← exec e s; run es' s'
  end.

(** ** The admission rule of the specification, BOUNDED(k) mode

    Written from the words of the specification (section 4.4), to be
    compared with [can_cross]:
    + let [crossing] be the cars of the road whose state is CROSSING;
    + if [crossing] is empty, admit;
    + if [|crossing| >= k], reject;
    + if the candidate's own progress is 0, admit;
    + otherwise let [farthest] be the maximum progress over [crossing];
      admit iff [candidate.progress - farthest >= safe_spacing]. *)

Definition float_max (a b : float) : float :=
  if PrimFloat.ltb a b then b else a.

(** The maximum of a list of floats ([0] stands for "no element"). *)
Definition max_progress (l : list float) : float :=
  match l with
  | [] => float_of_int 0
  | p :: l' => fold_left float_max l' p
  end.

Definition safe_spacing : float :=
  PrimFloat.div (float_of_int SAFE_DISTANCE) (float_of_int CANVAS_WIDTH).

Definition admit_bounded (k : Z) (spacing : float) (road_cars : list Car)
    (candidate : Car) : bool :=
  let crossing := List.filter is_crossing road_cars in
  if Nat.eqb (length crossing) 0 then true
  else if Z.geb (Z.of_nat (length crossing)) k then false
  else if PrimFloat.eqb (position candidate) (float_of_int 0) then true
  else
    let farthest := max_progress (map position crossing) in
    PrimFloat.leb spacing (PrimFloat.sub (position candidate) farthest).

(** * Properties *)

(** ** The admission function *)

Lemma max_by_position_progress (best : Car) (l : list Car) :
  position (max_by_position best l) = fold_left float_max (map position l) (position best).
Proof.
  revert best. induction l as [|c l IH]; intros best; simpl; [reflexivity|].
  unfold float_max at 2.
  destruct (PrimFloat.ltb (position best) (position c)); apply IH.
Qed.

(** C2.  In BOUNDED(k) mode (any [case_type] other than 1, the entry
    widget holding the integer [k]), [can_cross] returns normally and its
    answer is the one of the five-step rule of the specification, with
    [SAFE_DISTANCE / CANVAS_WIDTH] as safe spacing. *)
Theorem can_cross_bounded_rule (s : TrafficSimulator) (road : Road) (car : Car) (k : Z) :
  case_type s <> 1 ->
  py_int (k_entry s) = Some k ->
  can_cross s road car
  = Ok (admit_bounded k safe_spacing (deref (heap s) (cars road)) car).
Proof.
  intros Hmode Hk. unfold can_cross, admit_bounded.
  destruct (Z.eqb_spec (case_type s) 1) as [E|_]; [contradiction|].
  rewrite Hk.
  destruct (List.filter is_crossing (deref (heap s) (cars road))) as [|c0 rest] eqn:Hf;
    [reflexivity|].
  cbn [length Nat.eqb map max_progress].
  rewrite Z.geb_leb.
  destruct (Z.leb k (Z.of_nat (S (length rest)))); [reflexivity|].
  destruct (PrimFloat.eqb (position car) (float_of_int 0)); [reflexivity|].
  rewrite max_by_position_progress. reflexivity.
Qed.

(** A road with two crossing cars at 0.3 and 0.1 and capacity 3: a
    candidate at 0.4 passes the spacing test of the last branch. *)
Definition sample_bounded : TrafficSimulator :=
  mkSim true [] 2
        (mkRoad "Road 1" GREEN [0; 1; 2]%nat (float_of_int 0) 0)
        (mkRoad "Road 2" RED [] (float_of_int 0) 0)
        "2" "3" "3" None None
        [ mkCar 1 Road1 (PrimFloat.add tenth (PrimFloat.add tenth tenth))
                (float_of_int 0) (float_of_int 0) "crossing";
          mkCar 2 Road1 tenth (float_of_int 0) (float_of_int 0) "crossing";
          mkCar 3 Road1 (float_of_int 0) (float_of_int 0) (float_of_int 0) "waiting" ]
        [] [] [].

Lemma can_cross_bounded_rule_witness :
  can_cross sample_bounded (road1 sample_bounded)
            (mkCar 3 Road1 (PrimFloat.mul (float_of_int 4) tenth)
                   (float_of_int 0) (float_of_int 0) "waiting")
  = Ok true.
Proof.
  rewrite (can_cross_bounded_rule sample_bounded (road1 sample_bounded) _ 3).
  - reflexivity.
  - discriminate.
  - reflexivity.
Defined.

(** ** Start and stop *)

Lemma roads_notify_all (n m : RoadNum) (s : TrafficSimulator) :
  roads (notify_all n s) m = roads s m.
Proof. destruct m; reflexivity. Qed.

Lemma roads_reset_roads (s : TrafficSimulator) (n : RoadNum) :
  roads (reset_roads s) n = set_light_state RED (set_cars [] (roads s n)).
Proof. destruct n; reflexivity. Qed.


Lemma spawn_cars_frame (randint : nat -> RoadNum) (count i : nat) (s : TrafficSimulator) :
  let s' := spawn_cars randint i count s in
  is_running s' = is_running s /\ case_type s' = case_type s
  /\ road1 s' = road1 s /\ road2 s' = road2 s
  /\ heap s' = heap s /\ light_procs s' = light_procs s
  /\ display_procs s' = display_procs s
  /\ light_thread s' = light_thread s /\ display_thread s' = display_thread s
  /\ case_var s' = case_var s /\ cars_entry s' = cars_entry s /\ k_entry s' = k_entry s
  /\ length (car_procs s') = (length (car_procs s) + count)%nat.
Proof.
  revert i s. induction count as [|count IH]; intros i s; simpl.
  - repeat split; lia.
  - specialize (IH (S i)
      (set_car_threads (car_threads s ++ [length (car_procs s)])
         (set_car_procs (car_procs s ++ [mkCarProc (Z.of_nat i + 1) (randint i) PcArrive]) s))).
    simpl in IH. rewrite length_app in IH. simpl in IH.
    destruct IH as (?&?&?&?&?&?&?&?&?&?&?&?&?).
    repeat split; try assumption. lia.
Qed.



(** C9, as the code has it.  [start_simulation] has no guard of its
    own; its only caller is [toggle_simulation], which calls it only when
    no run is active.  A click while a run is active stops that run
    instead: no light, display or car thread is added, the running flag
    is cleared, and the roads are emptied with their lights red. *)
Theorem toggle_simulation_while_running (randint : nat -> RoadNum) (s : TrafficSimulator) :
  is_running s = true ->
  toggle_simulation randint s = (Ok tt, stop_simulation s)
  /\ length (light_procs (snd (toggle_simulation randint s))) = length (light_procs s)
  /\ length (display_procs (snd (toggle_simulation randint s))) = length (display_procs s)
  /\ length (car_procs (snd (toggle_simulation randint s))) = length (car_procs s)
  /\ is_running (snd (toggle_simulation randint s)) = false
  /\ forall n, cars (roads (snd (toggle_simulation randint s)) n) = []
               /\ light_state (roads (snd (toggle_simulation randint s)) n) = RED.
Proof.
  intros Hrun. unfold toggle_simulation. rewrite Hrun. cbn [negb fst snd].
  split; [reflexivity|].
  unfold stop_simulation.
  repeat split; try (rewrite roads_reset_roads; destruct n; reflexivity).
  cbn. rewrite !length_map. reflexivity.
Qed.

(** An active run: one car has arrived on road 1 and its light is green. *)
Definition sample_run : option TrafficSimulator :=
  run [Click (fun _ => Road1); CarStep 0 (float_of_int 1000);
       LightStep 0 (float_of_int 1000); LightStep 0 (float_of_int 1000)]
      (init "1" "1" "3" (float_of_int 1000)).

Definition sample_running : TrafficSimulator :=
  default (init "1" "1" "3" (float_of_int 1000)) sample_run.

Lemma toggle_simulation_while_running_witness :
  is_running sample_running = true
  /\ cars (roads sample_running Road1) = [0%nat]
  /\ cars (roads (snd (toggle_simulation (fun _ => Road2) sample_running)) Road1) = [].
Proof.
  split; [reflexivity|]. split; [reflexivity|].
  apply (toggle_simulation_while_running (fun _ => Road2) sample_running).
  reflexivity.
Defined.

(** C9 as stated fails.  In a run with one car on road 1 under a green
    light, a click empties the road and turns the light red; and
    [start_simulation] itself, called on the running simulator, adds a
    second light thread, a second display thread and a second car thread
    and empties the road. *)
Lemma start_while_running_not_rejected :
  let r := fun _ : nat => Road1 in
  (is_running sample_running = true
   /\ cars (road1 sample_running) = [0%nat]
   /\ light_state (road1 sample_running) = GREEN
   /\ length (light_procs sample_running) = 1%nat)
  /\ (cars (road1 (snd (toggle_simulation r sample_running))) = []
      /\ light_state (road1 (snd (toggle_simulation r sample_running))) = RED)
  /\ (fst (start_simulation r sample_running) = Ok tt
      /\ length (light_procs (snd (start_simulation r sample_running))) = 2%nat
      /\ length (display_procs (snd (start_simulation r sample_running))) = 2%nat
      /\ length (car_procs (snd (start_simulation r sample_running))) = 2%nat
      /\ cars (road1 (snd (start_simulation r sample_running))) = []).
Proof. vm_compute. repeat split. Qed.

(** ** Counting the crossing cars of a road *)

(** [[c for c in road.cars if c.state == "crossing"]] *)
Definition crossing_cars (s : TrafficSimulator) (n : RoadNum) : list Car :=
  List.filter is_crossing (deref (heap s) (cars (roads s n))).

Definition ncross (h : list Car) (l : list nat) : nat :=
  length (List.filter is_crossing (deref h l)).

Lemma deref_cons (h : list Car) (b : nat) (l : list nat) :
  deref h (b :: l)
  = match h !! b with Some c => c :: deref h l | None => deref h l end.
Proof. reflexivity. Qed.

Lemma ncross_cons (h : list Car) (b : nat) (l : list nat) :
  ncross h (b :: l)
  = (match h !! b with
     | Some c => if is_crossing c then 1 else 0
     | None => 0
     end + ncross h l)%nat.
Proof.
  unfold ncross. rewrite deref_cons.
  destruct (h !! b) as [c|]; [|reflexivity].
  simpl. destruct (is_crossing c); reflexivity.
Qed.

Lemma ncross_nil (h : list Car) : ncross h [] = 0%nat.
Proof. reflexivity. Qed.

Lemma ncross_app (h : list Car) (l l' : list nat) :
  ncross h (l ++ l') = (ncross h l + ncross h l')%nat.
Proof.
  induction l as [|b l IH]; [reflexivity|].
  rewrite <- app_comm_cons, !ncross_cons, IH. lia.
Qed.

Lemma ncross_ext (h h' : list Car) (l : list nat) :
  (forall a, a ∈ l -> h' !! a = h !! a) -> ncross h' l = ncross h l.
Proof.
  induction l as [|b l IH]; intros Hext; [reflexivity|].
  rewrite !ncross_cons, Hext by left.
  rewrite IH; [reflexivity|]. intros a Ha. apply Hext. by right.
Qed.

(** Rewriting one car without changing whether it is crossing. *)
Lemma ncross_insert_same (h : list Car) (a : nat) (c c' : Car) (l : list nat) :
  h !! a = Some c -> is_crossing c' = is_crossing c ->
  ncross (<[a := c']> h) l = ncross h l.
Proof.
  intros Ha Hc. induction l as [|b l IH]; [reflexivity|].
  rewrite !ncross_cons, IH. f_equal.
  destruct (decide (a = b)) as [->|Hne].
  - rewrite list_lookup_insert_eq by (eapply lookup_lt_Some; eassumption).
    rewrite Ha, Hc. reflexivity.
  - rewrite list_lookup_insert_ne by assumption. reflexivity.
Qed.

(** Rewriting one car into a car that is not crossing. *)
Lemma ncross_insert_le (h : list Car) (a : nat) (c' : Car) (l : list nat) :
  is_crossing c' = false -> (ncross (<[a := c']> h) l <= ncross h l)%nat.
Proof.
  intros Hc. induction l as [|b l IH]; [reflexivity|].
  rewrite !ncross_cons.
  destruct (decide (a = b)) as [->|Hne].
  - destruct (h !! b) as [c|] eqn:Hb.
    + rewrite list_lookup_insert_eq by (eapply lookup_lt_Some; eassumption).
      rewrite Hc. lia.
    + assert (<[b := c']> h !! b = None) as -> by (by apply list_lookup_insert_None).
      lia.
  - rewrite list_lookup_insert_ne by assumption. lia.
Qed.

(** Rewriting one car adds at most one crossing car to a list without
    repeated references. *)
Lemma ncross_insert_S (h : list Car) (a : nat) (c' : Car) (l : list nat) :
  NoDup l -> (ncross (<[a := c']> h) l <= S (ncross h l))%nat.
Proof.
  induction 1 as [|b l Hb Hl IH]; [rewrite !ncross_nil; lia|].
  rewrite !ncross_cons.
  destruct (decide (a = b)) as [->|Hne].
  - rewrite (ncross_ext h (<[b := c']> h) l).
    + destruct (<[b := c']> h !! b) as [c|]; [destruct (is_crossing c)|]; lia.
    + intros x Hx. apply list_lookup_insert_ne. intros ->. contradiction.
  - rewrite list_lookup_insert_ne by assumption. lia.
Qed.

Lemma list_remove_sublist (h : list Car) (a : nat) (car : Car) (l : list nat) :
  list_remove h a car l `sublist_of` l.
Proof.
  induction l as [|b l IH]; simpl; [constructor|].
  destruct (_ || _); [by apply sublist_cons | by apply sublist_skip].
Qed.

Lemma ncross_sublist (h : list Car) (l l' : list nat) :
  l `sublist_of` l' -> (ncross h l <= ncross h l')%nat.
Proof.
  induction 1 as [|b l l' _ IH|b l l' _ IH]; [lia| |];
    rewrite ?ncross_cons; lia.
Qed.

(** The reading of the clock [j] tenths of a second after second [T]. *)
Definition clock (T : Z) (j : nat) : float :=
  PrimFloat.add (float_of_int T)
                (PrimFloat.mul (float_of_int (Z.of_nat j)) tenth).


(** ** Well-formed simulators

    Every reference held by a road or by a car thread points to a car of
    the store, whose [road_num] is that of the road or thread; a road
    holds no reference twice. *)

Definition pc_car (p : CarPc) : option nat :=
  match p with
  | PcWhile a | PcLocked a | PcWaiting a | PcNotified a | PcCrossing a _ => Some a
  | PcArrive | PcFinished => None
  end.

Definition ref_ok (h : list Car) (n : RoadNum) (a : nat) : Prop :=
  exists c, h !! a = Some c /\ road_num c = n.

Definition proc_ok (h : list Car) (t : CarProc) : Prop :=
  forall a, pc_car (pc t) = Some a -> ref_ok h (arg_road_num t) a.

Record wf (s : TrafficSimulator) : Prop := mk_wf {
  wf_cars : forall n, Forall (ref_ok (heap s) n) (cars (roads s n));
  wf_nodup : forall n, NoDup (cars (roads s n));
  wf_procs : Forall (proc_ok (heap s)) (car_procs s)
}.

(** The store only grows, and a car keeps its [road_num]. *)
Definition heap_le (h h' : list Car) : Prop :=
  forall a c, h !! a = Some c -> exists c', h' !! a = Some c' /\ road_num c' = road_num c.

Lemma heap_le_refl (h : list Car) : heap_le h h.
Proof. intros a c Ha. eauto. Qed.

Lemma heap_le_app (h l : list Car) : heap_le h (h ++ l).
Proof. intros a c Ha. exists c. split; [by apply lookup_app_l_Some | reflexivity]. Qed.

Lemma heap_le_insert (h : list Car) (a : nat) (c c' : Car) :
  h !! a = Some c -> road_num c' = road_num c -> heap_le h (<[a := c']> h).
Proof.
  intros Ha Hr b cb Hb. destruct (decide (a = b)) as [->|Hne].
  - exists c'. split.
    + apply list_lookup_insert_eq. eapply lookup_lt_Some; eassumption.
    + congruence.
  - exists cb. rewrite list_lookup_insert_ne by assumption. auto.
Qed.

Lemma ref_ok_mono (h h' : list Car) (n : RoadNum) (a : nat) :
  heap_le h h' -> ref_ok h n a -> ref_ok h' n a.
Proof.
  intros Hle (c & Ha & Hn). destruct (Hle a c Ha) as (c' & Ha' & Hr).
  exists c'. split; [assumption | congruence].
Qed.

Lemma proc_ok_mono (h h' : list Car) (t : CarProc) :
  heap_le h h' -> proc_ok h t -> proc_ok h' t.
Proof. intros Hle Hok a Ha. eapply ref_ok_mono; eauto. Qed.

Lemma proc_ok_wake (h : list Car) (n : RoadNum) (t : CarProc) :
  proc_ok h t -> proc_ok h (wake n t).
Proof.
  unfold wake. intros Hok. destruct (pc t) eqn:Hpc; try assumption.
  destruct (RoadNum_eqb (arg_road_num t) n); [|assumption].
  intros a Ha. simpl in *. apply Hok. rewrite Hpc. assumption.
Qed.

Lemma proc_ok_set_pc (h : list Car) (t : CarProc) (p : CarPc) :
  (forall a, pc_car p = Some a -> ref_ok h (arg_road_num t) a) ->
  proc_ok h (set_pc p t).
Proof. intros H a Ha. apply H, Ha. Qed.

Lemma pc_car_after_loop (a : nat) (car : Car) (now : float) (b : nat) :
  pc_car (after_loop a car now) = Some b -> b = a.
Proof. unfold after_loop. destruct (String.eqb _ _); simpl; congruence. Qed.

(** A state change that keeps the store, the cars of the roads and the
    car threads keeps well-formedness. *)
Lemma wf_frame (s s' : TrafficSimulator) :
  heap_le (heap s) (heap s') ->
  (forall n, cars (roads s' n) `sublist_of` cars (roads s n)) ->
  Forall (proc_ok (heap s')) (car_procs s') ->
  wf s -> wf s'.
Proof.
  intros Hh Hc Hp [Hcars Hnd _]. split; [| |assumption].
  - intros n. apply Forall_forall. intros a Ha.
    apply (ref_ok_mono (heap s)); [assumption|].
    eapply (proj1 (Forall_forall _ _) (Hcars n)), elem_of_sublist; [apply Ha|apply Hc].
  - intros n. eapply sublist_NoDup; [apply Hnd|apply Hc].
Qed.


(** ** What one step of a car thread does *)

Ltac car_cases H :=
  unfold car_process in H;
  match type of H with
  | context [car_procs ?s !! ?i] =>
      let t := fresh "t" in let Ht := fresh "Ht" in
      destruct (car_procs s !! i) as [t|] eqn:Ht; [|discriminate H];
      cbn [mbind option_bind] in H;
      let Hpc := fresh "Hpc" in
      destruct (pc t) as [|a|a|a|a|a st|] eqn:Hpc; try discriminate H;
      try (let car := fresh "car" in let Ha := fresh "Ha" in
           destruct (heap s !! a) as [car|] eqn:Ha; [|discriminate H];
           cbn [mbind option_bind] in H)
  end.

(** The car a thread creates on arrival. *)
Definition new_car (t : CarProc) : Car :=
  mkCar (arg_car_id t) (arg_road_num t) (float_of_int 0) (float_of_int 0)
        (float_of_int 0) "waiting".

(** What a step of a car thread leaves alone. *)
Definition car_frame (s s' : TrafficSimulator) : Prop :=
  is_running s' = is_running s /\ case_type s' = case_type s
  /\ case_var s' = case_var s /\ cars_entry s' = cars_entry s /\ k_entry s' = k_entry s
  /\ light_procs s' = light_procs s /\ display_procs s' = display_procs s
  /\ car_threads s' = car_threads s
  /\ light_thread s' = light_thread s /\ display_thread s' = display_thread s
  /\ forall n, light_state (roads s' n) = light_state (roads s n)
               /\ last_light_change (roads s' n) = last_light_change (roads s n)
               /\ name (roads s' n) = name (roads s n)
               /\ queue_length (roads s' n) = queue_length (roads s n).

(** The three kinds of step of a car thread [t]: the arrival, a move of
    the program counter alone, and the rewriting of the thread's own car.
    A car becomes crossing only when [can_cross] has just answered
    [True]; a reference leaves the road only in the step that sets the
    car to "exited" and ends the thread. *)
Inductive car_effect (s s' : TrafficSimulator) (t : CarProc) (p : CarPc) : Prop :=
| eff_arrive :
    pc t = PcArrive ->
    p = PcWhile (length (heap s)) ->
    heap s' = heap s ++ [new_car t] ->
    (forall n, cars (roads s' n)
               = if RoadNum_eqb (arg_road_num t) n
                 then cars (roads s n) ++ [length (heap s)]
                 else cars (roads s n)) ->
    car_effect s s' t p
| eff_move :
    heap s' = heap s ->
    (forall n, cars (roads s' n) = cars (roads s n)) ->
    (forall b, pc_car p = Some b -> pc_car (pc t) = Some b) ->
    car_effect s s' t p
| eff_update (a : nat) (car car' : Car) :
    pc_car (pc t) = Some a ->
    heap s !! a = Some car ->
    heap s' = <[a := car']> (heap s) ->
    road_num car' = road_num car ->
    (forall n, cars (roads s' n) `sublist_of` cars (roads s n)) ->
    (forall b, pc_car p = Some b -> b = a) ->
    (is_crossing car' = true ->
     is_crossing car = true
     \/ can_cross s (roads s (arg_road_num t)) car = Ok true) ->
    car_id car' = car_id car ->
    ((forall n, cars (roads s' n) = cars (roads s n))
     \/ (state car' = "exited" /\ p = PcFinished
         /\ forall n, cars (roads s' n)
                      = if RoadNum_eqb (arg_road_num t) n
                        then if car_in (heap s) a car (cars (roads s n))
                             then list_remove (heap s) a car (cars (roads s n))
                             else cars (roads s n)
                        else cars (roads s n))) ->
    car_effect s s' t p.

Lemma car_process_effect (i : nat) (now : float) (s s' : TrafficSimulator) :
  car_process i now s = Some s' ->
  exists t p,
    car_procs s !! i = Some t
    /\ car_procs s' = <[i := set_pc p t]> (car_procs s)
    /\ car_frame s s'
    /\ car_effect s s' t p
    /\ p <> PcArrive.
Proof.
  intros H. car_cases H.
  - (* arrival *)
    injection H as <-. exists t, (PcWhile (length (heap s))).
    split; [reflexivity|]. split; [reflexivity|]. split; [|split; [|discriminate]].
    + repeat split; destruct n, (arg_road_num t); reflexivity.
    + apply eff_arrive; try assumption; try reflexivity.
      intros n. destruct n, (arg_road_num t); reflexivity.
  - (* loop test *)
    destruct (is_running s && negb (String.eqb (state car) "exited"));
      injection H as <-; eexists t, _;
      (split; [reflexivity|]); (split; [reflexivity|]);
      (split; [repeat split|]);
      (split; [|unfold after_loop; try destruct (String.eqb _ _); discriminate]);
      apply eff_move; try reflexivity; rewrite Hpc; simpl;
      intros b Hb; [congruence|].
    apply pc_car_after_loop in Hb. congruence.
  - (* admission test *)
    destruct (LightState_eqb _ GREEN || LightState_eqb _ YELLOW).
    + destruct (can_cross s (roads s (arg_road_num t)) car) as [[|]|] eqn:Hcc;
        injection H as <-; eexists t, _;
        (split; [reflexivity|]); (split; [reflexivity|]);
        (split; [repeat split|]);
        (split; [|unfold after_loop; try destruct (String.eqb _ _); discriminate]).
      * apply (eff_update _ _ _ _ a car (set_state "crossing" car));
          try reflexivity; try assumption.
        -- rewrite Hpc. reflexivity.
        -- intros b Hb. by apply pc_car_after_loop in Hb.
        -- intros _. by right.
        -- left. reflexivity.
      * apply eff_move; try reflexivity. rewrite Hpc. simpl. congruence.
      * apply eff_move; try reflexivity. simpl. congruence.
    + injection H as <-; eexists t, _;
        (split; [reflexivity|]); (split; [reflexivity|]);
        (split; [repeat split|]); (split; [|discriminate]).
      apply eff_move; try reflexivity. rewrite Hpc. simpl. congruence.
  - (* return from wait() *)
    set (car' := set_waiting_time (PrimFloat.add (waiting_time car) tenth) car) in *.
    destruct (PrimFloat.ltb (float_of_int MAX_WAITING_TIME) (waiting_time car'));
      injection H as <-; eexists t, _;
      (split; [reflexivity|]); (split; [reflexivity|]);
      (split; [repeat split|]);
      (split; [|unfold after_loop; try destruct (String.eqb _ _); discriminate]);
      apply (eff_update _ _ _ _ a car car'); try reflexivity; try assumption;
      try (rewrite Hpc; reflexivity);
      try (intros b Hb; simpl in Hb; first [by apply pc_car_after_loop in Hb | congruence]);
      try (left; reflexivity);
      intros Hc; left; exact Hc.
  - (* crossing loop *)
    destruct (PrimFloat.ltb (PrimFloat.sub now st) (float_of_int CAR_CROSSING_TIME)).
    + injection H as <-. exists t, (pc t).
      split; [reflexivity|]. split.
      { simpl. symmetry. apply list_insert_id. destruct t; assumption. }
      split; [repeat split|]. split; [|rewrite Hpc; discriminate].
      apply (eff_update _ _ _ _ a car (set_position (PrimFloat.add (position car) tenth) car));
        try reflexivity; try assumption.
      * rewrite Hpc. reflexivity.
      * rewrite Hpc. simpl. congruence.
      * intros Hc. left. exact Hc.
      * left. reflexivity.
    + injection H as <-. eexists t, _.
      split; [reflexivity|]. split; [reflexivity|]. split.
      { repeat split; destruct n, (arg_road_num t); reflexivity. }
      split; [|discriminate].
      assert (forall n, cars (roads (set_car_procs (<[i := set_pc PcFinished t]> (car_procs s))
                 (set_road (arg_road_num t)
                    (set_cars (if car_in (heap s) a car (cars (roads s (arg_road_num t)))
                               then list_remove (heap s) a car (cars (roads s (arg_road_num t)))
                               else cars (roads s (arg_road_num t)))
                              (roads s (arg_road_num t)))
                    (set_heap (<[a := set_state "exited" car]> (heap s)) s))) n)
              = if RoadNum_eqb (arg_road_num t) n
                then if car_in (heap s) a car (cars (roads s n))
                     then list_remove (heap s) a car (cars (roads s n))
                     else cars (roads s n)
                else cars (roads s n)) as Hlists.
      { intros n. destruct n, (arg_road_num t); reflexivity. }
      apply (eff_update _ _ _ _ a car (set_state "exited" car));
        try reflexivity; try assumption.
      * rewrite Hpc. reflexivity.
      * intros n. rewrite Hlists.
        destruct (RoadNum_eqb (arg_road_num t) n); [|reflexivity].
        destruct (car_in (heap s) a car (cars (roads s n)));
          [apply list_remove_sublist|reflexivity].
      * simpl. congruence.
      * simpl. discriminate.
      * right. split; [reflexivity|]. split; [reflexivity|]. exact Hlists.
Qed.

(** ** What the other steps leave alone *)

(** The store, the cars of the roads, the mode and the inputs. *)
Definition core_frame (s s' : TrafficSimulator) : Prop :=
  heap s' = heap s
  /\ (forall n, cars (roads s' n) = cars (roads s n))
  /\ is_running s' = is_running s /\ case_type s' = case_type s
  /\ case_var s' = case_var s /\ cars_entry s' = cars_entry s /\ k_entry s' = k_entry s.

Lemma light_process_frame (i : nat) (now : float) (s s' : TrafficSimulator) :
  traffic_light_process i now s = Some s' ->
  core_frame s s'
  /\ (car_procs s' = car_procs s \/ exists n, car_procs s' = map (wake n) (car_procs s)).
Proof.
  unfold traffic_light_process. intros H.
  destruct (light_procs s !! i) as [p|]; [|discriminate H].
  cbn [mbind option_bind] in H.
  destruct p as [|[|n rest]|n rest|n rest|]; try discriminate H;
    try destruct (is_running s); cbn [negb] in H; injection H as <-;
    (split; [repeat split; try (destruct n0, n; reflexivity)|]);
    first [left; reflexivity | right; exists n; reflexivity].
Qed.

Lemma update_display_frame (i : nat) (s s' : TrafficSimulator) :
  update_display i s = Some s' ->
  core_frame s s' /\ car_procs s' = car_procs s
  /\ road1 s' = road1 s /\ road2 s' = road2 s /\ light_procs s' = light_procs s.
Proof.
  unfold update_display. intros H.
  destruct (display_procs s !! i) as [[|]|]; try discriminate H.
  cbn [mbind option_bind] in H.
  destruct (is_running s); injection H as <-; repeat split.
Qed.

Lemma wf_core_frame (s s' : TrafficSimulator) :
  core_frame s s' ->
  (car_procs s' = car_procs s \/ exists n, car_procs s' = map (wake n) (car_procs s)) ->
  wf s -> wf s'.
Proof.
  intros (Hh & Hc & _) Hp Hwf. apply (wf_frame s); try assumption.
  - rewrite Hh. apply heap_le_refl.
  - intros n. by rewrite Hc.
  - rewrite Hh. destruct Hp as [->|[n ->]]; [apply (wf_procs _ Hwf)|].
    apply Forall_map. eapply Forall_impl; [apply (wf_procs _ Hwf)|].
    intros t. apply proc_ok_wake.
Qed.

(** Resetting the roads: no road holds a car afterwards. *)
Lemma wf_reset_roads (s : TrafficSimulator) : wf s -> wf (reset_roads s).
Proof.
  intros Hwf. apply (wf_frame s); [apply heap_le_refl| | |assumption].
  - intros n. rewrite roads_reset_roads. simpl. apply sublist_nil_l.
  - simpl. apply Forall_map, Forall_map.
    eapply Forall_impl; [apply (wf_procs _ Hwf)|].
    intros t Ht. by do 2 apply proc_ok_wake.
Qed.

Lemma wf_spawn_cars (randint : nat -> RoadNum) (count i : nat) (s : TrafficSimulator) :
  wf s -> wf (spawn_cars randint i count s).
Proof.
  revert i s. induction count as [|count IH]; intros i s Hwf; [assumption|].
  simpl. apply IH. apply (wf_frame s); [apply heap_le_refl| | |assumption].
  - intros n. destruct n; reflexivity.
  - simpl. apply Forall_app. split; [apply (wf_procs _ Hwf)|].
    apply Forall_singleton. intros a Ha. discriminate Ha.
Qed.

Lemma wf_start_simulation (randint : nat -> RoadNum) (s : TrafficSimulator) :
  wf s -> wf (snd (start_simulation randint s)).
Proof.
  intros Hwf. unfold start_simulation. cbn zeta.
  change (case_var (set_is_running true s)) with (case_var s).
  destruct (py_int (case_var s)) as [c|]; [|by destruct Hwf].
  change (cars_entry (set_case_type c (set_is_running true s))) with (cars_entry s).
  destruct (py_int (cars_entry s)) as [num_cars|]; [|by destruct Hwf].
  cbn [snd]. apply wf_spawn_cars.
  match goal with |- wf (set_display_thread _ (set_display_procs _
      (set_light_thread _ (set_light_procs _ (reset_roads ?s0))))) =>
    assert (wf (reset_roads s0)) as H by (apply wf_reset_roads; by destruct Hwf);
    revert H; generalize (reset_roads s0)
  end.
  intros s1 [H1 H2 H3]. split; [exact H1|exact H2|exact H3].
Qed.

Lemma wf_stop_simulation (s : TrafficSimulator) : wf s -> wf (stop_simulation s).
Proof.
  intros Hwf. unfold stop_simulation. apply wf_reset_roads. by destruct Hwf.
Qed.

Lemma wf_toggle_simulation (randint : nat -> RoadNum) (s : TrafficSimulator) :
  wf s -> wf (snd (toggle_simulation randint s)).
Proof.
  intros Hwf. unfold toggle_simulation.
  destruct (negb (is_running s)); [by apply wf_start_simulation|].
  by apply wf_stop_simulation.
Qed.

Lemma wf_car_process (i : nat) (now : float) (s s' : TrafficSimulator) :
  wf s -> car_process i now s = Some s' -> wf s'.
Proof.
  intros Hwf H. pose proof Hwf as [Hcars Hnd Hprocs].
  destruct (car_process_effect _ _ _ _ H) as (t & p & Ht & Hp' & _ & Heff & _).
  assert (proc_ok (heap s) t) as Hok.
  { eapply (proj1 (Forall_forall _ _) Hprocs), list_elem_of_lookup_2, Ht. }
  destruct Heff as [Hpc -> Hh Hc | Hh Hc Hpcs | a car car' Hpc Ha Hh Hr Hc Hpcs _ _ _].
  - (* arrival *)
    assert (heap_le (heap s) (heap s')) as Hle by (rewrite Hh; apply heap_le_app).
    assert (ref_ok (heap s') (arg_road_num t) (length (heap s))) as Hnew.
    { exists (new_car t). split; [|reflexivity].
      rewrite Hh. by apply list_lookup_middle. }
    split.
    + intros n. rewrite Hc.
      assert (Forall (ref_ok (heap s') n) (cars (roads s n))) as Hold.
      { eapply Forall_impl; [apply Hcars|]. intros a. by apply ref_ok_mono. }
      destruct (RoadNum_eqb (arg_road_num t) n) eqn:E; [|assumption].
      apply Forall_app. split; [assumption|]. apply Forall_singleton.
      destruct (arg_road_num t), n; try discriminate E; assumption.
    + intros n. rewrite Hc.
      destruct (RoadNum_eqb (arg_road_num t) n); [|apply Hnd].
      apply NoDup_app. split; [apply Hnd|]. split; [|apply NoDup_singleton].
      intros a Ha Ha'. apply list_elem_of_singleton in Ha'. subst a.
      destruct (proj1 (Forall_forall _ _) (Hcars n) _ Ha) as (c & Hl & _).
      apply lookup_lt_Some in Hl. lia.
    + rewrite Hp'. apply Forall_insert.
      * eapply Forall_impl; [apply Hprocs|]. intros t'. by apply proc_ok_mono.
      * apply proc_ok_set_pc. intros a Ha. injection Ha as <-. assumption.
  - (* the program counter alone *)
    apply (wf_frame s); try assumption.
    + rewrite Hh. apply heap_le_refl.
    + intros n. by rewrite Hc.
    + rewrite Hp', Hh. apply Forall_insert; [assumption|].
      apply proc_ok_set_pc. intros b Hb. apply Hok, Hpcs, Hb.
  - (* the thread's own car *)
    assert (heap_le (heap s) (heap s')) as Hle.
    { rewrite Hh. eapply heap_le_insert; eassumption. }
    apply (wf_frame s); try assumption.
    rewrite Hp'. apply Forall_insert.
    + eapply Forall_impl; [apply Hprocs|]. intros t'. by apply proc_ok_mono.
    + apply proc_ok_set_pc. intros b Hb. apply Hpcs in Hb. subst b.
      eapply ref_ok_mono; [exact Hle|]. by apply Hok.
Qed.

(** Every step keeps well-formedness. *)
Lemma wf_exec (e : event) (s s' : TrafficSimulator) :
  wf s -> exec e s = Some s' -> wf s'.
Proof.
  intros Hwf H. destruct e as [randint|i now|i now|i]; simpl in H.
  - injection H as <-. by apply wf_toggle_simulation.
  - eapply wf_car_process; eassumption.
  - destruct (light_process_frame _ _ _ _ H) as [Hf Hp].
    eapply wf_core_frame; eassumption.
  - destruct (update_display_frame _ _ _ H) as (Hf & Hp & _).
    eapply wf_core_frame; [eassumption|by left|assumption].
Qed.

Lemma wf_init (case count k : string) (now : float) : wf (init case count k now).
Proof.
  split; simpl.
  - intros []; constructor.
  - intros []; constructor.
  - constructor.
Qed.

Lemma wf_reachable (s0 s : TrafficSimulator) : wf s0 -> reachable s0 s -> wf s.
Proof.
  intros H0. induction 1 as [|s s' _ IH [e He]]; [assumption|].
  eapply wf_exec; eassumption.
Qed.

(** ** The number of crossing cars stays below the admission bound *)

(** At most [K] cars of each road are crossing. *)
Definition capacity (K : nat) (s : TrafficSimulator) : Prop :=
  forall n, (length (crossing_cars s n) <= K)%nat.

(** [can_cross] says yes only when fewer than [K] cars are crossing. *)
Definition admits_below (K : nat) (s : TrafficSimulator) : Prop :=
  forall road car,
    can_cross s road car = Ok true -> (ncross (heap s) (cars road) < K)%nat.

Lemma existsb_false_filter {A : Type} (f : A -> bool) (l : list A) :
  existsb f l = false -> List.filter f l = [].
Proof.
  induction l as [|x l IH]; simpl; [reflexivity|].
  destruct (f x); simpl; [discriminate|assumption].
Qed.



Lemma capacity_car_process (K : nat) (i : nat) (now : float) (s s' : TrafficSimulator) :
  wf s -> admits_below K s -> capacity K s ->
  car_process i now s = Some s' -> capacity K s'.
Proof.
  intros [Hcars Hnd Hprocs] Hadm Hcap H n.
  specialize (Hcap n). unfold crossing_cars in *. fold (ncross (heap s) (cars (roads s n))) in Hcap.
  fold (ncross (heap s') (cars (roads s' n))).
  destruct (car_process_effect _ _ _ _ H) as (t & p & Ht & _ & _ & Heff & _).
  assert (proc_ok (heap s) t) as Hok.
  { eapply (proj1 (Forall_forall _ _) Hprocs), list_elem_of_lookup_2, Ht. }
  destruct Heff as [Hpc -> Hh Hc | Hh Hc _ | a car car' Hpc Ha Hh Hr Hc _ Hadmit _ _].
  - (* arrival: the new car is waiting *)
    assert (ncross (heap s') (cars (roads s n)) = ncross (heap s) (cars (roads s n))) as Hold.
    { apply ncross_ext. intros a Ha.
      destruct (proj1 (Forall_forall _ _) (Hcars n) _ Ha) as (c & Hl & _).
      rewrite Hh, Hl. by apply lookup_app_l_Some. }
    rewrite Hc. destruct (RoadNum_eqb (arg_road_num t) n); [|lia].
    rewrite ncross_app, Hold, ncross_cons, ncross_nil, Hh.
    rewrite (list_lookup_middle (heap s) [] (new_car t)) by reflexivity.
    simpl. lia.
  - rewrite Hh, Hc. exact Hcap.
  - (* the thread's own car *)
    pose proof (ncross_sublist (heap s') _ _ (Hc n)) as Hsub.
    rewrite Hh in *.
    destruct (is_crossing car') eqn:Hc'.
    + destruct (Hadmit eq_refl) as [Hwas|Hyes].
      * rewrite (ncross_insert_same (heap s) a car car' (cars (roads s n)))
          in Hsub by congruence.
        lia.
      * apply Hadm in Hyes.
        destruct (RoadNum_eqb (arg_road_num t) n) eqn:E.
        -- assert (arg_road_num t = n) as <-
             by (destruct (arg_road_num t), n; try discriminate E; reflexivity).
           pose proof (ncross_insert_S (heap s) a car' _ (Hnd (arg_road_num t))). lia.
        -- (* the car is not on the other road *)
           rewrite (ncross_ext (heap s) _ (cars (roads s n))) in Hsub; [lia|].
           intros b Hb. apply list_lookup_insert_ne. intros ->.
           destruct (proj1 (Forall_forall _ _) (Hcars n) _ Hb) as (c1 & Hl1 & Hn1).
           destruct (Hok b Hpc) as (c2 & Hl2 & Hn2).
           assert (c1 = c2) by congruence. subst c2.
           rewrite Hn1 in Hn2. rewrite <- Hn2 in E.
           destruct n; discriminate E.
    + pose proof (ncross_insert_le (heap s) a car' (cars (roads s n)) Hc'). lia.
Qed.

Lemma toggle_simulation_roads (randint : nat -> RoadNum) (s : TrafficSimulator) :
  let s' := snd (toggle_simulation randint s) in
  heap s' = heap s
  /\ ((forall n, cars (roads s' n) = [] /\ light_state (roads s' n) = RED)
      \/ (forall n, roads s' n = roads s n)).
Proof.
  unfold toggle_simulation. cbn zeta.
  destruct (negb (is_running s)); cbn [snd].
  - unfold start_simulation. cbn zeta.
    change (case_var (set_is_running true s)) with (case_var s).
    destruct (py_int (case_var s)) as [c|];
      [|split; [reflexivity|right; intros []; reflexivity]].
    change (cars_entry (set_case_type c (set_is_running true s))) with (cars_entry s).
    destruct (py_int (cars_entry s)) as [num_cars|];
      [|split; [reflexivity|right; intros []; reflexivity]].
    cbn [snd fst].
    match goal with |- context [spawn_cars randint 0 ?c ?s0] =>
      pose proof (spawn_cars_frame randint c 0%nat s0) as H end.
    cbn zeta in H. destruct H as (_&_&H1&H2&Hh&_).
    split; [rewrite Hh; reflexivity|].
    left. intros []; cbn [roads]; [rewrite H1|rewrite H2]; split; reflexivity.
  - split; [reflexivity|]. left. intros n.
    unfold stop_simulation. rewrite roads_reset_roads. split; reflexivity.
Qed.

Lemma capacity_exec (K : nat) (e : event) (s s' : TrafficSimulator) :
  wf s -> admits_below K s -> capacity K s ->
  exec e s = Some s' -> capacity K s'.
Proof.
  intros Hwf Hadm Hcap H. destruct e as [randint|i now|i now|i]; simpl in H.
  - injection H as <-.
    destruct (toggle_simulation_roads randint s) as [Hh [Hc|Hc]]; intros n;
      unfold crossing_cars; rewrite Hh;
      [rewrite (proj1 (Hc n)); simpl; lia | rewrite Hc; apply Hcap].
  - eapply capacity_car_process; eassumption.
  - destruct (light_process_frame _ _ _ _ H) as [(Hh & Hc & _) _].
    intros n. unfold crossing_cars. rewrite Hh, Hc. apply Hcap.
  - destruct (update_display_frame _ _ _ H) as ((Hh & Hc & _) & _).
    intros n. unfold crossing_cars. rewrite Hh, Hc. apply Hcap.
Qed.

(** The mode and the inputs along a trace: the widgets keep their
    contents, and [case_type] is 1 (its initial value) or what
    [start_simulation] read from [case_var]. *)
Definition mode_ok (case k : string) (s : TrafficSimulator) : Prop :=
  case_var s = case /\ k_entry s = k
  /\ (case_type s = 1 \/ py_int case = Some (case_type s)).

Lemma mode_ok_exec (case k : string) (e : event) (s s' : TrafficSimulator) :
  mode_ok case k s -> exec e s = Some s' -> mode_ok case k s'.
Proof.
  intros (Hv & Hk & Hm) H. destruct e as [randint|i now|i now|i]; simpl in H.
  - injection H as <-. unfold toggle_simulation.
    destruct (negb (is_running s)); cbn [snd]; [|repeat split; assumption].
    unfold start_simulation. cbn zeta.
    change (case_var (set_is_running true s)) with (case_var s).
    destruct (py_int (case_var s)) as [c|] eqn:Hc; [|repeat split; assumption].
    change (cars_entry (set_case_type c (set_is_running true s))) with (cars_entry s).
    destruct (py_int (cars_entry s)) as [num_cars|];
      [|repeat split; try assumption; right; simpl; congruence].
    cbn [snd].
    match goal with |- context [spawn_cars randint 0 ?c ?s0] =>
      pose proof (spawn_cars_frame randint c 0%nat s0) as H end.
    cbn zeta in H. destruct H as (_&Hct&_&_&_&_&_&_&_&Hv'&_&Hk'&_).
    unfold mode_ok. rewrite Hv', Hk', Hct.
    repeat split; try assumption. right. simpl. congruence.
  - destruct (car_process_effect _ _ _ _ H) as (t & p & _ & _ & Hf & _).
    destruct Hf as (_ & Hct & Hv' & _ & Hk' & _).
    unfold mode_ok. rewrite Hct, Hv', Hk'. repeat split; assumption.
  - destruct (light_process_frame _ _ _ _ H) as [(_ & _ & _ & Hct & Hv' & _ & Hk') _].
    unfold mode_ok. rewrite Hct, Hv', Hk'. repeat split; assumption.
  - destruct (update_display_frame _ _ _ H) as ((_ & _ & _ & Hct & Hv' & _ & Hk') & _).
    unfold mode_ok. rewrite Hct, Hv', Hk'. repeat split; assumption.
Qed.

Lemma mode_ok_reachable (case count k : string) (now : float) (s : TrafficSimulator) :
  reachable (init case count k now) s -> mode_ok case k s.
Proof.
  induction 1 as [|s s' _ IH [e He]].
  - repeat split. by left.
  - eapply mode_ok_exec; eassumption.
Qed.



(** ** Inside one run: every crossing car is on the list of its road *)

Definition is_click (e : event) : bool :=
  match e with Click _ => true | _ => false end.

(** The states of one run: what thread steps reach, without a click. *)
Inductive run_from (s0 : TrafficSimulator) : TrafficSimulator -> Prop :=
| run_here : run_from s0 s0
| run_next s s' e :
    run_from s0 s -> is_click e = false -> exec e s = Some s' -> run_from s0 s'.

Lemma run_from_reachable (s0 s1 s : TrafficSimulator) :
  reachable s0 s1 -> run_from s1 s -> reachable s0 s.
Proof.
  intros H1. induction 1 as [|s s' e _ IH _ He]; [assumption|].
  eapply reach_step; [exact IH|]. exists e. exact He.
Qed.

Lemma run_from_run (es : list event) (s0 s1 s : TrafficSimulator) :
  run_from s0 s1 -> forallb (fun e => negb (is_click e)) es = true ->
  run es s1 = Some s -> run_from s0 s.
Proof.
  revert s1. induction es as [|e es IH]; intros s1 H1 Hes H; simpl in *.
  - injection H as <-. assumption.
  - apply andb_true_iff in Hes as [He Hes]. apply negb_true_iff in He.
    destruct (exec e s1) as [s2|] eqn:Hexec; [|discriminate H].
    apply (IH s2); [|assumption|exact H].
    eapply run_next; eassumption.
Qed.

(** In the first run of the program, car threads and cars are numbered
    alike: thread [i] has [car_id = i + 1], every car of the store was
    created by a thread with its [car_id], no two cars share a
    [car_id]; a thread's car is on the list of the thread's road until
    the thread removes it; and so is every crossing car. *)
Record run_inv (s : TrafficSimulator) : Prop := mk_run_inv {
  ri_ids : forall i t, car_procs s !! i = Some t -> arg_car_id t = Z.of_nat i + 1;
  ri_born : forall a c, heap s !! a = Some c ->
      exists i t, car_procs s !! i = Some t /\ arg_car_id t = car_id c /\ pc t <> PcArrive;
  ri_unique : forall a b ca cb,
      heap s !! a = Some ca -> heap s !! b = Some cb -> car_id ca = car_id cb -> a = b;
  ri_owner : forall i t a, car_procs s !! i = Some t -> pc_car (pc t) = Some a ->
      exists c, heap s !! a = Some c /\ car_id c = arg_car_id t
                /\ a ∈ cars (roads s (arg_road_num t));
  ri_crossing : forall a c, heap s !! a = Some c -> state c = "crossing" ->
      a ∈ cars (roads s (road_num c))
}.

Lemma spawn_cars_ids (randint : nat -> RoadNum) (count i : nat) (s : TrafficSimulator) :
  length (car_procs s) = i ->
  (forall j t, car_procs s !! j = Some t ->
               arg_car_id t = Z.of_nat j + 1 /\ pc t = PcArrive) ->
  forall j t, car_procs (spawn_cars randint i count s) !! j = Some t ->
              arg_car_id t = Z.of_nat j + 1 /\ pc t = PcArrive.
Proof.
  revert i s. induction count as [|count IH]; intros i s Hlen Hs; [exact Hs|].
  simpl. apply IH.
  - simpl. rewrite length_app. simpl. lia.
  - intros j t. simpl. rewrite lookup_snoc_Some.
    intros [[_ Hj]|[-> <-]]; [by apply Hs|]. rewrite Hlen. by split.
Qed.

Lemma run_inv_first (randint : nat -> RoadNum) (case count k : string) (now : float) :
  run_inv (snd (toggle_simulation randint (init case count k now))).
Proof.
  set (s0 := init case count k now).
  assert (heap (snd (toggle_simulation randint s0)) = []) as Hheap
    by apply (proj1 (toggle_simulation_roads randint s0)).
  assert (forall j t, car_procs (snd (toggle_simulation randint s0)) !! j = Some t ->
                      arg_car_id t = Z.of_nat j + 1 /\ pc t = PcArrive) as Hprocs.
  { unfold toggle_simulation, start_simulation. cbn [is_running s0 init negb].
    cbn zeta. cbn [case_var cars_entry init s0 set_is_running set_case_type].
    destruct (py_int case); [|intros j t Hj; discriminate Hj].
    destruct (py_int count); [|intros j t Hj; discriminate Hj].
    cbn [snd]. apply spawn_cars_ids; [reflexivity|].
    intros j t Hj. discriminate Hj. }
  split.
  - intros i t Hi. by apply Hprocs.
  - intros a c Ha. rewrite Hheap in Ha. discriminate Ha.
  - intros a b ca cb Ha. rewrite Hheap in Ha. discriminate Ha.
  - intros i t a Hi Ha. apply Hprocs in Hi as [_ Hpc]. rewrite Hpc in Ha. discriminate Ha.
  - intros a c Ha. rewrite Hheap in Ha. discriminate Ha.
Qed.

Lemma lookup_map {A B : Type} (f : A -> B) (l : list A) (i : nat) :
  map f l !! i = f <$> (l !! i).
Proof.
  revert i. induction l as [|x l IH]; intros [|i]; simpl; try reflexivity. apply IH.
Qed.

Lemma Car_eqb_id (c1 c2 : Car) : Car_eqb c1 c2 = true -> car_id c1 = car_id c2.
Proof.
  unfold Car_eqb. rewrite !andb_true_iff. intros [[[[[H _] _] _] _] _].
  by apply Z.eqb_eq.
Qed.

(** [remove] takes out the car itself when no other car of the list
    equals it. *)
Lemma list_remove_keeps (h : list Car) (a : nat) (car : Car) (l : list nat) (x : nat) :
  (forall b cb, b ∈ l -> b <> a -> h !! b = Some cb -> Car_eqb cb car = false) ->
  x ∈ l -> x <> a ->
  x ∈ (if car_in h a car l then list_remove h a car l else l).
Proof.
  intros Hne Hx Hxa. destruct (car_in h a car l); [|assumption].
  induction l as [|b l IH]; [by apply elem_of_nil in Hx|]. simpl.
  destruct (decide (b = a)) as [->|Hba].
  - rewrite Nat.eqb_refl. simpl.
    apply elem_of_cons in Hx as [->|Hx]; [contradiction|assumption].
  - assert (Nat.eqb b a = false) as -> by (by apply Nat.eqb_neq).
    assert (match h !! b with Some c => Car_eqb c car | None => false end = false) as ->.
    { destruct (h !! b) as [cb|] eqn:Hb; [|reflexivity].
      apply (Hne b cb); [by left|assumption|assumption]. }
    simpl. apply elem_of_cons in Hx as [->|Hx]; [by left|right].
    apply IH; [|assumption]. intros b' cb' Hb'. apply Hne. by right.
Qed.

Lemma wake_view (n : RoadNum) (t : CarProc) :
  arg_car_id (wake n t) = arg_car_id t
  /\ arg_road_num (wake n t) = arg_road_num t
  /\ pc_car (pc (wake n t)) = pc_car (pc t)
  /\ (pc t <> PcArrive -> pc (wake n t) <> PcArrive).
Proof.
  unfold wake. destruct (pc t) eqn:Hpc; rewrite ?Hpc; repeat split; try congruence.
  all: destruct (RoadNum_eqb _ _); simpl; rewrite ?Hpc; try reflexivity; discriminate.
Qed.

(** The invariant does not depend on the threads' other fields. *)
Lemma run_inv_wake (s s' : TrafficSimulator) :
  heap s' = heap s ->
  (forall n, cars (roads s' n) = cars (roads s n)) ->
  (car_procs s' = car_procs s \/ exists n, car_procs s' = map (wake n) (car_procs s)) ->
  run_inv s -> run_inv s'.
Proof.
  intros Hh Hc [Hp|[n Hp]] [Hids Hborn Huniq Hown Hcross].
  - split; rewrite ?Hh, ?Hp; try assumption.
    + intros i t a Hi Ha. rewrite Hc. by apply (Hown i).
    + intros a c Ha Hst. rewrite Hc. by apply Hcross.
  - assert (forall j t', car_procs s' !! j = Some t' ->
              exists t0, car_procs s !! j = Some t0 /\ t' = wake n t0) as Hback.
    { intros j t'. rewrite Hp, lookup_map.
      destruct (car_procs s !! j) as [t0|]; simpl; [|discriminate].
      intros E. injection E as <-. eauto. }
    split; rewrite ?Hh; try assumption.
    + intros i t Hi. apply Hback in Hi as (t0 & Hi & ->).
      rewrite (proj1 (wake_view n t0)). by apply Hids.
    + intros a c Ha. destruct (Hborn a c Ha) as (i & t0 & Hi & Hid & Hpc).
      exists i, (wake n t0). rewrite Hp, lookup_map, Hi. simpl.
      destruct (wake_view n t0) as (E1 & _ & _ & E4). rewrite E1. auto.
    + intros i t a Hi Ha. apply Hback in Hi as (t0 & Hi & ->).
      destruct (wake_view n t0) as (E1 & E2 & E3 & _).
      rewrite E3 in Ha. rewrite E1, E2, Hc. by apply (Hown i).
    + intros a c Ha Hst. rewrite Hc. by apply Hcross.
Qed.

Lemma run_inv_car_process (i : nat) (now : float) (s s' : TrafficSimulator) :
  wf s -> run_inv s -> car_process i now s = Some s' -> run_inv s'.
Proof.
  intros [Hcars Hnd Hprocs] [Hids Hborn Huniq Hown Hcross] H.
  destruct (car_process_effect _ _ _ _ H) as (t & p & Ht & Hp' & _ & Heff & HpA).
  assert (proc_ok (heap s) t) as Hok.
  { eapply (proj1 (Forall_forall _ _) Hprocs), list_elem_of_lookup_2, Ht. }
  assert (i < length (car_procs s))%nat as Hlt by (eapply lookup_lt_Some; eassumption).
  assert (forall j t', car_procs s' !! j = Some t' ->
            (j = i /\ t' = set_pc p t) \/ (j <> i /\ car_procs s !! j = Some t')) as Hback.
  { intros j t'. rewrite Hp', list_lookup_insert_Some.
    intros [(-> & <- & _)|[Hne Hj]]; [by left | right; split; congruence]. }
  assert (forall j t0, car_procs s !! j = Some t0 -> pc t0 <> PcArrive ->
            exists t', car_procs s' !! j = Some t'
                       /\ arg_car_id t' = arg_car_id t0 /\ pc t' <> PcArrive) as Hfwd.
  { intros j t0 Hj Hpc. rewrite Hp'. destruct (decide (j = i)) as [->|Hne].
    - exists (set_pc p t). rewrite list_lookup_insert_eq by assumption.
      assert (t0 = t) as -> by congruence. auto.
    - exists t0. rewrite list_lookup_insert_ne by congruence. auto. }
  assert (forall j t', car_procs s' !! j = Some t' -> arg_car_id t' = Z.of_nat j + 1) as Hids'.
  { intros j t' Hj. apply Hback in Hj as [[-> ->]|[_ Hj]]; [exact (Hids i t Ht)|by apply Hids]. }
  destruct Heff as [Hpc -> Hh Hc | Hh Hc Hpcs
                   | a car car' Hpc Ha Hh Hr Hsub Hpcs _ Hid Hlists].
  - (* arrival *)
    assert (forall b c, heap s' !! b = Some c ->
              heap s !! b = Some c \/ (b = length (heap s) /\ c = new_car t)) as Hlook.
    { intros b c. rewrite Hh, lookup_snoc_Some. intros [[_ Hb]|[-> <-]]; auto. }
    assert (forall b c, heap s !! b = Some c -> car_id c <> arg_car_id t) as Hfresh.
    { intros b c Hb E. destruct (Hborn b c Hb) as (j & tj & Hj & Hidj & Hpcj).
      assert (j = i) as ->.
      { pose proof (Hids j tj Hj). pose proof (Hids i t Ht). lia. }
      congruence. }
    assert (forall n b, b ∈ cars (roads s n) -> b ∈ cars (roads s' n)) as Hmono.
    { intros n b Hb. rewrite Hc. destruct (RoadNum_eqb _ _); [|assumption].
      apply elem_of_app. by left. }
    split; [exact Hids'| | | |].
    + intros b c Hb. apply Hlook in Hb as [Hb|[-> ->]].
      * destruct (Hborn b c Hb) as (j & tj & Hj & Hidj & Hpcj).
        destruct (Hfwd j tj Hj Hpcj) as (t' & Hj' & E & Hpc').
        exists j, t'. repeat split; congruence.
      * exists i, (set_pc (PcWhile (length (heap s))) t).
        rewrite Hp', list_lookup_insert_eq by assumption. repeat split. discriminate.
    + intros b1 b2 c1 c2 H1 H2 E.
      apply Hlook in H1 as [H1|[-> ->]]; apply Hlook in H2 as [H2|[-> ->]].
      * by apply (Huniq b1 b2 c1 c2).
      * exfalso. by apply (Hfresh b1 c1 H1).
      * exfalso. apply (Hfresh b2 c2 H2). by symmetry.
      * reflexivity.
    + intros j t' b Hj Hb. apply Hback in Hj as [[-> ->]|[Hne Hj]].
      * simpl in Hb. injection Hb as <-. exists (new_car t).
        split; [rewrite Hh; by apply list_lookup_middle|]. split; [reflexivity|].
        cbn [arg_road_num set_pc]. rewrite Hc.
        assert (RoadNum_eqb (arg_road_num t) (arg_road_num t) = true) as ->
          by (destruct (arg_road_num t); reflexivity).
        apply elem_of_app. right. by apply list_elem_of_singleton.
      * destruct (Hown j t' b Hj Hb) as (c & Hl & E & Hin).
        exists c. split; [rewrite Hh; by apply lookup_app_l_Some|]. split; [assumption|].
        by apply Hmono.
    + intros b c Hb Hst. apply Hlook in Hb as [Hb|[-> ->]]; [|discriminate Hst].
      by apply Hmono, Hcross.
  - (* the program counter alone *)
    split; [exact Hids'| | | |]; rewrite ?Hh.
    + intros b c Hb. destruct (Hborn b c Hb) as (j & tj & Hj & Hidj & Hpcj).
      destruct (Hfwd j tj Hj Hpcj) as (t' & Hj' & E & Hpc').
      exists j, t'. repeat split; congruence.
    + exact Huniq.
    + intros j t' b Hj Hb. rewrite Hc. apply Hback in Hj as [[-> ->]|[Hne Hj]].
      * apply (Hown i t b Ht). apply Hpcs, Hb.
      * by apply (Hown j).
    + intros b c Hb Hst. rewrite Hc. by apply Hcross.
  - (* the thread's own car *)
    destruct (Hown i t a Ht Hpc) as (c0 & Hc0 & Hid0 & Hin0).
    assert (c0 = car) as -> by congruence.
    destruct (Hok a Hpc) as (c1 & Hc1 & Hroad).
    assert (c1 = car) as -> by congruence.
    assert (a < length (heap s))%nat as Halt by (eapply lookup_lt_Some; eassumption).
    assert (forall b c, heap s' !! b = Some c ->
              (b = a /\ c = car') \/ (b <> a /\ heap s !! b = Some c)) as Hlook.
    { intros b c. rewrite Hh, list_lookup_insert_Some.
      intros [(-> & <- & _)|[Hne Hb]]; [by left | right; split; congruence]. }
    assert (forall b c, heap s' !! b = Some c ->
              exists c', heap s !! b = Some c' /\ car_id c' = car_id c) as Hold.
    { intros b c Hb. apply Hlook in Hb as [[-> ->]|[_ Hb]]; eauto. }
    assert (forall n b, b ∈ cars (roads s n) -> b <> a -> b ∈ cars (roads s' n)) as Hkeep.
    { intros n b Hb Hne. destruct Hlists as [Hsame|(_ & _ & Hrem)]; [by rewrite Hsame|].
      rewrite Hrem. destruct (RoadNum_eqb _ _); [|assumption].
      apply list_remove_keeps; try assumption.
      intros x cx Hx Hxa Hlx. destruct (Car_eqb cx car) eqn:E; [|reflexivity].
      exfalso. apply Hxa. apply (Huniq x a cx car Hlx Ha). by apply Car_eqb_id. }
    split; [exact Hids'| | | |].
    + intros b c Hb. destruct (Hold b c Hb) as (c' & Hb' & E).
      destruct (Hborn b c' Hb') as (j & tj & Hj & Hidj & Hpcj).
      destruct (Hfwd j tj Hj Hpcj) as (t' & Hj' & E' & Hpc').
      exists j, t'. repeat split; congruence.
    + intros b1 b2 c1 c2 H1 H2 E.
      destruct (Hold b1 c1 H1) as (c1' & H1' & E1).
      destruct (Hold b2 c2 H2) as (c2' & H2' & E2).
      apply (Huniq b1 b2 c1' c2' H1' H2'). congruence.
    + intros j t' b Hj Hb. apply Hback in Hj as [[-> ->]|[Hne Hj]].
      * simpl in Hb. pose proof (Hpcs _ Hb) as ->. exists car'.
        split; [rewrite Hh; by apply list_lookup_insert_eq|].
        split; [simpl; congruence|]. cbn [arg_road_num set_pc].
        destruct Hlists as [Hsame|(_ & Hfin & _)]; [by rewrite Hsame|].
        rewrite Hfin in Hb. discriminate Hb.
      * destruct (Hown j t' b Hj Hb) as (c & Hl & E & Hin).
        assert (b <> a) as Hba.
        { intros ->. assert (c = car) as -> by congruence.
          apply Hne. pose proof (Hids j t' Hj). pose proof (Hids i t Ht). lia. }
        exists c. split; [rewrite Hh, list_lookup_insert_ne by congruence; exact Hl|].
        split; [assumption|]. by apply Hkeep.
    + intros b c Hb Hst. apply Hlook in Hb as [[-> ->]|[Hne Hb]].
      * destruct Hlists as [Hsame|(Hex & _)]; [|congruence].
        rewrite Hsame, Hr, Hroad. exact Hin0.
      * apply Hkeep; [|assumption]. by apply Hcross.
Qed.

Lemma run_inv_exec (e : event) (s s' : TrafficSimulator) :
  wf s -> run_inv s -> is_click e = false -> exec e s = Some s' -> run_inv s'.
Proof.
  intros Hwf Hinv Hc H. destruct e as [randint|i now|i now|i]; simpl in H;
    [discriminate Hc| | |].
  - eapply run_inv_car_process; eassumption.
  - destruct (light_process_frame _ _ _ _ H) as [(Hh & Hcars & _) Hp].
    eapply run_inv_wake; eassumption.
  - destruct (update_display_frame _ _ _ H) as ((Hh & Hcars & _) & Hp & _).
    eapply run_inv_wake; try eassumption. by left.
Qed.

(** In the first run, a crossing car is on the list of its road. *)
Lemma first_run_crossing (randint : nat -> RoadNum) (case count k : string)
    (now : float) (s : TrafficSimulator) :
  run_from (snd (toggle_simulation randint (init case count k now))) s ->
  wf s /\ run_inv s.
Proof.
  induction 1 as [|s s' e _ [IHw IHr] Hc He].
  - split; [|apply run_inv_first].
    apply wf_toggle_simulation, wf_init.
  - split; [eapply wf_exec; eassumption|].
    eapply run_inv_exec; eassumption.
Qed.

Lemma reachable_run (es : list event) (s0 s1 s : TrafficSimulator) :
  reachable s0 s1 -> run es s1 = Some s -> reachable s0 s.
Proof.
  revert s1. induction es as [|e es IH]; intros s1 H1 H; simpl in H.
  - injection H as <-. assumption.
  - destruct (exec e s1) as [s2|] eqn:He; [|discriminate H].
    apply (IH s2); [|exact H].
    eapply reach_step; [exact H1|]. exists e. exact He.
Qed.

Lemma reachable_capacity (K : nat) (s0 s : TrafficSimulator) :
  wf s0 -> capacity K s0 ->
  (forall s1, reachable s0 s1 -> admits_below K s1) ->
  reachable s0 s -> wf s /\ capacity K s.
Proof.
  intros Hwf Hcap Hadm. induction 1 as [|s s' Hr [IHw IHc] [e He]].
  - split; assumption.
  - split; [eapply wf_exec; eassumption|].
    eapply capacity_exec; try eassumption. by apply Hadm.
Qed.

Lemma capacity_init (K : nat) (case count k : string) (now : float) :
  capacity K (init case count k now).
Proof. intros []; simpl; lia. Qed.


(** The car objects of the store that are crossing and have
    [road_num = n], by reference: [{c : c.road == n, c.state == CROSSING}]. *)
Definition crossing_on (s : TrafficSimulator) (n : RoadNum) : list nat :=
  List.filter (fun a => match heap s !! a with
                        | Some c => is_crossing c && RoadNum_eqb (road_num c) n
                        | None => false
                        end)
              (seq 0 (length (heap s))).





(** Two cars on road 1 under a green light in EXCLUSIVE mode: the first
    is crossing, the second was refused and waits. *)
Definition exclusive_schedule : list event :=
  let t := float_of_int 1000 in
  [Click (fun _ => Road1); CarStep 0 t; CarStep 1 t;
   LightStep 0 t; LightStep 0 t;
   CarStep 0 t; CarStep 0 t; CarStep 1 t; CarStep 1 t].

Definition sample_exclusive : TrafficSimulator :=
  default (init "1" "2" "3" (float_of_int 1000))
          (run exclusive_schedule (init "1" "2" "3" (float_of_int 1000))).



(** Three cars on road 1 under a green light in BOUNDED(2) mode: two are
    crossing, the third was refused and waits. *)
Definition bounded_schedule : list event :=
  let t := float_of_int 1000 in
  [Click (fun _ => Road1); CarStep 0 t; CarStep 1 t; CarStep 2 t;
   LightStep 0 t; LightStep 0 t;
   CarStep 0 t; CarStep 0 t; CarStep 1 t; CarStep 1 t; CarStep 2 t; CarStep 2 t].



(** Stop and restart while a car is crossing.  [stop_simulation] empties
    the lists of the roads without waiting for the car threads: the car
    of the stopped run goes on with its crossing loop, outside every
    list, and the first car of the next run is admitted on the same
    road.  Two car objects of road 1 are then crossing, one of them on
    the road's list. *)
Definition ghost_schedule : list event :=
  [Click (fun _ => Road1);
   LightStep 0 (float_of_int 0); LightStep 0 (float_of_int 0);
   CarStep 0 (float_of_int 0); CarStep 0 (float_of_int 0); CarStep 0 (float_of_int 0)]
  ++ map (fun j => CarStep 0 (clock 0 j)) (seq 0 5)
  ++ [Click (fun _ => Road1); Click (fun _ => Road1);
      LightStep 1 (clock 1 6); LightStep 1 (clock 1 6);
      CarStep 1 (clock 1 6); CarStep 1 (clock 1 6); CarStep 1 (clock 1 6)].

Theorem ghost_car_after_restart :
  exists s,
    reachable (init "1" "1" "3" (float_of_int 0)) s
    /\ case_type s = 1
    /\ crossing_on s Road1 = [0; 1]%nat
    /\ cars (roads s Road1) = [1%nat]
    /\ length (crossing_cars s Road1) = 1%nat.
Proof.
  eexists. split.
  - apply (reachable_run ghost_schedule _ _ _ (reach_init _)).
    vm_compute. reflexivity.
  - repeat split; vm_compute; reflexivity.
Qed.

(** ** Who writes [light_state] *)

(** C8, as the code has it.  A step of a car thread or of the display
    thread never changes the light of a road.  Besides the light thread,
    the button does: [stop_simulation] and a successful
    [start_simulation] set both lights to RED (a start that raises
    leaves them). *)
Theorem light_state_writers (e : event) (s s' : TrafficSimulator) :
  exec e s = Some s' ->
  match e with
  | CarStep _ _ | DisplayStep _ =>
      forall n, light_state (roads s' n) = light_state (roads s n)
  | Click _ =>
      (forall n, light_state (roads s' n) = RED)
      \/ (forall n, light_state (roads s' n) = light_state (roads s n))
  | LightStep _ _ => True
  end.
Proof.
  intros H. destruct e as [randint|i now|i now|i]; simpl in H.
  - injection H as <-.
    destruct (toggle_simulation_roads randint s) as [_ [Hr|Hr]];
      [left; intros n; apply Hr | right; intros n; by rewrite Hr].
  - destruct (car_process_effect _ _ _ _ H) as (t & p & _ & _ & Hf & _).
    intros n. apply Hf.
  - exact I.
  - destruct (update_display_frame _ _ _ H) as (_ & _ & H1 & H2 & _).
    intros []; simpl; congruence.
Qed.

Lemma light_state_writers_witness :
  light_state (roads sample_exclusive Road1) = GREEN
  /\ exists s', car_process 0 (float_of_int 1000) sample_exclusive = Some s'
                /\ forall n, light_state (roads s' n) = light_state (roads sample_exclusive n).
Proof.
  split; [vm_compute; reflexivity|].
  eexists. split; [vm_compute; reflexivity|].
  apply (light_state_writers (CarStep 0 (float_of_int 1000)) sample_exclusive).
  vm_compute. reflexivity.
Defined.

(** C8 as stated fails.  Road 1 is GREEN in a running simulation; the
    click that stops the run sets it to RED, and no light thread made a
    step. *)
Lemma stop_writes_light_state :
  let r := fun _ : nat => Road1 in
  light_state (roads sample_running Road1) = GREEN
  /\ exists s', exec (Click r) sample_running = Some s'
                /\ light_procs s' = light_procs sample_running
                /\ light_state (roads s' Road1) = RED.
Proof.
  split; [vm_compute; reflexivity|].
  eexists. split; [reflexivity|]. split; vm_compute; reflexivity.
Qed.

(** ** The light cycle of a run *)












(** The first steps of the light thread of a first run. *)
Definition light_schedule (k : nat) : list event :=
  repeat (LightStep 0 (float_of_int 1000)) k.





(** The timeout branch, in any state: the thread that returns from
    [wait()] with a [waiting_time] above the limit ends there; its car
    keeps its state and the road keeps the reference to it. *)
Lemma car_process_timeout (i : nat) (now : float) (s : TrafficSimulator)
    (t : CarProc) (a : nat) (car : Car) :
  car_procs s !! i = Some t -> pc t = PcNotified a -> heap s !! a = Some car ->
  state car = "waiting" ->
  PrimFloat.ltb (float_of_int MAX_WAITING_TIME)
                (PrimFloat.add (waiting_time car) tenth) = true ->
  exists s',
    car_process i now s = Some s'
    /\ (pc <$> car_procs s' !! i) = Some PcFinished
    /\ (state <$> heap s' !! a) = Some "waiting"
    /\ forall n, cars (roads s' n) = cars (roads s n).
Proof.
  intros Ht Hpc Ha Hst Hlim. unfold car_process. rewrite Ht. cbn [mbind option_bind].
  rewrite Hpc, Ha. cbn [mbind option_bind waiting_time set_waiting_time].
  rewrite Hlim. unfold after_loop. cbn [state set_waiting_time]. rewrite Hst.
  eexists. split; [reflexivity|]. cbn. split; [|split].
  - rewrite list_lookup_insert_eq by (eapply lookup_lt_Some; eassumption). reflexivity.
  - rewrite list_lookup_insert_eq by (eapply lookup_lt_Some; eassumption).
    cbn. by rewrite Hst.
  - intros []; reflexivity.
Qed.

(** ** A car whose thread has ended *)

(** No car thread holds a reference to the car at [a]. *)
Definition unowned (a : nat) (s : TrafficSimulator) : Prop :=
  Forall (fun t => pc_car (pc t) <> Some a) (car_procs s).

Lemma pc_car_wake (n : RoadNum) (t : CarProc) : pc_car (pc (wake n t)) = pc_car (pc t).
Proof.
  unfold wake. destruct (pc t) eqn:Hpc; rewrite ?Hpc; try reflexivity.
  destruct (RoadNum_eqb _ _); [reflexivity | by rewrite Hpc].
Qed.

Lemma unowned_wake (a : nat) (n : RoadNum) (l : list CarProc) :
  Forall (fun t => pc_car (pc t) <> Some a) l ->
  Forall (fun t => pc_car (pc t) <> Some a) (map (wake n) l).
Proof.
  intros H. apply Forall_map. eapply Forall_impl; [exact H|].
  intros t Ht. simpl. by rewrite pc_car_wake.
Qed.

Lemma unowned_spawn_cars (a : nat) (randint : nat -> RoadNum) (count i : nat)
    (s : TrafficSimulator) :
  unowned a s -> unowned a (spawn_cars randint i count s).
Proof.
  revert i s. induction count as [|count IH]; intros i s H; [assumption|].
  simpl. apply IH. unfold unowned. simpl.
  apply Forall_app. split; [exact H|]. apply Forall_singleton. discriminate.
Qed.

Lemma unowned_toggle_simulation (a : nat) (randint : nat -> RoadNum)
    (s : TrafficSimulator) :
  unowned a s -> unowned a (snd (toggle_simulation randint s)).
Proof.
  intros H. unfold toggle_simulation.
  destruct (negb (is_running s)); cbn [snd].
  - unfold start_simulation. cbn zeta.
    change (case_var (set_is_running true s)) with (case_var s).
    destruct (py_int (case_var s)) as [c|]; [|exact H].
    change (cars_entry (set_case_type c (set_is_running true s))) with (cars_entry s).
    destruct (py_int (cars_entry s)) as [num_cars|]; [|exact H].
    cbn [snd]. apply unowned_spawn_cars. unfold unowned. cbn.
    by do 2 apply unowned_wake.
  - unfold stop_simulation, unowned. cbn. by do 2 apply unowned_wake.
Qed.

(** A step changes neither the car nor the fact that no thread holds it. *)
Lemma unowned_exec (a : nat) (e : event) (s s' : TrafficSimulator) :
  unowned a s -> (a < length (heap s))%nat -> exec e s = Some s' ->
  unowned a s' /\ heap s' !! a = heap s !! a.
Proof.
  intros Hun Hlt H. destruct e as [randint|i now|i now|i]; simpl in H.
  - injection H as <-. split; [by apply unowned_toggle_simulation|].
    by rewrite (proj1 (toggle_simulation_roads randint s)).
  - destruct (car_process_effect _ _ _ _ H) as (t & p & Ht & Hp' & _ & Heff & _).
    assert (pc_car (pc t) <> Some a) as Hta.
    { eapply (proj1 (Forall_forall _ _) Hun), list_elem_of_lookup_2, Ht. }
    unfold unowned. rewrite Hp'.
    destruct Heff as [Hpc -> Hh Hc | Hh Hc Hpcs | b car car' Hpc Hb Hh Hr Hc Hpcs _ _ _].
    + split.
      * apply Forall_insert; [exact Hun|]. simpl. intros E. injection E as E. lia.
      * rewrite Hh. by apply lookup_app_l.
    + split; [|by rewrite Hh].
      apply Forall_insert; [exact Hun|]. simpl. intros E. by apply Hta, Hpcs.
    + assert (b <> a) as Hne by congruence.
      split; [|rewrite Hh; by apply list_lookup_insert_ne].
      apply Forall_insert; [exact Hun|]. simpl. intros E.
      apply Hpcs in E. congruence.
  - destruct (light_process_frame _ _ _ _ H) as [(Hh & _) Hp].
    split; [|by rewrite Hh]. unfold unowned.
    destruct Hp as [->|[n ->]]; [exact Hun | by apply unowned_wake].
  - destruct (update_display_frame _ _ _ H) as ((Hh & _) & Hp & _).
    split; [|by rewrite Hh]. unfold unowned. by rewrite Hp.
Qed.

(** Once the thread of a car has ended, the car keeps its state in
    every later state: a car abandoned while waiting never crosses. *)
Theorem abandoned_car_never_crosses (a : nat) (car : Car) (s s' : TrafficSimulator) :
  unowned a s -> heap s !! a = Some car -> state car = "waiting" ->
  reachable s s' ->
  exists car', heap s' !! a = Some car' /\ state car' = "waiting".
Proof.
  intros Hun Ha Hst Hreach.
  assert (unowned a s' /\ heap s' !! a = Some car) as [_ H].
  { induction Hreach as [|s1 s2 _ [IHu IHh] [e He]]; [by split|].
    destruct (unowned_exec a e s1 s2 IHu (lookup_lt_Some _ _ _ IHh) He) as [Hu Hh].
    split; [assumption | congruence]. }
  exists car. by split.
Qed.

(** BOUNDED mode with a [k] entry that is not a number: [can_cross]
    raises in the car thread, which ends with its car waiting on the
    road; the light goes on cycling and the car stays as it is. *)
Definition abandoned_schedule : list event :=
  let t := float_of_int 0 in
  [Click (fun _ => Road1); LightStep 0 t; LightStep 0 t;
   CarStep 0 t; CarStep 0 t; CarStep 0 t].

Definition abandoned : TrafficSimulator :=
  default (init "2" "1" "abc" (float_of_int 0))
          (run abandoned_schedule (init "2" "1" "abc" (float_of_int 0))).

Lemma abandoned_car_never_crosses_witness :
  map pc (car_procs abandoned) = [PcFinished]
  /\ cars (roads abandoned Road1) = [0%nat]
  /\ forall s', run (light_schedule 10) abandoned = Some s' ->
                exists car', heap s' !! 0%nat = Some car' /\ state car' = "waiting".
Proof.
  split; [vm_compute; reflexivity|]. split; [vm_compute; reflexivity|].
  intros s' Hs'.
  apply (abandoned_car_never_crosses 0
           (mkCar 1 Road1 (float_of_int 0) (float_of_int 0) (float_of_int 0) "waiting")
           abandoned s').
  - repeat constructor. vm_compute. discriminate.
  - vm_compute. reflexivity.
  - reflexivity.
  - apply (reachable_run (light_schedule 10) _ _ _ (reach_init _)). exact Hs'.
Defined.

(** ** The progress of a waiting car *)

(** A waiting car is at position 0; the car of a thread in the crossing
    loop is crossing; no two threads hold the same car. *)
Record pos_inv (s : TrafficSimulator) : Prop := mk_pos_inv {
  pi_waiting : forall a c, heap s !! a = Some c -> state c = "waiting" ->
      position c = float_of_int 0;
  pi_crossing : forall i t a st, car_procs s !! i = Some t -> pc t = PcCrossing a st ->
      exists c, heap s !! a = Some c /\ state c = "crossing";
  pi_owner : forall i j t t' a,
      car_procs s !! i = Some t -> car_procs s !! j = Some t' ->
      pc_car (pc t) = Some a -> pc_car (pc t') = Some a -> i = j
}.

Lemma pc_wake_crossing (n : RoadNum) (t : CarProc) (a : nat) (st : float) :
  pc (wake n t) = PcCrossing a st -> pc t = PcCrossing a st.
Proof.
  unfold wake. destruct (pc t) eqn:Hpc; rewrite ?Hpc; try congruence.
  destruct (RoadNum_eqb _ _); simpl; rewrite ?Hpc; congruence.
Qed.

Lemma pos_inv_wake (n : RoadNum) (s s' : TrafficSimulator) :
  heap s' = heap s -> car_procs s' = map (wake n) (car_procs s) ->
  pos_inv s -> pos_inv s'.
Proof.
  intros Hh Hp [Hw Hc Ho].
  assert (forall j t', car_procs s' !! j = Some t' ->
            exists t0, car_procs s !! j = Some t0 /\ t' = wake n t0) as Hback.
  { intros j t'. rewrite Hp, lookup_map.
    destruct (car_procs s !! j) as [t0|]; simpl; [|discriminate].
    intros E. injection E as <-. eauto. }
  split; rewrite ?Hh; try assumption.
  - intros i t a st Hi Hpc. apply Hback in Hi as (t0 & Hi & ->).
    apply pc_wake_crossing in Hpc. by apply (Hc i t0 a st).
  - intros i j t t' a Hi Hj Ha Ha'.
    apply Hback in Hi as (t0 & Hi & ->). apply Hback in Hj as (t1 & Hj & ->).
    rewrite pc_car_wake in Ha, Ha'. by apply (Ho i j t0 t1 a).
Qed.

Lemma pos_inv_spawn_cars (randint : nat -> RoadNum) (count i : nat)
    (s : TrafficSimulator) :
  pos_inv s -> pos_inv (spawn_cars randint i count s).
Proof.
  revert i s. induction count as [|count IH]; intros i s Hinv; [assumption|].
  simpl. apply IH. destruct Hinv as [Hw Hc Ho]. split; simpl; [assumption| |].
  - intros j t a st. rewrite lookup_snoc_Some.
    intros [[_ Hj]|[_ <-]]; [by apply (Hc j)|discriminate].
  - intros j1 j2 t t' a. rewrite !lookup_snoc_Some.
    intros [[_ H1]|[_ <-]] [[_ H2]|[_ <-]]; try discriminate.
    by apply (Ho j1 j2 t t' a).
Qed.

Lemma pos_inv_same (s s' : TrafficSimulator) :
  heap s' = heap s -> car_procs s' = car_procs s -> pos_inv s -> pos_inv s'.
Proof. intros Hh Hp [Hw Hc Ho]. split; rewrite ?Hh, ?Hp; assumption. Qed.

Lemma pos_inv_toggle_simulation (randint : nat -> RoadNum) (s : TrafficSimulator) :
  pos_inv s -> pos_inv (snd (toggle_simulation randint s)).
Proof.
  intros Hinv. unfold toggle_simulation.
  assert (pos_inv (reset_roads s)) as Hreset.
  { apply (pos_inv_wake Road2 (reset_road Road1 s)); [reflexivity|reflexivity|].
    by apply (pos_inv_wake Road1 s). }
  destruct (negb (is_running s)); cbn [snd].
  - unfold start_simulation. cbn zeta.
    change (case_var (set_is_running true s)) with (case_var s).
    destruct (py_int (case_var s)) as [c|]; [|by destruct Hinv].
    change (cars_entry (set_case_type c (set_is_running true s))) with (cars_entry s).
    destruct (py_int (cars_entry s)) as [num_cars|]; [|by destruct Hinv].
    cbn [snd]. apply pos_inv_spawn_cars.
    destruct Hreset as [Hw Hc Ho]. split; assumption.
  - unfold stop_simulation. destruct Hreset as [Hw Hc Ho]. split; assumption.
Qed.

Lemma pos_inv_car_process (i : nat) (now : float) (s s' : TrafficSimulator) :
  wf s -> pos_inv s -> car_process i now s = Some s' -> pos_inv s'.
Proof.
  intros [_ _ Hprocs] [Hw Hc Ho] H.
  assert (forall j t', car_procs s !! j = Some t' -> proc_ok (heap s) t') as Hok.
  { intros j t' Hj. eapply (proj1 (Forall_forall _ _) Hprocs), list_elem_of_lookup_2, Hj. }
  (* no two threads hold the same car afterwards *)
  assert (forall j1 j2 t1 t2 a,
            car_procs s' !! j1 = Some t1 -> car_procs s' !! j2 = Some t2 ->
            pc_car (pc t1) = Some a -> pc_car (pc t2) = Some a -> j1 = j2) as Ho'.
  { destruct (car_process_effect _ _ _ _ H) as (t & p & Ht & Hp' & _ & Heff & _).
    assert (forall b, pc_car p = Some b ->
              pc_car (pc t) = Some b
              \/ (pc_car (pc t) = None /\ b = length (heap s))) as Hp.
    { intros b Hb.
      destruct Heff as [Hpc -> _ _ | _ _ Hpcs | a car car' Hpc _ _ _ _ Hpcs _ _ _].
      - right. rewrite Hpc. simpl in Hb. split; [reflexivity|congruence].
      - left. by apply Hpcs.
      - left. apply Hpcs in Hb. congruence. }
    assert (forall j t' b, car_procs s !! j = Some t' -> pc_car (pc t') = Some b ->
              (b < length (heap s))%nat) as Hbound.
    { intros j t' b Hj Hb. destruct (Hok j t' Hj b Hb) as (c & Hl & _).
      eapply lookup_lt_Some, Hl. }
    intros j1 j2 t1 t2 a. rewrite Hp', !list_lookup_insert_Some.
    intros [(-> & <- & _)|[N1 H1]] [(-> & <- & _)|[N2 H2]] A1 A2; try reflexivity.
    - simpl in A1. destruct (Hp a A1) as [A|[_ ->]].
      + by apply (Ho j1 j2 t t2 a).
      + apply (Hbound j2 t2) in A2; [lia|assumption].
    - simpl in A2. destruct (Hp a A2) as [A|[_ ->]].
      + by apply (Ho j1 j2 t1 t a).
      + apply (Hbound j1 t1) in A1; [lia|assumption].
    - by apply (Ho j1 j2 t1 t2 a). }
  split; [| |exact Ho'].
  - (* waiting cars *)
    car_cases H.
    + injection H as <-. intros b c. simpl. rewrite lookup_snoc_Some.
      intros [[_ Hb]|[_ <-]]; [by apply (Hw b)|reflexivity].
    + destruct (_ && _); injection H as <-; exact Hw.
    + destruct (_ || _); [|injection H as <-; exact Hw].
      destruct (can_cross _ _ _) as [[|]|]; injection H as <-; try exact Hw.
      intros b c. simpl. rewrite list_lookup_insert_Some.
      intros [(_ & <- & _)|[_ Hb]]; [discriminate|by apply (Hw b)].
    + assert (forall b c,
                <[a := set_waiting_time (PrimFloat.add (waiting_time car) tenth) car]>
                  (heap s) !! b = Some c ->
                state c = "waiting" -> position c = float_of_int 0) as Hgoal.
      { intros b c. rewrite list_lookup_insert_Some.
        intros [(_ & <- & _)|[_ Hb]]; [simpl; by apply (Hw a)|by apply (Hw b)]. }
      destruct (PrimFloat.ltb _ _); injection H as <-; exact Hgoal.
    + destruct (Hc i t a st Ht Hpc) as (c0 & Hc0 & Hst0).
      assert (c0 = car) as -> by congruence.
      destruct (PrimFloat.ltb _ _); injection H as <-; intros b c; simpl;
        rewrite list_lookup_insert_Some;
        (intros [(_ & <- & _)|[_ Hb]]; [simpl; congruence|by apply (Hw b)]).
  - (* threads in the crossing loop *)
    assert (forall j t' b st' a car',
              j <> i -> car_procs s !! j = Some t' -> pc t' = PcCrossing b st' ->
              (exists t0, car_procs s !! i = Some t0 /\ pc_car (pc t0) = Some a) ->
              exists c, <[a := car']> (heap s) !! b = Some c /\ state c = "crossing")
      as Hother.
    { intros j t' b st' a car' Hne Hj Hpc' (t0 & Ht0 & Ha0).
      destruct (Hc j t' b st' Hj Hpc') as (c & Hl & Hst).
      exists c. split; [|assumption].
      rewrite list_lookup_insert_ne; [assumption|].
      intros ->. apply Hne. apply (Ho j i t' t0 b Hj Ht0); [|assumption].
      rewrite Hpc'. reflexivity. }
    car_cases H.
    + injection H as <-. intros j t' b st'. simpl. rewrite list_lookup_insert_Some.
      intros [(_ & <- & _)|[_ Hj]] Hpc'; [discriminate Hpc'|].
      destruct (Hc j t' b st' Hj Hpc') as (c & Hl & Hst).
      exists c. split; [by apply lookup_app_l_Some|assumption].
    + assert (forall p, (forall b st', p = PcCrossing b st' -> b = a /\ state car = "crossing") ->
                forall j t' b st',
                  <[i := set_pc p t]> (car_procs s) !! j = Some t' ->
                  pc t' = PcCrossing b st' ->
                  exists c, heap s !! b = Some c /\ state c = "crossing") as Hgoal.
      { intros p Hp j t' b st'. rewrite list_lookup_insert_Some.
        intros [(_ & <- & _)|[_ Hj]] Hpc'; [|by apply (Hc j t' b st')].
        simpl in Hpc'. destruct (Hp b st' Hpc') as [-> Hst]. eauto. }
      destruct (_ && _); injection H as <-; apply Hgoal.
      * discriminate.
      * intros b st'. unfold after_loop.
        destruct (String.eqb_spec (state car) "crossing"); [|discriminate].
        intros E. injection E as <- _. by split.
    + assert (forall p, (forall b st', p <> PcCrossing b st') ->
                forall j t' b st',
                  <[i := set_pc p t]> (car_procs s) !! j = Some t' ->
                  pc t' = PcCrossing b st' ->
                  exists c, heap s !! b = Some c /\ state c = "crossing") as Hgoal.
      { intros p Hp j t' b st'. rewrite list_lookup_insert_Some.
        intros [(_ & <- & _)|[_ Hj]] Hpc'; [|by apply (Hc j t' b st')].
        simpl in Hpc'. by apply Hp in Hpc'. }
      destruct (_ || _); [|injection H as <-; apply Hgoal; discriminate].
      destruct (can_cross _ _ _) as [[|]|]; injection H as <-;
        try (apply Hgoal; discriminate).
      intros j t' b st'. cbn [car_procs heap set_car_procs set_heap].
      rewrite list_lookup_insert_Some.
      intros [(_ & <- & _)|[Hne Hj]] Hpc'.
      * simpl in Hpc'. injection Hpc' as <- _.
        exists (set_state "crossing" car). split; [|reflexivity].
        apply list_lookup_insert_eq. eapply lookup_lt_Some, Ha.
      * apply (Hother j t' b st'); try assumption; [congruence|].
        exists t. split; [first [assumption|reflexivity]|]. rewrite Hpc. reflexivity.
    + set (car' := set_waiting_time (PrimFloat.add (waiting_time car) tenth) car) in *.
      assert (forall p, (forall b st', p = PcCrossing b st' -> b = a /\ state car = "crossing") ->
                forall j t' b st',
                  <[i := set_pc p t]> (car_procs s) !! j = Some t' ->
                  pc t' = PcCrossing b st' ->
                  exists c, <[a := car']> (heap s) !! b = Some c /\ state c = "crossing")
        as Hgoal.
      { intros p Hp j t' b st'. rewrite list_lookup_insert_Some.
        intros [(_ & <- & _)|[Hne Hj]] Hpc'.
        - simpl in Hpc'. destruct (Hp b st' Hpc') as [-> Hst].
          exists car'. split; [|assumption].
          apply list_lookup_insert_eq. eapply lookup_lt_Some, Ha.
        - apply (Hother j t' b st'); try assumption; [congruence|].
          exists t. split; [first [assumption|reflexivity]|]. rewrite Hpc. reflexivity. }
      destruct (PrimFloat.ltb _ _); injection H as <-; apply Hgoal.
      * intros b st'. unfold after_loop. cbn [state car' set_waiting_time].
        destruct (String.eqb_spec (state car) "crossing"); [|discriminate].
        intros E. injection E as <- _. by split.
      * discriminate.
    + destruct (Hc i t a st Ht Hpc) as (c0 & Hc0 & Hst0).
      assert (c0 = car) as -> by congruence.
      destruct (PrimFloat.ltb _ _); injection H as <-.
      * intros j t' b st' Hj Hpc'. cbn [car_procs heap set_heap] in *.
        destruct (decide (j = i)) as [->|Hne].
        -- assert (t' = t) as -> by congruence.
           assert (b = a) as -> by congruence.
           eexists. split; [apply list_lookup_insert_eq; eapply lookup_lt_Some, Ha|].
           exact Hst0.
        -- apply (Hother j t' b st'); try assumption.
           exists t. split; [first [assumption|reflexivity]|]. rewrite Hpc. reflexivity.
      * intros j t' b st'. cbn [car_procs heap set_car_procs set_road set_heap].
        rewrite list_lookup_insert_Some.
        intros [(_ & <- & _)|[Hne Hj]] Hpc'; [discriminate Hpc'|].
        apply (Hother j t' b st'); try assumption; [congruence|].
        exists t. split; [first [assumption|reflexivity]|]. rewrite Hpc. reflexivity.
Qed.

Lemma pos_inv_exec (e : event) (s s' : TrafficSimulator) :
  wf s -> pos_inv s -> exec e s = Some s' -> pos_inv s'.
Proof.
  intros Hwf Hinv H. destruct e as [randint|i now|i now|i]; simpl in H.
  - injection H as <-. by apply pos_inv_toggle_simulation.
  - eapply pos_inv_car_process; eassumption.
  - destruct (light_process_frame _ _ _ _ H) as [(Hh & _) [Hp|[n Hp]]].
    + eapply pos_inv_same; eassumption.
    + eapply pos_inv_wake; eassumption.
  - destruct (update_display_frame _ _ _ H) as ((Hh & _) & Hp & _).
    eapply pos_inv_same; eassumption.
Qed.

(** In every state the program reaches, a car whose state is "waiting"
    has position 0: only the crossing loop moves a car. *)
Theorem waiting_position_zero (case count k : string) (now : float)
    (s : TrafficSimulator) (a : nat) (c : Car) :
  reachable (init case count k now) s ->
  heap s !! a = Some c -> state c = "waiting" ->
  position c = float_of_int 0.
Proof.
  intros Hreach. revert a c.
  assert (wf s /\ pos_inv s) as [_ Hinv].
  { induction Hreach as [|s s' _ [IHw IHp] [e He]].
    - split; [apply wf_init|]. split; simpl.
      + intros a c Ha. discriminate Ha.
      + intros i t a st Hi. discriminate Hi.
      + intros i j t t' a Hi. discriminate Hi.
    - split; [eapply wf_exec; eassumption|].
      eapply pos_inv_exec; eassumption. }
  apply (pi_waiting s Hinv).
Qed.

Lemma waiting_position_zero_witness :
  exists c, heap sample_exclusive !! 1%nat = Some c
            /\ state c = "waiting" /\ position c = float_of_int 0.
Proof.
  assert (reachable (init "1" "2" "3" (float_of_int 1000)) sample_exclusive) as Hreach.
  { apply (reachable_run exclusive_schedule _ _ _ (reach_init _)).
    vm_compute. reflexivity. }
  assert (heap sample_exclusive !! 1%nat
          = Some (mkCar 2 Road1 (float_of_int 0) (float_of_int 0)
                        (float_of_int 0) "waiting")) as Hcar
    by (vm_compute; reflexivity).
  eexists. split; [exact Hcar|]. split; [reflexivity|].
  exact (waiting_position_zero "1" "2" "3" (float_of_int 1000) sample_exclusive 1 _
           Hreach Hcar eq_refl).
Defined.

(** ** Timed schedules

    A scheduler that follows the clock of the source: the light thread
    changes road 1 at [12c] (GREEN), [12c + 5] (YELLOW) and [12c + 6]
    (RED), then road 2 six seconds later; after each change every car
    thread runs until it blocks, ends or starts to cross (lowest index
    first), and a car that starts to cross makes its iterations a tenth
    of a second apart until the two seconds are over. *)

Definition running_pc (p : CarPc) : bool :=
  match p with
  | PcArrive | PcWhile _ | PcLocked _ | PcNotified _ => true
  | PcWaiting _ | PcCrossing _ _ | PcFinished => false
  end.

(** Thread [i] runs at time [now] until it blocks, ends or starts to cross. *)
Fixpoint drive (fuel i : nat) (now : float) (s : TrafficSimulator)
  : list event * TrafficSimulator :=
  match fuel with
  | O => ([], s)
  | S fuel' =>
      match car_procs s !! i with
      | Some t =>
          if running_pc (pc t) then
            match car_process i now s with
            | Some s' =>
                let (es, s'') := drive fuel' i now s' in
                (CarStep i now :: es, s'')
            | None => ([], s)
            end
          else ([], s)
      | None => ([], s)
      end
  end.

(** Thread [i], admitted at second [T], crosses: one step every tenth of
    a second from iteration [j] on, until it has left the road. *)
Fixpoint cross (fuel j i : nat) (T : Z) (s : TrafficSimulator)
  : list event * TrafficSimulator :=
  match fuel with
  | O => ([], s)
  | S fuel' =>
      match car_procs s !! i with
      | Some t =>
          match pc t with
          | PcCrossing _ _ =>
              match car_process i (clock T j) s with
              | Some s' =>
                  let (es, s'') := cross fuel' (S j) i T s' in
                  (CarStep i (clock T j) :: es, s'')
              | None => ([], s)
              end
          | _ => ([], s)
          end
      | None => ([], s)
      end
  end.

Fixpoint for_cars (f : nat -> TrafficSimulator -> list event * TrafficSimulator)
    (l : list nat) (s : TrafficSimulator) : list event * TrafficSimulator :=
  match l with
  | [] => ([], s)
  | i :: l' =>
      let (es, s1) := f i s in
      let (es', s2) := for_cars f l' s1 in
      (es ++ es', s2)
  end.

Definition for_each_car (f : nat -> TrafficSimulator -> list event * TrafficSimulator)
    (s : TrafficSimulator) : list event * TrafficSimulator :=
  for_cars f (seq 0 (length (car_procs s))) s.

(** One light change at second [T] and what the car threads do next. *)
Definition light_change (T : Z) (s : TrafficSimulator)
  : list event * TrafficSimulator :=
  match traffic_light_process 0 (float_of_int T) s with
  | Some s1 =>
      let (es2, s2) := for_each_car (fun i => drive 4 i (float_of_int T)) s1 in
      let (es3, s3) := for_each_car (fun i => cross 30 0 i T) s2 in
      (LightStep 0 (float_of_int T) :: es2 ++ es3, s3)
  | None => ([], s)
  end.

Definition then_do (f : TrafficSimulator -> list event * TrafficSimulator)
    (acc : list event * TrafficSimulator) : list event * TrafficSimulator :=
  let (es, s') := f (snd acc) in (fst acc ++ es, s').

(** Light cycle number [c]: both roads, then back to the head of the
    [while] loop of the light thread. *)
Definition light_cycle (c : nat) (s : TrafficSimulator)
  : list event * TrafficSimulator :=
  let B := 12 * Z.of_nat c in
  then_do (light_change (B + 12))
    (then_do (light_change (B + 12))
       (then_do (light_change (B + 12))
          (then_do (light_change (B + 11))
             (then_do (light_change (B + 6))
                (then_do (light_change (B + 6))
                   (then_do (light_change (B + 5))
                      (then_do (light_change B) ([], s)))))))).

Fixpoint light_cycles (n c : nat) (s : TrafficSimulator)
  : list event * TrafficSimulator :=
  match n with
  | O => ([], s)
  | S n' =>
      let (es, s1) := light_cycle c s in
      let (es', s2) := light_cycles n' (S c) s1 in
      (es ++ es', s2)
  end.

(** The schedule of a first run through [n] light cycles. *)
Definition timed_schedule (randint : nat -> RoadNum) (n : nat) (s : TrafficSimulator)
  : list event :=
  let s1 := snd (toggle_simulation randint s) in
  match traffic_light_process 0 (float_of_int 0) s1 with
  | Some s2 =>
      Click randint :: LightStep 0 (float_of_int 0) :: fst (light_cycles n 0 s2)
  | None => []
  end.

(** ** The crossing loop and the progress of a car *)

(** One car on road 1, admitted at second 0 under the green light, then
    [k] iterations of the crossing loop a tenth of a second apart. *)
Definition crossing_schedule (k : nat) : list event :=
  [Click (fun _ => Road1);
   LightStep 0 (float_of_int 0); LightStep 0 (float_of_int 0);
   CarStep 0 (float_of_int 0); CarStep 0 (float_of_int 0); CarStep 0 (float_of_int 0)]
  ++ map (fun j => CarStep 0 (clock 0 j)) (seq 0 k).

(** C6 fails on the code.  The crossing loop adds 0.1 to [position]
    every tenth of a second for [CAR_CROSSING_TIME = 2] seconds: after
    eleven iterations the car is still crossing and its position is
    above 1; the loop ends after twenty iterations, and the car exits
    with a position above 2. *)
Theorem crossing_position_exceeds_one :
  let s0 := init "1" "1" "3" (float_of_int 0) in
  (exists s car,
      reachable s0 s
      /\ heap s !! 0%nat = Some car
      /\ state car = "crossing"
      /\ PrimFloat.ltb (float_of_int 1) (position car) = true)
  /\ (exists s car,
         run (crossing_schedule 20) s0 = Some s
         /\ heap s !! 0%nat = Some car
         /\ state car = "crossing"
         /\ (pc <$> car_procs s !! 0%nat) = Some (PcCrossing 0 (float_of_int 0))
         /\ PrimFloat.ltb (float_of_int 2) (position car) = true)
  /\ (exists s car,
         run (crossing_schedule 21) s0 = Some s
         /\ heap s !! 0%nat = Some car
         /\ state car = "exited"
         /\ PrimFloat.ltb (float_of_int 2) (position car) = true).
Proof.
  cbn zeta. split; [|split].
  - eexists. eexists. split.
    + apply (reachable_run (crossing_schedule 11) _ _ _ (reach_init _)).
      vm_compute. reflexivity.
    + split; [vm_compute; reflexivity|]. split; vm_compute; reflexivity.
  - eexists. eexists. split; [vm_compute; reflexivity|].
    split; [vm_compute; reflexivity|]. repeat split; vm_compute; reflexivity.
  - eexists. eexists. split; [vm_compute; reflexivity|].
    split; [vm_compute; reflexivity|]. repeat split; vm_compute; reflexivity.
Qed.

(** ** The waiting limit *)

(** EXCLUSIVE mode, 201 cars, all sent to road 1. *)
Definition crowded : TrafficSimulator := init "1" "201" "3" (float_of_int 0).

Definition timeout_schedule : list event :=
  timed_schedule (fun _ => Road1) 101 crowded.

(** C3 fails on the code.  Two cars are admitted per light cycle and the
    others are woken three times per cycle, [waiting_time] growing by 0.1
    each time.  The last of 201 cars is woken for the 300th time when
    the light turns green in the 101st cycle: its [waiting_time] is then
    above [MAX_WAITING_TIME], its thread leaves the loop and ends.  The
    car never crossed, and it is still in [road.cars], waiting, while
    the 200 other cars have exited. *)
Theorem timed_out_car_stays_on_road :
  exists s car,
    reachable crowded s
    /\ (pc <$> car_procs s !! 200%nat) = Some PcFinished
    /\ heap s !! 200%nat = Some car
    /\ state car = "waiting"
    /\ position car = float_of_int 0
    /\ PrimFloat.ltb (float_of_int MAX_WAITING_TIME) (waiting_time car) = true
    /\ cars (roads s Road1) = [200%nat]
    /\ forallb (fun c => String.eqb (state c) "exited") (take 200 (heap s)) = true.
Proof.
  eexists. eexists. split.
  - apply (reachable_run timeout_schedule _ _ _ (reach_init _)).
    vm_compute. reflexivity.
  - split; [vm_compute; reflexivity|]. split; [vm_compute; reflexivity|].
    repeat split; vm_compute; reflexivity.
Qed.

(** * The life of a car

    A car object is written by the thread that created it and by no
    other code: its state goes from "waiting" to "crossing" to "exited",
    and the waiting loop of [car_process] only ever sees a waiting car. *)

(** The program points of the waiting loop. *)
Definition in_loop (p : CarPc) : bool :=
  match p with
  | PcWhile _ | PcLocked _ | PcWaiting _ | PcNotified _ => true
  | PcArrive | PcCrossing _ _ | PcFinished => false
  end.

Record life_inv (s : TrafficSimulator) : Prop := mk_life_inv {
  li_loop : forall i t a, car_procs s !! i = Some t -> pc_car (pc t) = Some a ->
      in_loop (pc t) = true ->
      exists c, heap s !! a = Some c /\ state c = "waiting";
  li_args : forall i t a c, car_procs s !! i = Some t -> pc_car (pc t) = Some a ->
      heap s !! a = Some c -> car_id c = arg_car_id t;
  li_states : forall a c, heap s !! a = Some c ->
      state c = "waiting" \/ state c = "crossing" \/ state c = "exited";
  li_speed : forall a c, heap s !! a = Some c -> speed c = float_of_int 0
}.

Lemma in_loop_after_loop (a : nat) (car : Car) (now : float) :
  in_loop (after_loop a car now) = false.
Proof. unfold after_loop. by destruct (String.eqb _ _). Qed.

Lemma in_loop_wake (n : RoadNum) (t : CarProc) : in_loop (pc (wake n t)) = in_loop (pc t).
Proof.
  unfold wake. destruct (pc t) eqn:Hpc; rewrite ?Hpc; try reflexivity.
  destruct (RoadNum_eqb _ _); [reflexivity | by rewrite Hpc].
Qed.

Lemma arg_car_id_wake (n : RoadNum) (t : CarProc) : arg_car_id (wake n t) = arg_car_id t.
Proof. apply wake_view. Qed.

Lemma life_inv_wake (n : RoadNum) (s s' : TrafficSimulator) :
  heap s' = heap s -> car_procs s' = map (wake n) (car_procs s) ->
  life_inv s -> life_inv s'.
Proof.
  intros Hh Hp [Hl Hid Hs Hv].
  assert (forall j t', car_procs s' !! j = Some t' ->
            exists t0, car_procs s !! j = Some t0 /\ t' = wake n t0) as Hback.
  { intros j t'. rewrite Hp, lookup_map.
    destruct (car_procs s !! j) as [t0|]; simpl; [|discriminate].
    intros E. injection E as <-. eauto. }
  split; rewrite ?Hh; try assumption.
  - intros i t a Hi Hpc Hin. apply Hback in Hi as (t0 & Hi & ->).
    rewrite pc_car_wake in Hpc. rewrite in_loop_wake in Hin. by apply (Hl i t0 a).
  - intros i t a c Hi Hpc Hc. apply Hback in Hi as (t0 & Hi & ->).
    rewrite pc_car_wake in Hpc. rewrite arg_car_id_wake. by apply (Hid i t0 a c).
Qed.

Lemma life_inv_spawn_cars (randint : nat -> RoadNum) (count i : nat)
    (s : TrafficSimulator) :
  life_inv s -> life_inv (spawn_cars randint i count s).
Proof.
  revert i s. induction count as [|count IH]; intros i s Hinv; [assumption|].
  simpl. apply IH. destruct Hinv as [Hl Ha Hs Hv]. split; simpl; try assumption.
  - intros j t a. rewrite lookup_snoc_Some.
    intros [[_ Hj]|[_ <-]]; [by apply (Hl j)|discriminate].
  - intros j t a c. rewrite lookup_snoc_Some.
    intros [[_ Hj]|[_ <-]]; [by apply (Ha j)|discriminate].
Qed.

Lemma life_inv_same (s s' : TrafficSimulator) :
  heap s' = heap s -> car_procs s' = car_procs s -> life_inv s -> life_inv s'.
Proof. intros Hh Hp [Hl Hid Hs Hv]. split; rewrite ?Hh, ?Hp; assumption. Qed.

Lemma life_inv_toggle_simulation (randint : nat -> RoadNum) (s : TrafficSimulator) :
  life_inv s -> life_inv (snd (toggle_simulation randint s)).
Proof.
  intros Hinv. unfold toggle_simulation.
  assert (life_inv (reset_roads s)) as Hreset.
  { apply (life_inv_wake Road2 (reset_road Road1 s)); [reflexivity|reflexivity|].
    by apply (life_inv_wake Road1 s). }
  destruct (negb (is_running s)); cbn [snd].
  - unfold start_simulation. cbn zeta.
    change (case_var (set_is_running true s)) with (case_var s).
    destruct (py_int (case_var s)) as [c|]; [|by destruct Hinv].
    change (cars_entry (set_case_type c (set_is_running true s))) with (cars_entry s).
    destruct (py_int (cars_entry s)) as [num_cars|]; [|by destruct Hinv].
    cbn [snd]. apply life_inv_spawn_cars.
    destruct Hreset as [Hl Ha Hs Hv]. split; assumption.
  - unfold stop_simulation. destruct Hreset as [Hl Ha Hs Hv]. split; assumption.
Qed.

(** A thread rewrites its own car and moves on. *)
Lemma life_inv_update (s s' : TrafficSimulator) (i : nat) (t : CarProc) (p : CarPc)
    (a : nat) (car car' : Car) :
  pos_inv s -> life_inv s ->
  car_procs s !! i = Some t -> pc_car (pc t) = Some a -> heap s !! a = Some car ->
  heap s' = <[a := car']> (heap s) ->
  car_procs s' = <[i := set_pc p t]> (car_procs s) ->
  (forall b, pc_car p = Some b -> b = a) ->
  (in_loop p = true -> state car' = "waiting") ->
  car_id car' = car_id car -> speed car' = speed car ->
  (state car' = "waiting" \/ state car' = "crossing" \/ state car' = "exited") ->
  life_inv s'.
Proof.
  intros [_ _ Ho] [Hl Ha Hs Hv] Ht Hpc Hcar Hh Hp Hpa Hloop Hid Hsp Hst.
  assert (a < length (heap s))%nat as Hlt by (eapply lookup_lt_Some, Hcar).
  assert (forall j t' b, j <> i -> car_procs s !! j = Some t' ->
            pc_car (pc t') = Some b -> b <> a) as Hother.
  { intros j t' b Hne Hj Hb ->. apply Hne. by apply (Ho j i t' t a). }
  split; rewrite Hh, ?Hp.
  - intros j t' b. rewrite list_lookup_insert_Some.
    intros [(_ & <- & _)|[Hne Hj]] Hb Hin; simpl in *.
    + apply Hpa in Hb as ->. exists car'. split; [by apply list_lookup_insert_eq|auto].
    + rewrite list_lookup_insert_ne by (apply not_eq_sym; eapply Hother; eauto).
      by apply (Hl j t' b).
  - intros j t' b c. rewrite list_lookup_insert_Some.
    intros [(_ & <- & _)|[Hne Hj]] Hb; simpl in *.
    + apply Hpa in Hb as ->. rewrite list_lookup_insert_eq by assumption.
      intros E. injection E as <-. rewrite Hid. by apply (Ha i t a car).
    + rewrite list_lookup_insert_ne by (apply not_eq_sym; eapply Hother; eauto).
      by apply (Ha j t' b).
  - intros b c. rewrite list_lookup_insert_Some.
    intros [(_ & <- & _)|[_ Hb]]; [assumption|by apply (Hs b)].
  - intros b c. rewrite list_lookup_insert_Some.
    intros [(_ & <- & _)|[_ Hb]]; [rewrite Hsp; by apply (Hv a)|by apply (Hv b)].
Qed.

Ltac own_car_step s i t p a car car' Hpc :=
  apply (life_inv_update s _ i t p a car car');
  try assumption; try reflexivity; try (by rewrite Hpc);
  try (symmetry; by apply list_insert_id);
  try (intros b Hb; first [by apply pc_car_after_loop in Hb | simpl in Hb; congruence]);
  try (by rewrite in_loop_after_loop);
  try (simpl; discriminate); auto.

Lemma life_inv_car_process (i : nat) (now : float) (s s' : TrafficSimulator) :
  wf s -> pos_inv s -> life_inv s -> car_process i now s = Some s' -> life_inv s'.
Proof.
  intros [_ _ Hprocs] Hpos Hinv H.
  pose proof Hinv as [Hl Hid Hs Hv].
  car_cases H.
  - (* arrival *)
    injection H as <-.
    assert (forall j t' b, car_procs s !! j = Some t' -> pc_car (pc t') = Some b ->
              (b < length (heap s))%nat) as Hbound.
    { intros j t' b Hj Hb.
      assert (proc_ok (heap s) t') as Hok
        by (eapply (proj1 (Forall_forall _ _) Hprocs), list_elem_of_lookup_2, Hj).
      destruct (Hok b Hb) as (c & Hc & _). eapply lookup_lt_Some, Hc. }
    split; cbn [heap car_procs set_car_procs set_road set_heap].
    + intros j t' b. rewrite list_lookup_insert_Some.
      intros [(_ & <- & _)|[Hne Hj]] Hb Hin; simpl in *.
      * injection Hb as <-. eexists. split; [by apply list_lookup_middle|reflexivity].
      * destruct (Hl j t' b Hj Hb Hin) as (c & Hc & Hst).
        exists c. split; [by apply lookup_app_l_Some|assumption].
    + intros j t' b c. rewrite list_lookup_insert_Some.
      intros [(_ & <- & _)|[Hne Hj]] Hb; simpl in *.
      * injection Hb as <-. rewrite list_lookup_middle by reflexivity.
        intros E. by injection E as <-.
      * pose proof (Hbound j t' b Hj Hb). rewrite lookup_app_l by assumption.
        by apply (Hid j t' b).
    + intros b c. rewrite lookup_snoc_Some.
      intros [[_ Hb]|[_ <-]]; [by apply (Hs b)|by left].
    + intros b c. rewrite lookup_snoc_Some.
      intros [[_ Hb]|[_ <-]]; [by apply (Hv b)|reflexivity].
  - (* loop test *)
    destruct (Hl i t a Ht) as (c0 & Hc0 & Hst0); [by rewrite Hpc|by rewrite Hpc|].
    assert (c0 = car) as -> by congruence.
    destruct (_ && _); injection H as <-.
    + own_car_step s i t (PcLocked a) a car car Hpc.
    + own_car_step s i t (after_loop a car now) a car car Hpc.
  - (* admission test *)
    destruct (Hl i t a Ht) as (c0 & Hc0 & Hst0); [by rewrite Hpc|by rewrite Hpc|].
    assert (c0 = car) as -> by congruence.
    destruct (_ || _).
    + destruct (can_cross _ _ _) as [[|]|]; injection H as <-.
      * own_car_step s i t (after_loop a (set_state "crossing" car) now) a car
          (set_state "crossing" car) Hpc.
      * own_car_step s i t (PcWaiting a) a car car Hpc.
      * own_car_step s i t PcFinished a car car Hpc.
    + injection H as <-. own_car_step s i t (PcWaiting a) a car car Hpc.
  - (* return from wait() *)
    destruct (Hl i t a Ht) as (c0 & Hc0 & Hst0); [by rewrite Hpc|by rewrite Hpc|].
    assert (c0 = car) as -> by congruence.
    set (car' := set_waiting_time (PrimFloat.add (waiting_time car) tenth) car) in *.
    destruct (PrimFloat.ltb _ _); injection H as <-.
    + own_car_step s i t (after_loop a car' now) a car car' Hpc.
    + own_car_step s i t (PcWhile a) a car car' Hpc.
  - (* crossing loop *)
    destruct (pi_crossing s Hpos i t a st Ht Hpc) as (c0 & Hc0 & Hst0).
    assert (c0 = car) as -> by congruence.
    destruct (PrimFloat.ltb _ _); injection H as <-.
    + own_car_step s i t (pc t) a car
        (set_position (PrimFloat.add (position car) tenth) car) Hpc.
      * simpl. symmetry. apply list_insert_id. by destruct t.
      * rewrite Hpc. simpl. congruence.
    + own_car_step s i t PcFinished a car (set_state "exited" car) Hpc.
Qed.

Lemma life_inv_exec (e : event) (s s' : TrafficSimulator) :
  wf s -> pos_inv s -> life_inv s -> exec e s = Some s' -> life_inv s'.
Proof.
  intros Hwf Hpos Hinv H. destruct e as [randint|i now|i now|i]; simpl in H.
  - injection H as <-. by apply life_inv_toggle_simulation.
  - eapply life_inv_car_process; eassumption.
  - destruct (light_process_frame _ _ _ _ H) as [(Hh & _) [Hp|[n Hp]]].
    + eapply life_inv_same; eassumption.
    + eapply life_inv_wake; eassumption.
  - destruct (update_display_frame _ _ _ H) as ((Hh & _) & Hp & _).
    eapply life_inv_same; eassumption.
Qed.

(** What holds in every state the program reaches. *)
Lemma reachable_inv (case count k : string) (now : float) (s : TrafficSimulator) :
  reachable (init case count k now) s -> wf s /\ pos_inv s /\ life_inv s.
Proof.
  induction 1 as [|s s' _ (IHw & IHp & IHl) [e He]].
  - split; [apply wf_init|]. split; split; simpl; intros; discriminate.
  - split; [eapply wf_exec; eassumption|].
    split; [eapply pos_inv_exec; eassumption|eapply life_inv_exec; eassumption].
Qed.

(** ** What one step does to a car object *)

(** How step [e], taken in state [s], may change the car at [a]: the
    identifier, the road and the speed stay; an exited car stays as it
    is; the state stays, or goes from "waiting" to "crossing" (thread
    [i] admits its own car under a green or yellow light, [can_cross]
    having answered [True]), or from "crossing" to "exited". *)
Definition car_change (s : TrafficSimulator) (e : event) (a : nat) (c c' : Car) : Prop :=
  car_id c' = car_id c /\ road_num c' = road_num c /\ speed c' = speed c
  /\ (state c = "exited" -> c' = c)
  /\ (state c' = state c
      \/ (state c = "waiting" /\ state c' = "crossing"
          /\ (light_state (roads s (road_num c)) = GREEN
              \/ light_state (roads s (road_num c)) = YELLOW)
          /\ can_cross s (roads s (road_num c)) c = Ok true
          /\ exists i now, e = CarStep i now
                           /\ (pc <$> car_procs s !! i) = Some (PcLocked a))
      \/ (state c = "crossing" /\ state c' = "exited")).

Lemma car_change_refl (s : TrafficSimulator) (e : event) (a : nat) (c : Car) :
  car_change s e a c c.
Proof. repeat split; auto. Qed.

Lemma green_or_yellow (l : LightState) :
  LightState_eqb l GREEN || LightState_eqb l YELLOW = true -> l = GREEN \/ l = YELLOW.
Proof. destruct l; simpl; auto; discriminate. Qed.

Lemma car_process_change (i : nat) (now : float) (s s' : TrafficSimulator) :
  wf s -> pos_inv s -> life_inv s -> car_process i now s = Some s' ->
  forall a c, heap s !! a = Some c ->
    exists c', heap s' !! a = Some c' /\ car_change s (CarStep i now) a c c'.
Proof.
  intros [_ _ Hprocs] Hpos [Hl _ _ _] H.
  assert (forall a0 car car', heap s !! a0 = Some car ->
            car_change s (CarStep i now) a0 car car' ->
            forall a c, heap s !! a = Some c ->
              exists c', <[a0 := car']> (heap s) !! a = Some c'
                         /\ car_change s (CarStep i now) a c c') as Hput.
  { intros a0 car car' Hcar Hch a c Hc. destruct (decide (a = a0)) as [->|Hne].
    - exists car'. split; [apply list_lookup_insert_eq; eapply lookup_lt_Some, Hcar|].
      congruence.
    - exists c. rewrite list_lookup_insert_ne by congruence.
      split; [assumption|apply car_change_refl]. }
  assert (forall a c, heap s !! a = Some c ->
            exists c', heap s !! a = Some c' /\ car_change s (CarStep i now) a c c')
    as Hsame.
  { intros a c Hc. exists c. split; [assumption|apply car_change_refl]. }
  car_cases H.
  - injection H as <-. intros b c Hc. exists c.
    split; [by apply lookup_app_l_Some|apply car_change_refl].
  - destruct (_ && _); injection H as <-; exact Hsame.
  - destruct (Hl i t a Ht) as (c0 & Hc0 & Hst0); [by rewrite Hpc|by rewrite Hpc|].
    assert (c0 = car) as -> by congruence.
    assert (road_num car = arg_road_num t) as Hroad.
    { assert (proc_ok (heap s) t) as Hok
        by (eapply (proj1 (Forall_forall _ _) Hprocs), list_elem_of_lookup_2, Ht).
      destruct (Hok a) as (c1 & Hc1 & Hn1); [by rewrite Hpc|]. congruence. }
    destruct (_ || _) eqn:Hlight; [|injection H as <-; exact Hsame].
    destruct (can_cross _ _ _) as [[|]|] eqn:Hcc; injection H as <-; try exact Hsame.
    apply (Hput a car (set_state "crossing" car)); [assumption|].
    split; [reflexivity|]. split; [reflexivity|]. split; [reflexivity|].
    split; [rewrite Hst0; discriminate|].
    right. left. rewrite Hroad. split; [assumption|]. split; [reflexivity|].
    split; [by apply green_or_yellow|]. split; [assumption|].
    exists i, now. split; [reflexivity|]. rewrite Ht. simpl. by rewrite Hpc.
  - destruct (Hl i t a Ht) as (c0 & Hc0 & Hst0); [by rewrite Hpc|by rewrite Hpc|].
    assert (c0 = car) as -> by congruence.
    assert (car_change s (CarStep i now) a car
              (set_waiting_time (PrimFloat.add (waiting_time car) tenth) car)) as Hch.
    { split; [reflexivity|]. split; [reflexivity|]. split; [reflexivity|].
      split; [rewrite Hst0; discriminate|by left]. }
    destruct (PrimFloat.ltb _ _); injection H as <-; by apply (Hput a car).
  - destruct (pi_crossing s Hpos i t a st Ht Hpc) as (c0 & Hc0 & Hst0).
    assert (c0 = car) as -> by congruence.
    destruct (PrimFloat.ltb _ _); injection H as <-;
      (apply (Hput a car); [assumption|]);
      (split; [reflexivity|]); (split; [reflexivity|]); (split; [reflexivity|]);
      (split; [rewrite Hst0; discriminate|]).
    + by left.
    + right. right. by split.
Qed.

Lemma exec_change (e : event) (s s' : TrafficSimulator) :
  wf s -> pos_inv s -> life_inv s -> exec e s = Some s' ->
  forall a c, heap s !! a = Some c ->
    exists c', heap s' !! a = Some c' /\ car_change s e a c c'.
Proof.
  intros Hwf Hpos Hinv H a c Hc. destruct e as [randint|i now|i now|i]; simpl in H.
  - injection H as <-. exists c.
    rewrite (proj1 (toggle_simulation_roads randint s)).
    split; [assumption|apply car_change_refl].
  - by apply (car_process_change i now s s').
  - destruct (light_process_frame _ _ _ _ H) as [(Hh & _) _].
    exists c. rewrite Hh. split; [assumption|apply car_change_refl].
  - destruct (update_display_frame _ _ _ H) as ((Hh & _) & _).
    exists c. rewrite Hh. split; [assumption|apply car_change_refl].
Qed.

(** The life cycle of a car.  In every state the program reaches a
    car is "waiting", "crossing" or "exited", and one step (of any
    thread, or a click) leaves its state alone or moves it one stage
    forward: "waiting" to "crossing", or "crossing" to "exited".  Its
    [id] and [road_num] never change, and an exited car is never written
    again. *)
Theorem car_state_lifecycle (case count k : string) (now : float)
    (s s' : TrafficSimulator) (e : event) (a : nat) (c : Car) :
  reachable (init case count k now) s -> exec e s = Some s' ->
  heap s !! a = Some c ->
  (state c = "waiting" \/ state c = "crossing" \/ state c = "exited")
  /\ exists c',
       heap s' !! a = Some c'
       /\ car_id c' = car_id c /\ road_num c' = road_num c
       /\ (state c = "exited" -> c' = c)
       /\ (state c' = state c
           \/ (state c = "waiting" /\ state c' = "crossing")
           \/ (state c = "crossing" /\ state c' = "exited")).
Proof.
  intros Hreach He Hc.
  destruct (reachable_inv _ _ _ _ _ Hreach) as (Hwf & Hpos & Hinv).
  split; [by apply (li_states s Hinv a)|].
  destruct (exec_change e s s' Hwf Hpos Hinv He a c Hc)
    as (c' & Hc' & Hid & Hroad & _ & Hex & Hst).
  exists c'. repeat split; try assumption.
  destruct Hst as [Hst|[(H1 & H2 & _)|Hst]]; auto.
Qed.

(** No car enters on red.  When a step turns a car's state into
    "crossing", that step is the admission test of the car's own thread,
    the light of the car's road is GREEN or YELLOW in the state the step
    starts from, and [can_cross] has answered [True] for that car. *)
Theorem admission_needs_green_or_yellow (case count k : string) (now : float)
    (s s' : TrafficSimulator) (e : event) (a : nat) (c c' : Car) :
  reachable (init case count k now) s -> exec e s = Some s' ->
  heap s !! a = Some c -> heap s' !! a = Some c' ->
  state c <> "crossing" -> state c' = "crossing" ->
  (light_state (roads s (road_num c)) = GREEN
   \/ light_state (roads s (road_num c)) = YELLOW)
  /\ state c = "waiting"
  /\ can_cross s (roads s (road_num c)) c = Ok true
  /\ exists i now', e = CarStep i now'
                    /\ (pc <$> car_procs s !! i) = Some (PcLocked a).
Proof.
  intros Hreach He Hc Hc' Hn Hy.
  destruct (reachable_inv _ _ _ _ _ Hreach) as (Hwf & Hpos & Hinv).
  destruct (exec_change e s s' Hwf Hpos Hinv He a c Hc)
    as (c1 & Hc1 & _ & _ & _ & _ & Hst).
  assert (c1 = c') as -> by congruence.
  destruct Hst as [Hst|[(H1 & H2 & H3 & H4 & H5)|[_ Hst]]]; [congruence| |congruence].
  repeat split; assumption.
Qed.

(** ** Fields that are never written *)

Lemma toggle_simulation_fields (randint : nat -> RoadNum) (s : TrafficSimulator)
    (n : RoadNum) :
  queue_length (roads (snd (toggle_simulation randint s)) n) = queue_length (roads s n).
Proof.
  unfold toggle_simulation.
  destruct (negb (is_running s)); cbn [snd].
  - unfold start_simulation. cbn zeta.
    change (case_var (set_is_running true s)) with (case_var s).
    destruct (py_int (case_var s)) as [c|]; [|by destruct n].
    change (cars_entry (set_case_type c (set_is_running true s))) with (cars_entry s).
    destruct (py_int (cars_entry s)) as [num_cars|]; [|by destruct n].
    cbn [snd].
    match goal with |- context [spawn_cars randint 0 ?c ?s0] =>
      pose proof (spawn_cars_frame randint c 0%nat s0) as H end.
    cbn zeta in H. destruct H as (_&_&H1&H2&_).
    destruct n; cbn [roads]; [rewrite H1|rewrite H2]; reflexivity.
  - unfold stop_simulation. rewrite roads_reset_roads. reflexivity.
Qed.

Lemma exec_queue_length (e : event) (s s' : TrafficSimulator) (n : RoadNum) :
  exec e s = Some s' -> queue_length (roads s' n) = queue_length (roads s n).
Proof.
  intros H. destruct e as [randint|i now|i now|i]; simpl in H.
  - injection H as <-. apply toggle_simulation_fields.
  - destruct (car_process_effect _ _ _ _ H) as (t & p & _ & _ & Hf & _).
    apply Hf.
  - unfold traffic_light_process in H.
    destruct (light_procs s !! i) as [p|]; [|discriminate H].
    cbn [mbind option_bind] in H.
    destruct p as [|[|m rest]|m rest|m rest|]; try discriminate H;
      try destruct (is_running s); cbn [negb] in H; injection H as <-;
      try reflexivity; destruct m, n; reflexivity.
  - destruct (update_display_frame _ _ _ H) as (_ & _ & H1 & H2 & _).
    destruct n; simpl; congruence.
Qed.

(** Two fields of the data model are dead.  In every state the program
    reaches, every car has [speed] 0.0 and every road has
    [queue_length] 0: no code writes them after the objects are
    created ([queue_length] is not the number of waiting cars). *)
Theorem fields_never_written (case count k : string) (now : float)
    (s : TrafficSimulator) :
  reachable (init case count k now) s ->
  (forall a c, heap s !! a = Some c -> speed c = float_of_int 0)
  /\ (forall n, queue_length (roads s n) = 0).
Proof.
  intros Hreach. split.
  - destruct (reachable_inv _ _ _ _ _ Hreach) as (_ & _ & Hinv).
    apply (li_speed s Hinv).
  - induction Hreach as [|s s' _ IH [e He]]; intros n.
    + by destruct n.
    + rewrite (exec_queue_length e s s' n He). apply IH.
Qed.

(** ** The admission test as the threads call it *)

(** The spacing rule of [can_cross] never decides.  Whenever a car
    thread is about to call [can_cross] (it has passed the test of the
    [while] loop), its car is waiting at position 0; in BOUNDED(k) mode
    the answer is therefore that of the count alone: [True] when no car
    of the road is crossing or fewer than [k] are. *)
Theorem spacing_rule_never_decides (case count k : string) (now : float)
    (s : TrafficSimulator) (i : nat) (t : CarProc) (a : nat) (c : Car) (kmax : Z)
    (road : Road) :
  reachable (init case count k now) s ->
  car_procs s !! i = Some t -> pc t = PcLocked a -> heap s !! a = Some c ->
  case_type s <> 1 -> py_int (k_entry s) = Some kmax ->
  state c = "waiting" /\ position c = float_of_int 0
  /\ can_cross s road c
     = Ok (let n := ncross (heap s) (cars road) in
           Nat.eqb n 0 || Z.ltb (Z.of_nat n) kmax).
Proof.
  intros Hreach Ht Hpc Hc Hmode Hk.
  destruct (reachable_inv _ _ _ _ _ Hreach) as (_ & Hpos & Hinv).
  destruct (li_loop s Hinv i t a Ht) as (c0 & Hc0 & Hst); [by rewrite Hpc|by rewrite Hpc|].
  assert (c0 = c) as -> by congruence.
  pose proof (pi_waiting s Hpos a c Hc Hst) as Hp.
  split; [assumption|]. split; [assumption|].
  unfold can_cross, ncross. cbn zeta.
  destruct (Z.eqb_spec (case_type s) 1) as [|_]; [contradiction|].
  rewrite Hk.
  destruct (List.filter is_crossing (deref (heap s) (cars road))) as [|c0 rest];
    [reflexivity|].
  cbn [Nat.eqb length orb].
  destruct (Z.leb_spec kmax (Z.of_nat (S (length rest)))) as [Hle|Hlt].
  - f_equal. symmetry. by apply Z.ltb_ge.
  - rewrite Hp. change (PrimFloat.eqb (float_of_int 0) (float_of_int 0)) with true.
    cbn iota. f_equal. symmetry. by apply Z.ltb_lt.
Qed.

(** ** BOUNDED(k) with a small or missing [k] *)

Lemma admits_below_any (s : TrafficSimulator) (k : Z) :
  py_int (k_entry s) = Some k -> admits_below (Z.to_nat (Z.max k 1)) s.
Proof.
  intros Hk road car. unfold can_cross, ncross.
  destruct (Z.eqb (case_type s) 1).
  - intros H. injection H as H. apply negb_true_iff in H.
    rewrite (existsb_false_filter _ _ H). simpl. lia.
  - rewrite Hk.
    destruct (List.filter is_crossing (deref (heap s) (cars road))) as [|c0 rest];
      [simpl; lia|].
    destruct (Z.leb_spec k (Z.of_nat (length (c0 :: rest)))); [discriminate|].
    intros _. lia.
Qed.

(** BOUNDED(k) with [k <= 1] is EXCLUSIVE.  The test "no car is
    crossing" comes before the capacity test, so a [k] of 1, 0 or below
    does not close the road: [can_cross] answers as in EXCLUSIVE mode,
    and each road has at most one crossing car in its list. *)
Theorem bounded_small_k_is_exclusive (case count k : string) (now : float) (kmax : Z)
    (s : TrafficSimulator) :
  py_int k = Some kmax -> kmax <= 1 ->
  reachable (init case count k now) s ->
  (forall road car,
      can_cross s road car
      = Ok (negb (existsb is_crossing (deref (heap s) (cars road)))))
  /\ (forall n, (length (crossing_cars s n) <= 1)%nat).
Proof.
  intros Hk Hk1 Hreach.
  assert (forall s1, reachable (init case count k now) s1 -> py_int (k_entry s1) = Some kmax)
    as Hentry.
  { intros s1 H1. destruct (mode_ok_reachable _ _ _ _ _ H1) as (_ & -> & _). assumption. }
  split.
  - intros road car. unfold can_cross.
    destruct (Z.eqb (case_type s) 1); [reflexivity|].
    rewrite (Hentry s Hreach).
    destruct (List.filter is_crossing (deref (heap s) (cars road))) as [|c0 rest] eqn:E.
    + f_equal. symmetry. apply negb_true_iff.
      destruct (existsb is_crossing (deref (heap s) (cars road))) eqn:Hex; [|reflexivity].
      apply existsb_exists in Hex as (x & Hx & Hcr).
      assert (In x (List.filter is_crossing (deref (heap s) (cars road)))) as Hin
        by (apply filter_In; by split).
      rewrite E in Hin. destruct Hin.
    + assert (existsb is_crossing (deref (heap s) (cars road)) = true) as ->.
      { apply existsb_exists. exists c0.
        assert (In c0 (List.filter is_crossing (deref (heap s) (cars road)))) as Hin
          by (rewrite E; by left).
        by apply filter_In in Hin. }
      destruct (Z.leb_spec kmax (Z.of_nat (length (c0 :: rest)))) as [|Hlt];
        [reflexivity|]. simpl length in Hlt. lia.
  - destruct (reachable_capacity (Z.to_nat (Z.max kmax 1)) (init case count k now) s
                (wf_init case count k now)
                (capacity_init _ case count k now)) as [_ Hcap]; [|assumption|].
    + intros s1 H1. apply admits_below_any. by apply Hentry.
    + intros n. specialize (Hcap n). lia.
Qed.

(** The cars of a simulator in BOUNDED mode without a usable [k]. *)
Record stuck_inv (s : TrafficSimulator) : Prop := mk_stuck_inv {
  su_mode : case_type s = 1 -> car_procs s = [];
  su_waiting : forall a c, heap s !! a = Some c -> state c = "waiting"
}.

Lemma stuck_inv_exec (case k : string) (mode : Z) (e : event) (s s' : TrafficSimulator) :
  py_int case = Some mode -> mode <> 1 -> py_int k = None ->
  mode_ok case k s -> pos_inv s ->
  stuck_inv s -> exec e s = Some s' -> stuck_inv s'.
Proof.
  intros Hcase Hmode Hk (Hv & Hke & _) Hpos [Hm Hw] H.
  destruct e as [randint|i now|i now|i]; simpl in H.
  - injection H as <-. split.
    2: { by rewrite (proj1 (toggle_simulation_roads randint s)). }
    unfold toggle_simulation. destruct (negb (is_running s)); cbn [snd].
    + unfold start_simulation. cbn zeta.
      change (case_var (set_is_running true s)) with (case_var s).
      rewrite Hv, Hcase.
      change (cars_entry (set_case_type mode (set_is_running true s))) with (cars_entry s).
      destruct (py_int (cars_entry s)) as [num_cars|]; [|simpl; congruence].
      cbn [snd].
      match goal with |- context [spawn_cars randint 0 ?c ?s0] =>
        pose proof (spawn_cars_frame randint c 0%nat s0) as H end.
      cbn zeta in H. destruct H as (_&Hct&_). rewrite Hct. simpl. congruence.
    + unfold stop_simulation. simpl. intros H1. by rewrite (Hm H1).
  - assert (case_type s <> 1) as Hct.
    { intros H1. unfold car_process in H. rewrite (Hm H1) in H. discriminate H. }
    split.
    { destruct (car_process_effect _ _ _ _ H) as (t & p & _ & _ & Hf & _).
      destruct Hf as (_ & -> & _). intros H1. contradiction. }
    car_cases H.
    + injection H as <-. intros b c. simpl. rewrite lookup_snoc_Some.
      intros [[_ Hb]|[_ <-]]; [by apply (Hw b)|reflexivity].
    + destruct (_ && _); injection H as <-; exact Hw.
    + destruct (_ || _); [|injection H as <-; exact Hw].
      unfold can_cross in H.
      destruct (Z.eqb_spec (case_type s) 1) as [|_]; [contradiction|].
      rewrite Hke, Hk in H. injection H as <-. exact Hw.
    + assert (forall b c,
                <[a := set_waiting_time (PrimFloat.add (waiting_time car) tenth) car]>
                  (heap s) !! b = Some c -> state c = "waiting") as Hgoal.
      { intros b c. rewrite list_lookup_insert_Some.
        intros [(_ & <- & _)|[_ Hb]]; [simpl; by apply (Hw a)|by apply (Hw b)]. }
      destruct (PrimFloat.ltb _ _); injection H as <-; exact Hgoal.
    + destruct (pi_crossing s Hpos i t a st Ht Hpc) as (c0 & Hc0 & Hst0).
      rewrite (Hw a c0 Hc0) in Hst0. discriminate Hst0.
  - destruct (light_process_frame _ _ _ _ H) as [(Hh & _ & _ & Hct & _) Hp].
    split; rewrite ?Hh, ?Hct; [|assumption].
    intros H1. destruct Hp as [->|[n ->]]; rewrite (Hm H1); reflexivity.
  - destruct (update_display_frame _ _ _ H) as ((Hh & _ & _ & Hct & _) & Hp & _).
    split; rewrite ?Hh, ?Hct, ?Hp; assumption.
Qed.

(** BOUNDED mode with a [k] entry that is not an integer: no car ever
    crosses.  [start_simulation] does not read the entry; [can_cross]
    does, on every call, and raises in the car thread that called it.
    In every state the program reaches, every car is still "waiting". *)
Theorem bounded_without_k_never_admits (case count k : string) (now : float) (mode : Z)
    (s : TrafficSimulator) (a : nat) (c : Car) :
  py_int case = Some mode -> mode <> 1 -> py_int k = None ->
  reachable (init case count k now) s ->
  heap s !! a = Some c -> state c = "waiting".
Proof.
  intros Hcase Hmode Hk Hreach. revert a c.
  assert (stuck_inv s) as [_ Hw]; [|exact Hw].
  induction Hreach as [|s s' Hr IH [e He]].
  - split; [reflexivity|]. intros a c Ha. discriminate Ha.
  - destruct (reachable_inv _ _ _ _ _ Hr) as (_ & Hpos & _).
    eapply stuck_inv_exec; try eassumption.
    by apply (mode_ok_reachable _ count _ now).
Qed.

(** * Stopping a run *)

(** ** The running flag *)

Lemma toggle_simulation_is_running (randint : nat -> RoadNum) (s : TrafficSimulator) :
  is_running (snd (toggle_simulation randint s)) = negb (is_running s).
Proof.
  unfold toggle_simulation. destruct (is_running s) eqn:Hr; cbn [negb snd].
  - reflexivity.
  - unfold start_simulation. cbn zeta.
    change (case_var (set_is_running true s)) with (case_var s).
    destruct (py_int (case_var s)) as [c|]; [|reflexivity].
    change (cars_entry (set_case_type c (set_is_running true s))) with (cars_entry s).
    destruct (py_int (cars_entry s)) as [num_cars|]; [|reflexivity].
    cbn [snd].
    match goal with |- context [spawn_cars randint 0 ?c ?s0] =>
      pose proof (spawn_cars_frame randint c 0%nat s0) as H end.
    cbn zeta in H. destruct H as (H&_). rewrite H. reflexivity.
Qed.

Lemma exec_is_running (e : event) (s s' : TrafficSimulator) :
  exec e s = Some s' ->
  is_running s' = if is_click e then negb (is_running s) else is_running s.
Proof.
  intros H. destruct e as [randint|i now|i now|i]; simpl in H; cbn [is_click].
  - injection H as <-. apply toggle_simulation_is_running.
  - destruct (car_process_effect _ _ _ _ H) as (t & p & _ & _ & Hf & _). apply Hf.
  - destruct (light_process_frame _ _ _ _ H) as [(_ & _ & Hr & _) _]. exact Hr.
  - destruct (update_display_frame _ _ _ H) as ((_ & _ & Hr & _) & _). exact Hr.
Qed.

(** The running flag counts the clicks.  Every click flips
    [is_running], also the click whose [start_simulation] raised on its
    inputs (the flag is set before they are read), and no thread writes
    it: after any schedule the flag is the parity of the number of
    clicks.  So the click that follows a failed start stops a run that
    never began. *)
Theorem running_flag_counts_clicks (es : list event) (s0 s : TrafficSimulator) :
  run es s0 = Some s ->
  is_running s = xorb (is_running s0) (Nat.odd (length (List.filter is_click es))).
Proof.
  revert s0. induction es as [|e es IH]; intros s0 H; simpl in H.
  - injection H as <-. simpl. by destruct (is_running s0).
  - destruct (exec e s0) as [s1|] eqn:He; [|discriminate H].
    rewrite (IH s1 H), (exec_is_running e s0 s1 He). simpl.
    destruct (is_click e); [|reflexivity].
    cbn [length]. rewrite Nat.odd_succ, <- Nat.negb_odd.
    destruct (is_running s0), (Nat.odd _); reflexivity.
Qed.

(** ** The light thread after a stop *)






(** ** Who wakes a waiting car *)

(** The road whose light the next step of a light thread at [p] sets. *)
Definition light_target (running : bool) (p : LightPc) : option RoadNum :=
  match p with
  | LFor (n :: _) => if running then Some n else None
  | LGreenSleep n _ | LYellowSleep n _ => Some n
  | LWhile | LFor [] | LFinished => None
  end.

Definition sets_light (running : bool) (p : LightPc) (n : RoadNum) : bool :=
  match light_target running p with
  | Some m => RoadNum_eqb m n
  | None => false
  end.

Lemma wake_waiting (n : RoadNum) (t : CarProc) (a : nat) :
  pc t = PcWaiting a ->
  wake n t = if RoadNum_eqb (arg_road_num t) n then set_pc (PcNotified a) t else t.
Proof. unfold wake. intros ->. reflexivity. Qed.

Lemma wake_set_pc (n : RoadNum) (t : CarProc) (a : nat) :
  wake n (set_pc (PcNotified a) t) = set_pc (PcNotified a) t.
Proof. reflexivity. Qed.

Lemma spawn_cars_lookup (randint : nat -> RoadNum) (count i j : nat)
    (s : TrafficSimulator) (t : CarProc) :
  car_procs s !! j = Some t -> car_procs (spawn_cars randint i count s) !! j = Some t.
Proof.
  revert i s. induction count as [|count IH]; intros i s H; [exact H|].
  simpl. apply IH. simpl. by apply lookup_app_l_Some.
Qed.

Lemma light_process_wakes (j : nat) (now : float) (s s' : TrafficSimulator) :
  traffic_light_process j now s = Some s' ->
  exists p, light_procs s !! j = Some p
            /\ car_procs s' = match light_target (is_running s) p with
                              | Some n => map (wake n) (car_procs s)
                              | None => car_procs s
                              end.
Proof.
  unfold traffic_light_process. intros H.
  destruct (light_procs s !! j) as [p|]; [|discriminate H].
  cbn [mbind option_bind] in H. exists p. split; [reflexivity|].
  destruct p as [|[|m rest]|m rest|m rest|]; try discriminate H; cbn [light_target];
    try destruct (is_running s); cbn [negb] in H; injection H as <-; reflexivity.
Qed.

Lemma waiting_step (e : event) (s s' : TrafficSimulator)
    (i : nat) (t : CarProc) (a : nat) :
  exec e s = Some s' -> car_procs s !! i = Some t -> pc t = PcWaiting a ->
  match e with
  | CarStep _ _ | DisplayStep _ => car_procs s' !! i = Some t
  | LightStep j _ =>
      exists p, light_procs s !! j = Some p
                /\ car_procs s' !! i
                   = Some (if sets_light (is_running s) p (arg_road_num t)
                           then set_pc (PcNotified a) t else t)
  | Click _ =>
      car_procs s' !! i
      = Some (if is_running s || (bool_decide (is_Some (py_int (case_var s)))
                                  && bool_decide (is_Some (py_int (cars_entry s))))
              then set_pc (PcNotified a) t else t)
  end.
Proof.
  intros H Ht Hpc. destruct e as [randint|j now|j now|j]; simpl in H.
  - injection H as <-.
    assert (car_procs (reset_roads s) !! i = Some (set_pc (PcNotified a) t)) as Hreset.
    { cbn. rewrite !lookup_map, Ht. cbn. rewrite (wake_waiting Road1 t a Hpc).
      destruct (arg_road_num t) eqn:Hn; cbn [RoadNum_eqb]; [by rewrite wake_set_pc|].
      rewrite (wake_waiting Road2 t a Hpc), Hn. reflexivity. }
    unfold toggle_simulation. destruct (is_running s); cbn [negb snd orb].
    + exact Hreset.
    + unfold start_simulation. cbn zeta.
      change (case_var (set_is_running true s)) with (case_var s).
      destruct (py_int (case_var s)) as [c|]; [|exact Ht].
      change (cars_entry (set_case_type c (set_is_running true s))) with (cars_entry s).
      destruct (py_int (cars_entry s)) as [num_cars|]; [|exact Ht].
      cbn [snd]. rewrite !bool_decide_eq_true_2 by eauto. cbn [andb].
      apply spawn_cars_lookup. exact Hreset.
  - destruct (car_process_effect _ _ _ _ H) as (t' & p & Ht' & -> & _).
    destruct (decide (j = i)) as [->|Hne].
    + unfold car_process in H. rewrite Ht in H. cbn [mbind option_bind] in H.
      rewrite Hpc in H. discriminate H.
    + by rewrite list_lookup_insert_ne.
  - destruct (light_process_wakes _ _ _ _ H) as (p & Hp & ->).
    exists p. split; [assumption|].
    unfold sets_light. destruct (light_target (is_running s) p) as [n|]; [|assumption].
    rewrite lookup_map, Ht. cbn. rewrite (wake_waiting n t a Hpc).
    by destruct (arg_road_num t), n.
  - destruct (update_display_frame _ _ _ H) as (_ & -> & _). assumption.
Qed.

(** Only a light change on its own road, or a click, wakes a waiting
    car.  A thread blocked in [road.condition.wait()] is left blocked by
    every step of a car thread (the car that leaves the road notifies
    nobody) and of the display thread, and by a light thread that sets
    the light of the other road or none; a light thread that sets the
    light of its road wakes it, and so does a click, unless it is a
    start that raises on its inputs. *)
Theorem waiting_car_woken_only_by_light_or_click (e : event) (s s' : TrafficSimulator)
    (i : nat) (t : CarProc) (a : nat) :
  exec e s = Some s' -> car_procs s !! i = Some t -> pc t = PcWaiting a ->
  match e with
  | CarStep _ _ | DisplayStep _ => car_procs s' !! i = Some t
  | LightStep j _ =>
      exists p, light_procs s !! j = Some p
                /\ car_procs s' !! i
                   = Some (if sets_light (is_running s) p (arg_road_num t)
                           then set_pc (PcNotified a) t else t)
  | Click _ =>
      car_procs s' !! i
      = Some (if is_running s || (bool_decide (is_Some (py_int (case_var s)))
                                  && bool_decide (is_Some (py_int (cars_entry s))))
              then set_pc (PcNotified a) t else t)
  end.
Proof. apply waiting_step. Qed.

(** A car thread that blocks after the stop waits for ever.  When the
    run is stopped and every light thread has ended, a thread blocked in
    [wait()] stays blocked whatever the other threads do, until the next
    click: [stop_simulation] notifies once and does not join the car
    threads. *)
Theorem stopped_waiter_is_never_woken (s s' : TrafficSimulator) (i : nat) (t : CarProc)
    (a : nat) :
  is_running s = false -> Forall (fun p => p = LFinished) (light_procs s) ->
  car_procs s !! i = Some t -> pc t = PcWaiting a ->
  run_from s s' ->
  car_procs s' !! i = Some t /\ is_running s' = false
  /\ Forall (fun p => p = LFinished) (light_procs s').
Proof.
  intros Hr Hl Ht Hpc Hrun.
  induction Hrun as [|s1 s2 e _ (IHt & IHr & IHl) Hc He]; [by repeat split|].
  pose proof (waiting_step e s1 s2 i t a He IHt Hpc) as Hw.
  pose proof (exec_is_running e s1 s2 He) as Hr2. rewrite Hc, IHr in Hr2.
  destruct e as [randint|j now|j now|j]; simpl in He; [discriminate Hc| | |].
  - destruct (car_process_effect _ _ _ _ He) as (t' & p & _ & _ & Hf & _).
    destruct Hf as (_&_&_&_&_&Hlp&_). rewrite Hlp. by repeat split.
  - exfalso. unfold traffic_light_process in He.
    destruct (light_procs s1 !! j) as [p|] eqn:Hp; [|discriminate He].
    rewrite (proj1 (Forall_forall _ _) IHl p) in He; [discriminate He|].
    eapply list_elem_of_lookup_2, Hp.
  - destruct (update_display_frame _ _ _ He) as (_ & _ & _ & _ & Hlp).
    rewrite Hlp. by repeat split.
Qed.

(** * The lists of the roads *)

(** A road's list holds cars of that road, each once.  In every state
    the program reaches, every entry of [roads[n].cars] is a car whose
    [road_num] is [n], and no car object is in a list twice. *)
Theorem road_lists_well_formed (case count k : string) (now : float)
    (s : TrafficSimulator) (n : RoadNum) :
  reachable (init case count k now) s ->
  NoDup (cars (roads s n))
  /\ forall a, a ∈ cars (roads s n) ->
               exists c, heap s !! a = Some c /\ road_num c = n.
Proof.
  intros Hreach.
  destruct (wf_reachable _ _ (wf_init case count k now) Hreach) as [Hcars Hnd _].
  split; [apply Hnd|]. intros a Ha.
  exact (proj1 (Forall_forall _ _) (Hcars n) a Ha).
Qed.

(** ** The first run: the list of a road is the cars that have not exited *)

Definition listed (s : TrafficSimulator) : Prop :=
  forall a c, heap s !! a = Some c ->
    (a ∈ cars (roads s (road_num c)) <-> state c <> "exited").

Lemma list_remove_self (h : list Car) (a : nat) (car : Car) (l : list nat) :
  (forall b cb, b ∈ l -> b <> a -> h !! b = Some cb -> Car_eqb cb car = false) ->
  (forall b, b ∈ l -> is_Some (h !! b)) ->
  NoDup l -> a ∉ list_remove h a car l.
Proof.
  intros Hne Hsome Hnd. induction l as [|b l IH]; simpl; [apply not_elem_of_nil|].
  apply NoDup_cons in Hnd as [Hb Hnd].
  destruct (decide (b = a)) as [->|Hba].
  - rewrite Nat.eqb_refl. simpl. exact Hb.
  - assert (Nat.eqb b a = false) as -> by (by apply Nat.eqb_neq).
    destruct (Hsome b) as [cb Hcb]; [by left|]. rewrite Hcb.
    rewrite (Hne b cb) by (first [by left | assumption]). simpl.
    apply not_elem_of_cons. split; [congruence|].
    apply IH; [|by (intros; apply Hsome; right)|assumption].
    intros b' cb' Hb'. apply Hne. by right.
Qed.

Ltac kept_car Hst :=
  try assumption; try reflexivity; try (intros []; reflexivity);
  try (cbn [state set_waiting_time set_position set_state]; rewrite ?Hst; discriminate).

Lemma listed_car_process (i : nat) (now : float) (s s' : TrafficSimulator) :
  wf s -> pos_inv s -> life_inv s -> run_inv s -> listed s ->
  car_process i now s = Some s' -> listed s'.
Proof.
  intros [Hcars Hnd Hprocs] Hpos Hlife [Hids Hborn Huniq Hown Hcross] Hl H.
  assert (forall t a, car_procs s !! i = Some t -> pc_car (pc t) = Some a ->
            exists car, heap s !! a = Some car /\ road_num car = arg_road_num t
                        /\ a ∈ cars (roads s (arg_road_num t))) as Hmine.
  { intros t a Ht Hpc. destruct (Hown i t a Ht Hpc) as (c & Hc & _ & Hin).
    assert (proc_ok (heap s) t) as Hok
      by (eapply (proj1 (Forall_forall _ _) Hprocs), list_elem_of_lookup_2, Ht).
    destruct (Hok a Hpc) as (c1 & Hc1 & Hn1). exists c. split; [assumption|].
    split; [congruence|assumption]. }
  (* the thread rewrites its own car and keeps it in the list *)
  assert (forall (t : CarProc) a car car' s1,
            heap s !! a = Some car ->
            heap s1 = <[a := car']> (heap s) ->
            (forall n, cars (roads s1 n) = cars (roads s n)) ->
            road_num car' = road_num car ->
            state car <> "exited" -> state car' <> "exited" ->
            listed s1) as Hkeep.
  { intros t a car car' s1 Hcar Hh Hc Hr Hst Hst' b c. rewrite Hh, Hc.
    rewrite list_lookup_insert_Some. intros [(-> & <- & _)|[Hne Hb]].
    - rewrite Hr. split; [auto|]. intros _. by apply (Hl b car).
    - by apply Hl. }
  assert (forall s1, heap s1 = heap s -> (forall n, cars (roads s1 n) = cars (roads s n)) ->
            listed s1) as Hsame.
  { intros s1 Hh Hc b c. rewrite Hh, Hc. apply Hl. }
  car_cases H.
  - (* arrival *)
    injection H as <-. intros b c. cbn [heap set_car_procs set_road set_heap].
    rewrite lookup_snoc_Some. intros [[Hlt Hb]|[-> <-]].
    + assert (b ∈ cars (roads
                 (set_car_procs (<[i:=set_pc (PcWhile (length (heap s))) t]> (car_procs s))
                    (set_road (arg_road_num t)
                       (set_cars (cars (roads s (arg_road_num t)) ++ [length (heap s)])
                          (roads s (arg_road_num t)))
                       (set_heap (heap s ++ [mkCar (arg_car_id t) (arg_road_num t)
                          (float_of_int 0) (float_of_int 0) (float_of_int 0) "waiting"]) s)))
                 (road_num c))
              <-> b ∈ cars (roads s (road_num c))) as ->; [|by apply Hl].
      destruct (road_num c), (arg_road_num t); cbn; try reflexivity;
        rewrite elem_of_app, list_elem_of_singleton; split; auto; intros [|]; auto; lia.
    + cbn [road_num state]. split; [discriminate|]. intros _.
      destruct (arg_road_num t); cbn; apply elem_of_app; right;
        by apply list_elem_of_singleton.
  - destruct (_ && _); injection H as <-; by apply Hsame.
  - destruct (li_loop s Hlife i t a Ht) as (c0 & Hc0 & Hst0);
      [by rewrite Hpc|by rewrite Hpc|].
    assert (c0 = car) as -> by congruence.
    destruct (_ || _); [|injection H as <-; by apply Hsame].
    destruct (can_cross _ _ _) as [[|]|]; injection H as <-; try (by apply Hsame).
    apply (Hkeep t a car (set_state "crossing" car)); kept_car Hst0.
  - destruct (li_loop s Hlife i t a Ht) as (c0 & Hc0 & Hst0);
      [by rewrite Hpc|by rewrite Hpc|].
    assert (c0 = car) as -> by congruence.
    destruct (PrimFloat.ltb _ _); injection H as <-;
      apply (Hkeep t a car (set_waiting_time (PrimFloat.add (waiting_time car) tenth) car));
      kept_car Hst0.
  - destruct (pi_crossing s Hpos i t a st Ht Hpc) as (c0 & Hc0 & Hst0).
    assert (c0 = car) as -> by congruence.
    destruct (PrimFloat.ltb _ _); injection H as <-.
    + apply (Hkeep t a car (set_position (PrimFloat.add (position car) tenth) car));
        kept_car Hst0.
    + (* the car leaves its road *)
      destruct (Hmine t a eq_refl) as (c1 & Hc1 & Hroad & Hin); [by rewrite Hpc|].
      assert (c1 = car) as -> by congruence.
      assert (forall b cb, b ∈ cars (roads s (arg_road_num t)) -> b <> a ->
                heap s !! b = Some cb -> Car_eqb cb car = false) as Hne.
      { intros b cb Hb Hba Hcb. destruct (Car_eqb cb car) eqn:E; [|reflexivity].
        exfalso. apply Hba. apply (Huniq b a cb car Hcb Ha). by apply Car_eqb_id. }
      assert (car_in (heap s) a car (cars (roads s (arg_road_num t))) = true) as Hcin.
      { unfold car_in. apply existsb_exists. exists a.
        split; [by apply list_elem_of_In|]. by rewrite Nat.eqb_refl. }
      rewrite Hcin.
      set (l' := list_remove (heap s) a car (cars (roads s (arg_road_num t)))).
      assert (a ∉ l') as Hout.
      { apply list_remove_self; [assumption| |apply Hnd].
        intros b Hb. destruct (proj1 (Forall_forall _ _) (Hcars _) b Hb) as (cb & Hcb & _).
        eauto. }
      assert (forall b, b <> a -> b ∈ cars (roads s (arg_road_num t)) <-> b ∈ l') as Hrest.
      { intros b Hba. split.
        - intros Hb. pose proof (list_remove_keeps (heap s) a car _ b Hne Hb Hba) as Hk.
          by rewrite Hcin in Hk.
        - intros Hb. eapply elem_of_sublist; [exact Hb|]. apply list_remove_sublist. }
      intros b c. cbn [heap set_car_procs set_road set_heap].
      rewrite list_lookup_insert_Some. intros [(-> & <- & _)|[Hba Hb]].
      * cbn [road_num state set_state]. rewrite Hroad. split; [|congruence].
        intros Hb. exfalso. apply Hout. revert Hb. by destruct (arg_road_num t).
      * rewrite <- (Hl b c Hb).
        assert (b <> a) as Hba' by congruence.
        pose proof (Hrest b Hba') as Hb'. clearbody l'.
        destruct (road_num c), (arg_road_num t); cbn; first [reflexivity | by symmetry].
Qed.

Lemma listed_exec (e : event) (s s' : TrafficSimulator) :
  wf s -> pos_inv s -> life_inv s -> run_inv s -> listed s ->
  is_click e = false -> exec e s = Some s' -> listed s'.
Proof.
  intros Hwf Hpos Hlife Hrun Hl Hc H.
  destruct e as [randint|i now|i now|i]; simpl in H; [discriminate Hc| | |].
  - eapply listed_car_process; eassumption.
  - destruct (light_process_frame _ _ _ _ H) as [(Hh & Hcars & _) _].
    intros a c. rewrite Hh, Hcars. apply Hl.
  - destruct (update_display_frame _ _ _ H) as ((Hh & Hcars & _) & _).
    intros a c. rewrite Hh, Hcars. apply Hl.
Qed.

Lemma first_run_inv (randint : nat -> RoadNum) (case count k : string) (now : float)
    (s : TrafficSimulator) :
  run_from (snd (toggle_simulation randint (init case count k now))) s ->
  wf s /\ pos_inv s /\ life_inv s /\ run_inv s /\ listed s.
Proof.
  intros Hrun.
  assert (reachable (init case count k now) s) as Hreach.
  { eapply run_from_reachable; [|exact Hrun].
    eapply reach_step; [apply reach_init|]. by exists (Click randint). }
  destruct (reachable_inv _ _ _ _ _ Hreach) as (Hwf & Hpos & Hlife).
  destruct (first_run_crossing _ _ _ _ _ _ Hrun) as [_ Hri].
  refine (conj Hwf (conj Hpos (conj Hlife (conj Hri _)))).
  clear Hreach Hwf Hpos Hlife Hri.
  induction Hrun as [|s s' e Hrun IH Hc He].
  - intros a c. rewrite (proj1 (toggle_simulation_roads randint _)). discriminate.
  - assert (reachable (init case count k now) s) as Hreach.
    { eapply run_from_reachable; [|exact Hrun].
      eapply reach_step; [apply reach_init|]. by exists (Click randint). }
    destruct (reachable_inv _ _ _ _ _ Hreach) as (Hwf & Hpos & Hlife).
    destruct (first_run_crossing _ _ _ _ _ _ Hrun) as [_ Hri].
    eapply listed_exec; eassumption.
Qed.


(** In the first run the cars are numbered 1, 2, ...: the car of thread
    [i] has [id] [i + 1], so every [id] lies between 1 and the number of
    car threads, and no two car objects share an [id]. *)
Theorem first_run_car_ids (randint : nat -> RoadNum) (case count k : string)
    (now : float) (s : TrafficSimulator) :
  run_from (snd (toggle_simulation randint (init case count k now))) s ->
  (forall a c, heap s !! a = Some c ->
               1 <= car_id c <= Z.of_nat (length (car_procs s)))
  /\ (forall a b ca cb, heap s !! a = Some ca -> heap s !! b = Some cb ->
                        car_id ca = car_id cb -> a = b)
  /\ (forall i t a c, car_procs s !! i = Some t -> pc_car (pc t) = Some a ->
                      heap s !! a = Some c -> car_id c = Z.of_nat i + 1).
Proof.
  intros Hrun.
  destruct (first_run_inv _ _ _ _ _ _ Hrun) as (_ & _ & Hlife & Hri & _).
  destruct Hri as [Hids Hborn Huniq _ _].
  split; [|split; [exact Huniq|]].
  - intros a c Hc. destruct (Hborn a c Hc) as (i & t & Ht & Hid & _).
    pose proof (Hids i t Ht). pose proof (lookup_lt_Some _ _ _ Ht). lia.
  - intros i t a c Ht Hpc Hc. rewrite (li_args s Hlife i t a c Ht Hpc Hc).
    by apply Hids.
Qed.

(** ** A car admitted after the stop *)

Lemma wake_locked (n : RoadNum) (t : CarProc) (a : nat) :
  pc t = PcLocked a -> wake n t = t.
Proof. unfold wake. intros ->. reflexivity. Qed.

Lemma can_cross_empty (s : TrafficSimulator) (road : Road) (car : Car) :
  cars road = [] ->
  case_type s = 1 \/ is_Some (py_int (k_entry s)) ->
  can_cross s road car = Ok true.
Proof.
  intros Hc Hk. unfold can_cross. rewrite Hc. cbn.
  destruct (Z.eqb_spec (case_type s) 1) as [|Hne]; [reflexivity|].
  destruct Hk as [|[kmax ->]]; [contradiction|reflexivity].
Qed.

(** A car can start to cross after the run was stopped.  A car thread
    that has passed the test of its [while] loop when the button is
    clicked is not held back: [stop_simulation] empties the roads and
    turns the lights red, the light thread that was asleep in the GREEN
    phase turns the road YELLOW, and the car is admitted on the emptied
    road.  It then crosses in a stopped simulator, outside every list. *)
Theorem car_admitted_after_stop (randint : nat -> RoadNum) (s : TrafficSimulator)
    (i : nat) (t : CarProc) (a : nat) (car : Car) (j : nat) (rest : list RoadNum)
    (now : float) :
  is_running s = true ->
  car_procs s !! i = Some t -> pc t = PcLocked a -> heap s !! a = Some car ->
  light_procs s !! j = Some (LGreenSleep (arg_road_num t) rest) ->
  case_type s = 1 \/ is_Some (py_int (k_entry s)) ->
  exists s',
    run [Click randint; LightStep j now; CarStep i now] s = Some s'
    /\ is_running s' = false
    /\ heap s' !! a = Some (set_state "crossing" car)
    /\ (pc <$> car_procs s' !! i) = Some (PcCrossing a now)
    /\ forall n, cars (roads s' n) = [].
Proof.
  intros Hr Ht Hpc Hcar Hj Hk.
  assert (a < length (heap s))%nat as Hlt by (eapply lookup_lt_Some, Hcar).
  assert (i < length (car_procs s))%nat as Hlti by (eapply lookup_lt_Some, Ht).
  cbn [run exec]. unfold toggle_simulation. rewrite Hr. cbn [negb snd].
  set (s1 := stop_simulation s). cbn [mbind option_bind].
  assert (traffic_light_process j now s1
          = Some (set_light_procs (<[j := LYellowSleep (arg_road_num t) rest]> (light_procs s1))
                    (switch_light (arg_road_num t) YELLOW s1))) as ->.
  { unfold traffic_light_process.
    change (light_procs s1) with (light_procs s). rewrite Hj. reflexivity. }
  cbn [mbind option_bind]. set (s2 := set_light_procs _ _).
  assert (car_procs s2 !! i = Some t) as Ht2.
  { subst s2 s1. cbn. rewrite !lookup_map, Ht. cbn.
    by rewrite !(wake_locked _ t a Hpc). }
  assert (heap s2 = heap s) as Hh2 by reflexivity.
  assert (forall n, cars (roads s2 n) = []) as Hc2
    by (intros n; subst s2 s1; by destruct n, (arg_road_num t)).
  assert (light_state (roads s2 (arg_road_num t)) = YELLOW) as Hl2
    by (subst s2 s1; by destruct (arg_road_num t)).
  assert (is_running s2 = false) as Hr2 by reflexivity.
  assert (can_cross s2 (roads s2 (arg_road_num t)) car = Ok true) as Hcc.
  { apply can_cross_empty; [apply Hc2|exact Hk]. }
  unfold car_process. rewrite Ht2. cbn [mbind option_bind]. rewrite Hpc, Hh2, Hcar.
  cbn [mbind option_bind]. rewrite Hl2, Hcc. cbn [LightState_eqb orb mbind option_bind].
  eexists. split; [reflexivity|]. cbn [is_running heap car_procs set_car_procs set_heap].
  split; [exact Hr2|]. split; [by apply list_lookup_insert_eq|].
  split.
  - rewrite list_lookup_insert_eq by (eapply lookup_lt_Some, Ht2).
    reflexivity.
  - intros n. apply (Hc2 n).
Qed.

(** ** Both roads at once *)

(** EXCLUSIVE mode, two cars on road 1 and one on road 2.  The first car
    of road 1 crosses under the green light; the second is refused, and
    admitted five seconds later when the light turns YELLOW and wakes
    it.  A second later road 1 is RED and road 2 GREEN: the car of road
    2 is admitted while the second car of road 1 is half-way. *)
Definition crossroad_schedule : list event :=
  let at_ (T : Z) := float_of_int T in
  let settle i T := [CarStep i (at_ T); CarStep i (at_ T); CarStep i (at_ T)] in
  [Click (fun i => if (i <? 2)%nat then Road1 else Road2)]
  ++ settle 0%nat 0 ++ settle 1%nat 0 ++ settle 2%nat 0
  ++ [LightStep 0 (at_ 0); LightStep 0 (at_ 0)]
  ++ settle 0%nat 0 ++ settle 1%nat 0
  ++ map (fun j => CarStep 0 (clock 0 j)) (seq 0 21)
  ++ [LightStep 0 (at_ 5)]
  ++ settle 1%nat 5
  ++ map (fun j => CarStep 1 (clock 5 j)) (seq 0 10)
  ++ [LightStep 0 (at_ 6); LightStep 0 (at_ 6)]
  ++ settle 2%nat 6
  ++ [CarStep 2 (clock 6 0); CarStep 1 (clock 6 1)].

(** A red light does not clear the crossing.  In EXCLUSIVE mode, in a
    first run with the lights of the source's timing (GREEN for five
    seconds, YELLOW for one, a crossing of two seconds), a car admitted
    when its light turns YELLOW is still crossing a second later, when
    its road is RED and the other road GREEN: the first car of the other
    road is admitted, and cars of both roads cross together. *)
Theorem cars_of_both_roads_cross_together :
  exists s c1 c2,
    run crossroad_schedule (init "1" "3" "3" (float_of_int 0)) = Some s
    /\ length (List.filter is_click crossroad_schedule) = 1%nat
    /\ case_type s = 1
    /\ light_state (roads s Road1) = RED /\ light_state (roads s Road2) = GREEN
    /\ cars (roads s Road1) = [1%nat] /\ cars (roads s Road2) = [2%nat]
    /\ heap s !! 1%nat = Some c1 /\ state c1 = "crossing" /\ road_num c1 = Road1
    /\ heap s !! 2%nat = Some c2 /\ state c2 = "crossing" /\ road_num c2 = Road2
    /\ map pc (car_procs s)
       = [PcFinished; PcCrossing 1 (float_of_int 5); PcCrossing 2 (float_of_int 6)].
Proof.
  eexists. eexists. eexists.
  split; [vm_compute; reflexivity|].
  repeat split; vm_compute; reflexivity.
Qed.

(** * The window: message queue, log, labels and canvas

    The threads never touch a widget: they post messages on
    [message_queue]; the main loop drains the queue every 50 ms
    ([process_messages]) and redraws ([update_gui_display]).  The
    widgets are kept as what the code sets on them: the text and colour
    of a label, the items of the canvas with their coordinates, the text
    of the log box.  Fonts apart from the one of the car number, sizes
    and layout of the frames are left out. *)

Definition CANVAS_HEIGHT : Z := 500.
Definition ROAD_WIDTH : Z := 50.
Definition CAR_SIZE : Z := 25.

Definition COLORS : list (string * string) :=
  [("bg", "#2b2b2b"); ("fg", "#ffffff"); ("accent", "#007AFF"); ("road", "#404040");
   ("car1", "#FF6B6B"); ("car2", "#4ECDC4"); ("light_red", "#FF4444");
   ("light_yellow", "#FFD700"); ("light_green", "#00C851"); ("light_off", "#666666")].

(** [COLORS[key]], for the keys the code uses. *)
Definition color (key : string) : string :=
  match List.find (fun p => String.eqb (fst p) key) COLORS with
  | Some p => snd p
  | None => ""
  end.

(** ** Python numbers and [str] *)

(** A coordinate is an [int] or a [float]; arithmetic on two [int]s
    stays in [int], any other mix is done in [float]. *)
Inductive num := Int (z : Z) | Float (f : float).

Definition as_float (x : num) : float :=
  match x with Int z => float_of_int z | Float f => f end.

Definition num_add (x y : num) : num :=
  match x, y with
  | Int a, Int b => Int (a + b)
  | _, _ => Float (PrimFloat.add (as_float x) (as_float y))
  end.

Definition num_sub (x y : num) : num :=
  match x, y with
  | Int a, Int b => Int (a - b)
  | _, _ => Float (PrimFloat.sub (as_float x) (as_float y))
  end.

Definition num_mul (x y : num) : num :=
  match x, y with
  | Int a, Int b => Int (a * b)
  | _, _ => Float (PrimFloat.mul (as_float x) (as_float y))
  end.

(** [str(n)] for an [int]. *)
Definition py_str (z : Z) : string := NilZero.string_of_int (Z.to_int z).

Definition newline : string := String (ascii_of_nat 10) EmptyString.

(** ** Messages *)

(** What a call of [self.log] reports.  A log message is kept as the
    data its text is formatted from; [content] is the text. *)
Inductive LogEntry :=
| CarArrived (car_id : Z) (road_num : RoadNum)
| CarStarted (car_id : Z) (road_num : RoadNum)
| CarWaitedTooLong (car_id : Z) (road_num : RoadNum)
| CarFinished (car_id : Z) (road_num : RoadNum)
| LightTurned (road_num : RoadNum) (l : LightState)
| Starting
| Stopped.

(** [LightState.X.value] *)
Definition light_value (l : LightState) : string :=
  match l with RED => "RED" | GREEN => "GREEN" | YELLOW => "YELLOW" end.

Definition content (e : LogEntry) : string :=
  let road n := py_str (road_key n) in
  match e with
  | CarArrived id n => "Car " ++ py_str id ++ " arrived on Road " ++ road n
  | CarStarted id n => "Car " ++ py_str id ++ " started crossing on Road " ++ road n
  | CarWaitedTooLong id n =>
      "Car " ++ py_str id ++ " has been waiting too long on Road " ++ road n
  | CarFinished id n => "Car " ++ py_str id ++ " finished crossing on Road " ++ road n
  | LightTurned n l => "Road " ++ road n ++ " light turned " ++ light_value l
  | Starting => "Starting new simulation..."
  | Stopped => "Simulation stopped"
  end.

(** [{"type": "log", "content": ...}] and [{"type": "update_display"}]. *)
Inductive Message :=
| MsgLog (entry : LogEntry)
| MsgUpdateDisplay.

(** ** The canvas *)

Inductive Shape := Rectangle | Oval | Text.

Record Item := mkItem {
  item_id : nat;
  shape : Shape;
  coords : list num;
  fill : string;
  outline : option string;
  width : option Z;
  text : option string;
  font : option (string * Z * string);
  tags : option string
}.

(** The items in creation order, and the identifier the next item gets. *)
Record Canvas := mkCanvas {
  items : list Item;
  next_id : nat
}.

Definition create (sh : Shape) (co : list num) (fi : string) (ou : option string)
    (wi : option Z)
    (te : option string) (fo : option (string * Z * string)) (ta : option string)
    (c : Canvas) : nat * Canvas :=
  (next_id c,
   mkCanvas (items c ++ [mkItem (next_id c) sh co fi ou wi te fo ta]) (S (next_id c))).

Definition has_tag (tag : string) (it : Item) : bool :=
  match tags it with Some t => String.eqb t tag | None => false end.

(** [canvas.delete(tag)]; ["all"] stands for every item. *)
Definition canvas_delete (tag : string) (c : Canvas) : Canvas :=
  if String.eqb tag "all" then mkCanvas [] (next_id c)
  else mkCanvas (List.filter (fun it => negb (has_tag tag it)) (items c)) (next_id c).

(** [canvas.itemconfig(id, fill=colour)] *)
Definition itemconfig (id : nat) (fi : string) (c : Canvas) : Canvas :=
  mkCanvas (map (fun it => if Nat.eqb (item_id it) id
                           then mkItem (item_id it) (shape it) (coords it) fi (outline it)
                                       (width it) (text it) (font it) (tags it)
                           else it) (items c))
           (next_id c).

(** [draw_traffic_light(road_num, x, y)]: the housing and the two lamps;
    the identifiers of the lamps are kept. *)
Definition draw_traffic_light (x y : Z) (c : Canvas) : nat * nat * Canvas :=
  let '(_, c) := create Rectangle [Int x; Int y; Int (x + 30); Int (y + 80)]
                   "#1a1a1a" (Some "#333333") (Some 2) None None None c in
  let '(red, c) := create Oval [Int (x + 5); Int (y + 5); Int (x + 25); Int (y + 25)]
                     (color "light_red") (Some "") None None None None c in
  let '(green, c) := create Oval [Int (x + 5); Int (y + 55); Int (x + 25); Int (y + 75)]
                       (color "light_off") (Some "") None None None None c in
  (red, green, c).

(** [draw_roads()]: the two roads and the two traffic lights. *)
Definition draw_roads (c : Canvas) : (nat * nat) * (nat * nat) * Canvas :=
  let c := canvas_delete "all" c in
  let '(_, c) := create Rectangle
                   [Int 0; Int (CANVAS_HEIGHT / 2 - ROAD_WIDTH / 2);
                    Int CANVAS_WIDTH; Int (CANVAS_HEIGHT / 2 + ROAD_WIDTH / 2)]
                   (color "road") (Some "") None None None None c in
  let '(_, c) := create Rectangle
                   [Int (CANVAS_WIDTH / 2 - ROAD_WIDTH / 2); Int 0;
                    Int (CANVAS_WIDTH / 2 + ROAD_WIDTH / 2); Int CANVAS_HEIGHT]
                   (color "road") (Some "") None None None None c in
  let '(red1, green1, c) :=
    draw_traffic_light (CANVAS_WIDTH / 2 - ROAD_WIDTH - 40) (CANVAS_HEIGHT / 2 - 40) c in
  let '(red2, green2, c) :=
    draw_traffic_light (CANVAS_WIDTH / 2 - 40) (CANVAS_HEIGHT / 2 - ROAD_WIDTH - 40) c in
  ((red1, green1), (red2, green2), c).

(** [draw_car(car_id, road_num, x, y)]: body, window, disc and number,
    all tagged ["car"]. *)
Definition draw_car (car_id : Z) (road_num : RoadNum) (x y : num) (c : Canvas) : Canvas :=
  let col := match road_num with Road1 => color "car1" | Road2 => color "car2" end in
  let half := Int (CAR_SIZE / 2) in
  let '(_, c) := create Rectangle
                   [num_sub x half; num_sub y half; num_add x half; num_add y half]
                   col (Some "#1a1a1a") (Some 2) None None (Some "car") c in
  let window_size := CAR_SIZE / 3 in
  let w := Int (window_size / 2) in
  let '(_, c) := create Rectangle
                   [num_sub x w; num_sub y w; num_add x w; num_add y w]
                   "#ffffff" (Some "#1a1a1a") (Some 1) None None (Some "car") c in
  let '(_, c) := create Oval
                   [num_sub x (Int 10); num_sub y (Int 10);
                    num_add x (Int 10); num_add y (Int 10)]
                   "#1a1a1a" (Some "") None None None (Some "car") c in
  let '(_, c) := create Text [x; y] "#ffffff" None None (Some (py_str car_id))
                   (Some ("Helvetica", 12, "bold")) (Some "car") c in
  c.

(** ** The widgets *)

(** A label: its text, and its text colour when the code sets one. *)
Record Label := mkLabel {
  label_text : string;
  label_text_color : option string
}.

(** The attributes [light_label_n], [waiting_cars_n], [crossing_cars_n],
    [red_light_n] and [green_light_n] of road [n]. *)
Record RoadWidgets := mkRoadWidgets {
  light_label_n : Label;
  waiting_cars_n : Label;
  crossing_cars_n : Label;
  red_light_n : nat;
  green_light_n : nat
}.

Record Gui := mkGui {
  message_queue : list Message;
  log_text : string;
  start_button : string;
  canvas : Canvas;
  widgets_1 : RoadWidgets;
  widgets_2 : RoadWidgets
}.

Definition widgets (g : Gui) (n : RoadNum) : RoadWidgets :=
  match n with Road1 => widgets_1 g | Road2 => widgets_2 g end.

Definition set_message_queue (q : list Message) (g : Gui) : Gui :=
  mkGui q (log_text g) (start_button g) (canvas g) (widgets_1 g) (widgets_2 g).

Definition set_log_text (t : string) (g : Gui) : Gui :=
  mkGui (message_queue g) t (start_button g) (canvas g) (widgets_1 g) (widgets_2 g).

Definition set_start_button (t : string) (g : Gui) : Gui :=
  mkGui (message_queue g) (log_text g) t (canvas g) (widgets_1 g) (widgets_2 g).

Definition set_canvas (c : Canvas) (g : Gui) : Gui :=
  mkGui (message_queue g) (log_text g) (start_button g) c (widgets_1 g) (widgets_2 g).

Definition set_widgets (n : RoadNum) (w : RoadWidgets) (g : Gui) : Gui :=
  mkGui (message_queue g) (log_text g) (start_button g) (canvas g)
        (match n with Road1 => w | Road2 => widgets_1 g end)
        (match n with Road1 => widgets_2 g | Road2 => w end).

(** [self.log(message)] and the [put] of [update_display]. *)
Definition put (m : Message) (g : Gui) : Gui :=
  set_message_queue (message_queue g ++ [m]) g.

Definition log (e : LogEntry) (g : Gui) : Gui := put (MsgLog e) g.

(** [setup_gui()] on the simulator [__init__] has built: the labels of
    [setup_road_display], the drawing of [draw_roads], an empty log. *)
Definition setup_gui (s : TrafficSimulator) : Gui :=
  let '(l1, l2, c) := draw_roads (mkCanvas [] 1) in
  let w n lamps :=
    mkRoadWidgets (mkLabel (light_value (light_state (roads s n))) None)
                  (mkLabel "0" (Some (color "accent")))
                  (mkLabel "0" (Some (color "accent")))
                  (fst lamps) (snd lamps) in
  mkGui [] "" "Start Simulation" c (w Road1 l1) (w Road2 l2).

(** ** [update_gui_display] *)

(** [LightState.X.name.lower()] *)
Definition light_name_lower (l : LightState) : string :=
  match l with RED => "red" | GREEN => "green" | YELLOW => "yellow" end.

(** [len([c for c in road.cars if c.state == st])] *)
Definition count_state (st : string) (l : list Car) : Z :=
  Z.of_nat (length (List.filter (fun c => String.eqb (state c) st) l)).

(** The fills of the red and of the green lamp. *)
Definition lamp_fills (l : LightState) : string * string :=
  match l with
  | RED => ("red", "gray")
  | YELLOW => ("yellow", "gray")
  | GREEN => ("gray", "green")
  end.

(** Where a car is drawn: along its road, by its position. *)
Definition car_xy (n : RoadNum) (car : Car) : num * num :=
  match n with
  | Road1 =>
      (num_add (num_mul (Float (position car)) (Int (CANVAS_WIDTH - ROAD_WIDTH)))
               (Int (ROAD_WIDTH / 2)),
       Int (CANVAS_HEIGHT / 2))
  | Road2 =>
      (Int (CANVAS_WIDTH / 2),
       num_add (num_mul (Float (position car)) (Int (CANVAS_HEIGHT - ROAD_WIDTH)))
               (Int (ROAD_WIDTH / 2)))
  end.

(** [for car in road.cars: if car.state != "exited": ... draw_car(...)] *)
Definition draw_cars (n : RoadNum) (l : list Car) (c : Canvas) : Canvas :=
  fold_left (fun c car =>
               if negb (String.eqb (state car) "exited")
               then draw_car (car_id car) n (fst (car_xy n car)) (snd (car_xy n car)) c
               else c) l c.

(** The body of the loop over the two roads. *)
Definition update_road_display (s : TrafficSimulator) (n : RoadNum) (g : Gui) : Gui :=
  let road := roads s n in
  let road_cars := deref (heap s) (cars road) in
  let w := widgets g n in
  let w' :=
    mkRoadWidgets
      (mkLabel (light_value (light_state road)) (Some (light_name_lower (light_state road))))
      (mkLabel (py_str (count_state "waiting" road_cars)) (label_text_color (waiting_cars_n w)))
      (mkLabel (py_str (count_state "crossing" road_cars))
               (label_text_color (crossing_cars_n w)))
      (red_light_n w) (green_light_n w) in
  let c := itemconfig (red_light_n w) (fst (lamp_fills (light_state road))) (canvas g) in
  let c := itemconfig (green_light_n w) (snd (lamp_fills (light_state road))) c in
  let c := draw_cars n road_cars c in
  set_widgets n w' (set_canvas c g).

Definition update_gui_display (s : TrafficSimulator) (g : Gui) : Gui :=
  let g := set_canvas (canvas_delete "car" (canvas g)) g in
  update_road_display s Road2 (update_road_display s Road1 g).

(** ** [process_messages] *)

(** One message: a log line goes to the end of the log box, a redraw
    request redraws. *)
Definition handle (s : TrafficSimulator) (g : Gui) (m : Message) : Gui :=
  match m with
  | MsgLog e => set_log_text (log_text g ++ content e ++ newline) g
  | MsgUpdateDisplay => update_gui_display s g
  end.

(** [get_nowait()] until the queue is empty. *)
Definition process_messages (s : TrafficSimulator) (g : Gui) : Gui :=
  fold_left (handle s) (message_queue g) (set_message_queue [] g).

(** ** What the threads and the button post *)

(** The [self.log] calls of one step of [car_process], by the branch
    the step takes. *)
Definition car_process_log (i : nat) (now : float) (s : TrafficSimulator)
  : list LogEntry :=
  match car_procs s !! i with
  | None => []
  | Some t =>
      let n := arg_road_num t in
      let road := roads s n in
      match pc t with
      | PcArrive => [CarArrived (arg_car_id t) n]
      | PcLocked a =>
          match heap s !! a with
          | None => []
          | Some car =>
              if LightState_eqb (light_state road) GREEN
                 || LightState_eqb (light_state road) YELLOW
              then match can_cross s road car with
                   | Ok true => [CarStarted (arg_car_id t) n]
                   | _ => []
                   end
              else []
          end
      | PcNotified a =>
          match heap s !! a with
          | None => []
          | Some car =>
              if PrimFloat.ltb (float_of_int MAX_WAITING_TIME)
                               (PrimFloat.add (waiting_time car) tenth)
              then [CarWaitedTooLong (arg_car_id t) n]
              else []
          end
      | PcCrossing a start_time =>
          if PrimFloat.ltb (PrimFloat.sub now start_time) (float_of_int CAR_CROSSING_TIME)
          then []
          else [CarFinished (arg_car_id t) n]
      | PcWhile _ | PcWaiting _ | PcFinished => []
      end
  end.

(** The [self.log] calls of one step of [traffic_light_process]. *)
Definition traffic_light_process_log (i : nat) (s : TrafficSimulator) : list LogEntry :=
  match light_procs s !! i with
  | Some (LFor (n :: _)) => if is_running s then [LightTurned n GREEN] else []
  | Some (LGreenSleep n _) => [LightTurned n YELLOW]
  | Some (LYellowSleep n _) => [LightTurned n RED]
  | _ => []
  end.

(** What a step of a thread puts on the queue. *)
Definition posted (e : event) (s : TrafficSimulator) : list Message :=
  match e with
  | Click _ => []
  | CarStep i now => map MsgLog (car_process_log i now s)
  | LightStep i _ => map MsgLog (traffic_light_process_log i s)
  | DisplayStep i =>
      match display_procs s !! i with
      | Some DWhile => if is_running s then [MsgUpdateDisplay] else []
      | _ => []
      end
  end.

(** What [start_simulation] does to the window; all of it comes after
    the two calls of [int], so nothing is done when one of them raises. *)
Definition start_simulation_gui (s : TrafficSimulator) (g : Gui) : Gui :=
  match py_int (case_var s), py_int (cars_entry s) with
  | Some _, Some _ =>
      let g := set_canvas (canvas_delete "car" (canvas g)) g in
      let g := set_log_text "" g in
      let g := log Starting g in
      set_start_button "Stop Simulation" g
  | _, _ => g
  end.

Definition stop_simulation_gui (g : Gui) : Gui :=
  let g := set_start_button "Start Simulation" g in
  let g := set_canvas (canvas_delete "car" (canvas g)) g in
  log Stopped g.

Definition toggle_simulation_gui (s : TrafficSimulator) (g : Gui) : Gui :=
  if negb (is_running s) then start_simulation_gui s g else stop_simulation_gui g.

(** ** The program with its window *)

(** A step of the simulator, or a run of [process_messages] by the main
    loop. *)
Inductive app_event :=
| Sim (e : event)
| ProcessMessages.

Definition app_exec (ae : app_event) (st : TrafficSimulator * Gui)
  : option (TrafficSimulator * Gui) :=
  let (s, g) := st in
  match ae with
  | Sim (Click randint) =>
      Some (snd (toggle_simulation randint s), toggle_simulation_gui s g)
  | Sim e =>
      s' ← exec e s;
      Some (s', fold_left (fun g m => put m g) (posted e s) g)
  | ProcessMessages => Some (s, process_messages s g)
  end.

Fixpoint app_run (es : list app_event) (st : TrafficSimulator * Gui)
  : option (TrafficSimulator * Gui) :=
  match es with
  | [] => Some st
  | e :: es' => st' ← app_exec e st; app_run es' st'
  end.

(** [TrafficSimulator()]. *)
Definition app_init (case count k : string) (now : float) : TrafficSimulator * Gui :=
  (init case count k now, setup_gui (init case count k now)).

(** * Properties of the window *)

(** ** The log box *)

(** The log entries among the messages of a queue, in order. *)
Definition logs (q : list Message) : list LogEntry :=
  omap (fun m => match m with MsgLog e => Some e | MsgUpdateDisplay => None end) q.

(** The lines the log box shows for a list of entries. *)
Fixpoint rendered (es : list LogEntry) : string :=
  match es with
  | [] => ""
  | e :: es' => content e ++ newline ++ rendered es'
  end.

Lemma string_app_assoc (a b c : string) : ((a ++ b) ++ c = a ++ (b ++ c))%string.
Proof. induction a as [|x a IH]; simpl; [reflexivity|by rewrite IH]. Qed.

Lemma string_app_nil_r (a : string) : (a ++ "")%string = a.
Proof. induction a as [|x a IH]; simpl; [reflexivity|by rewrite IH]. Qed.

Lemma fold_handle (s : TrafficSimulator) (q : list Message) (g : Gui) :
  message_queue (fold_left (handle s) q g) = message_queue g
  /\ log_text (fold_left (handle s) q g) = (log_text g ++ rendered (logs q))%string
  /\ start_button (fold_left (handle s) q g) = start_button g.
Proof.
  revert g. induction q as [|m q IH]; intros g; simpl.
  - by rewrite string_app_nil_r.
  - destruct (IH (handle s g m)) as (Hq & Hl & Hb). rewrite Hq, Hl, Hb.
    destruct m as [e|]; simpl.
    + repeat split. by rewrite !string_app_assoc.
    + repeat split.
Qed.

(** [process_messages] shows every pending log message once, in the
    order of the calls of [log], after what the log box already holds,
    and leaves the queue empty; the redraw requests in between change
    neither the log nor the queue. *)
Theorem process_messages_shows_log (s : TrafficSimulator) (g : Gui) :
  message_queue (process_messages s g) = []
  /\ log_text (process_messages s g)
     = (log_text g ++ rendered (logs (message_queue g)))%string.
Proof.
  unfold process_messages.
  destruct (fold_handle s (message_queue g) (set_message_queue [] g)) as (Hq & Hl & _).
  by rewrite Hq, Hl.
Qed.

(** [start_simulation] empties the log box, not the queue.  The messages
    posted before the click and not yet shown (the "Simulation stopped"
    of the stop before, the last lines of the threads of the stopped
    run) come out at the head of the log of the new run, before
    "Starting new simulation...". *)
Theorem start_keeps_pending_messages (randint : nat -> RoadNum)
    (s : TrafficSimulator) (g : Gui) :
  is_running s = false ->
  is_Some (py_int (case_var s)) -> is_Some (py_int (cars_entry s)) ->
  exists s' g',
    app_run [Sim (Click randint); ProcessMessages] (s, g) = Some (s', g')
    /\ log_text g'
       = (rendered (logs (message_queue g)) ++ content Starting ++ newline)%string.
Proof.
  intros Hr [c Hc] [m Hm]. cbn [app_run app_exec mbind option_bind].
  eexists. eexists. split; [reflexivity|].
  unfold process_messages.
  match goal with |- context [fold_left (handle ?s1) ?q ?g1] =>
    rewrite (proj1 (proj2 (fold_handle s1 q g1))) end.
  unfold toggle_simulation_gui, start_simulation_gui. rewrite Hr, Hc, Hm. cbn.
  unfold logs. rewrite omap_app. cbn.
  generalize (omap (fun m0 => match m0 with MsgLog e => Some e | MsgUpdateDisplay => None end)
                (message_queue g)).
  intros l. induction l as [|e l IH]; [reflexivity|].
  cbn [app rendered]. by rewrite IH, !string_app_assoc.
Qed.

(** ** The button *)

(** What holds of the window along every schedule. *)
Record app_inv (case count : string) (st : TrafficSimulator * Gui) : Prop := mk_app_inv {
  ai_case : case_var (fst st) = case;
  ai_count : cars_entry (fst st) = count;
  ai_button : start_button (snd st)
              = if is_running (fst st)
                   && bool_decide (is_Some (py_int case))
                   && bool_decide (is_Some (py_int count))
                then "Stop Simulation" else "Start Simulation"
}.

Lemma exec_inputs (e : event) (s s' : TrafficSimulator) :
  exec e s = Some s' -> case_var s' = case_var s /\ cars_entry s' = cars_entry s.
Proof.
  intros H. destruct e as [randint|i now|i now|i]; simpl in H.
  - injection H as <-. unfold toggle_simulation.
    destruct (negb (is_running s)); cbn [snd]; [|by split].
    unfold start_simulation. cbn zeta.
    change (case_var (set_is_running true s)) with (case_var s).
    destruct (py_int (case_var s)) as [c|]; [|by split].
    change (cars_entry (set_case_type c (set_is_running true s))) with (cars_entry s).
    destruct (py_int (cars_entry s)) as [num_cars|]; [|by split].
    cbn [snd].
    match goal with |- context [spawn_cars randint 0 ?c ?s0] =>
      pose proof (spawn_cars_frame randint c 0%nat s0) as H end.
    cbn zeta in H. destruct H as (_&_&_&_&_&_&_&_&_&Hv&Hc&_). by rewrite Hv, Hc.
  - destruct (car_process_effect _ _ _ _ H) as (t & p & _ & _ & Hf & _).
    destruct Hf as (_ & _ & Hv & Hc & _). by split.
  - destruct (light_process_frame _ _ _ _ H) as [(_ & _ & _ & _ & Hv & Hc & _) _]. by split.
  - destruct (update_display_frame _ _ _ H) as ((_ & _ & _ & _ & Hv & Hc & _) & _). by split.
Qed.

Lemma fold_put_start_button (l : list Message) (g : Gui) :
  start_button (fold_left (fun g m => put m g) l g) = start_button g.
Proof. revert g. induction l as [|m l IH]; intros g; simpl; [reflexivity|by rewrite IH]. Qed.

Lemma app_inv_exec (case count : string) (ae : app_event) (st st' : TrafficSimulator * Gui) :
  app_inv case count st -> app_exec ae st = Some st' -> app_inv case count st'.
Proof.
  destruct st as [s g]. intros [Hv Hc Hb] H. cbn [fst snd] in *.
  destruct ae as [[randint|i now|i now|i]|]; cbn [app_exec] in H.
  - injection H as <-.
    destruct (exec_inputs (Click randint) s _ eq_refl) as [Hv' Hc'].
    split; cbn [fst snd]; [congruence|congruence|].
    rewrite toggle_simulation_is_running.
    unfold toggle_simulation_gui, start_simulation_gui. rewrite Hv, Hc.
    destruct (is_running s); cbn [negb andb]; [reflexivity|].
    destruct (py_int case) as [c|]; [|by rewrite Hb].
    destruct (py_int count) as [m|]; [|by rewrite Hb].
    rewrite !bool_decide_eq_true_2 by eauto. reflexivity.
  - destruct (exec (CarStep i now) s) as [s'|] eqn:He; [|discriminate H].
    injection H as <-. destruct (exec_inputs _ _ _ He) as [Hv' Hc'].
    split; cbn [fst snd]; [congruence|congruence|].
    rewrite fold_put_start_button, Hb, (exec_is_running _ _ _ He). reflexivity.
  - destruct (exec (LightStep i now) s) as [s'|] eqn:He; [|discriminate H].
    injection H as <-. destruct (exec_inputs _ _ _ He) as [Hv' Hc'].
    split; cbn [fst snd]; [congruence|congruence|].
    rewrite fold_put_start_button, Hb, (exec_is_running _ _ _ He). reflexivity.
  - destruct (exec (DisplayStep i) s) as [s'|] eqn:He; [|discriminate H].
    injection H as <-. destruct (exec_inputs _ _ _ He) as [Hv' Hc'].
    split; cbn [fst snd]; [congruence|congruence|].
    rewrite fold_put_start_button, Hb, (exec_is_running _ _ _ He). reflexivity.
  - injection H as <-. split; cbn [fst snd]; try assumption.
    unfold process_messages.
    by rewrite (proj2 (proj2 (fold_handle s (message_queue g) (set_message_queue [] g)))).
Qed.

(** The button tells the truth only for inputs that parse.  Along every
    schedule the button reads "Stop Simulation" exactly when a run is
    active and the mode and the car count are integers.  With an input
    that is not an integer it reads "Start Simulation" for ever, while
    every first click sets the running flag and every second click
    "stops" a run that was never launched. *)
Theorem start_button_text (case count k : string) (now : float)
    (es : list app_event) (s : TrafficSimulator) (g : Gui) :
  app_run es (app_init case count k now) = Some (s, g) ->
  start_button g
  = if is_running s && bool_decide (is_Some (py_int case))
       && bool_decide (is_Some (py_int count))
    then "Stop Simulation" else "Start Simulation".
Proof.
  intros H.
  assert (app_inv case count (s, g)) as [_ _ Hb]; [|exact Hb].
  assert (app_inv case count (app_init case count k now)) as H0 by (by split).
  revert H0 H. generalize (app_init case count k now).
  induction es as [|ae es IH]; intros st H0 H; simpl in H.
  - by injection H as <-.
  - destruct (app_exec ae st) as [st'|] eqn:He; [|discriminate H].
    apply (IH st'); [|exact H]. eapply app_inv_exec; eassumption.
Qed.

(** ** Where the cars are drawn *)

(** The end of a road where its cars come in. *)
Definition entry_point (n : RoadNum) : num * num :=
  match n with
  | Road1 => (Float (float_of_int 25), Int 250)
  | Road2 => (Int 250, Float (float_of_int 25))
  end.

Lemma elem_of_deref (h : list Car) (l : list nat) (c : Car) :
  c ∈ deref h l <-> exists a, a ∈ l /\ h !! a = Some c.
Proof. unfold deref. apply list_elem_of_omap. Qed.

(** The queue of a road is not on the screen.  In every state the
    program reaches, every waiting car of a road's list is drawn at the
    same point, the entry of its road, (25, 250) for road 1 and
    (250, 25) for road 2: the waiting cars are drawn on top of each
    other. *)
Theorem waiting_cars_drawn_at_entry (case count k : string) (now : float)
    (s : TrafficSimulator) (n : RoadNum) (c : Car) :
  reachable (init case count k now) s ->
  c ∈ deref (heap s) (cars (roads s n)) -> state c = "waiting" ->
  car_xy n c = entry_point n.
Proof.
  intros Hreach Hc Hst. apply elem_of_deref in Hc as (a & _ & Ha).
  destruct (reachable_inv _ _ _ _ _ Hreach) as (_ & Hpos & _).
  pose proof (pi_waiting s Hpos a c Ha Hst) as Hp.
  unfold car_xy. rewrite Hp. destruct n; vm_compute; reflexivity.
Qed.

(** ** Redrawing *)

Definition car_items (c : Canvas) : list Item :=
  List.filter (has_tag "car") (items c).

Definition other_items (c : Canvas) : list Item :=
  List.filter (fun it => negb (has_tag "car" it)) (items c).

(** The cars of a list that are drawn: those that have not exited. *)
Definition drawn (l : list Car) : list Car :=
  List.filter (fun c => negb (String.eqb (state c) "exited")) l.

Lemma filter_filter_neg {A : Type} (f : A -> bool) (l : list A) :
  List.filter f (List.filter (fun x => negb (f x)) l) = [].
Proof.
  induction l as [|x l IH]; simpl; [reflexivity|].
  destruct (f x) eqn:E; simpl; [assumption|]. by rewrite E.
Qed.

Lemma filter_filter_same {A : Type} (f : A -> bool) (l : list A) :
  List.filter f (List.filter f l) = List.filter f l.
Proof.
  induction l as [|x l IH]; simpl; [reflexivity|].
  destruct (f x) eqn:E; simpl; [|assumption]. by rewrite E, IH.
Qed.

Lemma itemconfig_lengths (id : nat) (fi : string) (c : Canvas) :
  length (car_items (itemconfig id fi c)) = length (car_items c)
  /\ length (other_items (itemconfig id fi c)) = length (other_items c).
Proof.
  unfold car_items, other_items, itemconfig. cbn [items].
  induction (items c) as [|it l [IH1 IH2]]; [by split|].
  cbn [map List.filter].
  assert (has_tag "car" (if Nat.eqb (item_id it) id
                         then mkItem (item_id it) (shape it) (coords it) fi (outline it)
                                     (width it) (text it) (font it) (tags it)
                         else it) = has_tag "car" it) as ->
    by (by destruct (Nat.eqb _ _)).
  destruct (has_tag "car" it); cbn [negb length]; split; congruence.
Qed.

Lemma draw_car_lengths (id : Z) (n : RoadNum) (x y : num) (c : Canvas) :
  length (car_items (draw_car id n x y c)) = (4 + length (car_items c))%nat
  /\ length (other_items (draw_car id n x y c)) = length (other_items c).
Proof.
  unfold car_items, other_items, draw_car, create. cbn [items].
  rewrite <- !app_assoc, !List.filter_app, !length_app. cbn. split; lia.
Qed.

Lemma draw_cars_lengths (n : RoadNum) (l : list Car) (c : Canvas) :
  length (car_items (draw_cars n l c)) = (4 * length (drawn l) + length (car_items c))%nat
  /\ length (other_items (draw_cars n l c)) = length (other_items c).
Proof.
  unfold draw_cars, drawn. revert c. induction l as [|car l IH]; intros c; [by split|].
  cbn [fold_left List.filter].
  destruct (negb (String.eqb (state car) "exited")).
  - destruct (IH (draw_car (car_id car) n (fst (car_xy n car)) (snd (car_xy n car)) c))
      as [-> ->].
    destruct (draw_car_lengths (car_id car) n (fst (car_xy n car)) (snd (car_xy n car)) c)
      as [-> ->].
    cbn [length]. split; lia.
  - apply IH.
Qed.

Lemma update_road_display_lengths (s : TrafficSimulator) (n : RoadNum) (g : Gui) :
  length (car_items (canvas (update_road_display s n g)))
  = (4 * length (drawn (deref (heap s) (cars (roads s n))))
     + length (car_items (canvas g)))%nat
  /\ length (other_items (canvas (update_road_display s n g)))
     = length (other_items (canvas g)).
Proof.
  unfold update_road_display. cbn zeta.
  assert (forall w c g0, canvas (set_widgets n w (set_canvas c g0)) = c) as ->
    by (intros; by destruct n).
  match goal with |- context [draw_cars n ?l ?c] =>
    destruct (draw_cars_lengths n l c) as [-> ->] end.
  rewrite !(proj1 (itemconfig_lengths _ _ _)), !(proj2 (itemconfig_lengths _ _ _)).
  by split.
Qed.

(** A redraw replaces the cars and keeps the rest.  Whatever the canvas
    holds, after [update_gui_display] it holds four items tagged "car"
    for every car of the two lists that has not exited, and as many
    other items (roads, housings, lamps) as before: redrawing again and
    again does not pile up items. *)
Theorem redraw_replaces_cars (s : TrafficSimulator) (g : Gui) :
  length (car_items (canvas (update_gui_display s g)))
  = (4 * (length (drawn (deref (heap s) (cars (roads s Road1))))
          + length (drawn (deref (heap s) (cars (roads s Road2))))))%nat
  /\ length (other_items (canvas (update_gui_display s g)))
     = length (other_items (canvas g)).
Proof.
  unfold update_gui_display. cbn zeta.
  destruct (update_road_display_lengths s Road2
              (update_road_display s Road1
                 (set_canvas (canvas_delete "car" (canvas g)) g))) as [-> ->].
  destruct (update_road_display_lengths s Road1
              (set_canvas (canvas_delete "car" (canvas g)) g)) as [-> ->].
  cbn [canvas set_canvas]. unfold car_items, other_items, canvas_delete.
  cbn [String.eqb Ascii.eqb Bool.eqb items].
  rewrite (filter_filter_neg (has_tag "car")).
  rewrite (filter_filter_same (fun it => negb (has_tag "car" it))).
  cbn [length]. split; lia.
Qed.

(** ** The counts of a road *)






(** ** What the car threads log *)

(** The log of the car threads is exact.  A step of a car thread logs
    at most one message, and the message tells what the step did: no
    message, no car created and no state changed; "arrived", a new
    waiting car with that [id] on that road; "started crossing", the
    waiting car with that [id] turned "crossing"; "finished crossing",
    the crossing car with that [id] turned "exited"; "waiting too long",
    the thread ended and left its car waiting. *)
Theorem car_log_is_exact (case count k : string) (now : float)
    (s s' : TrafficSimulator) (i : nat) (now' : float) :
  reachable (init case count k now) s -> car_process i now' s = Some s' ->
  let unchanged :=
    forall a, state <$> heap s' !! a = state <$> heap s !! a in
  match car_process_log i now' s with
  | [] => unchanged
  | [CarArrived id n] =>
      heap s' = heap s ++ [mkCar id n (float_of_int 0) (float_of_int 0)
                                 (float_of_int 0) "waiting"]
  | [CarStarted id n] =>
      exists a c, heap s !! a = Some c /\ car_id c = id /\ road_num c = n
                  /\ state c = "waiting"
                  /\ heap s' = <[a := set_state "crossing" c]> (heap s)
  | [CarFinished id n] =>
      exists a c, heap s !! a = Some c /\ car_id c = id /\ road_num c = n
                  /\ state c = "crossing"
                  /\ heap s' = <[a := set_state "exited" c]> (heap s)
  | [CarWaitedTooLong id n] =>
      unchanged
      /\ exists t a c, car_procs s !! i = Some t /\ pc t = PcNotified a
                       /\ heap s !! a = Some c /\ car_id c = id /\ road_num c = n
                       /\ state c = "waiting"
                       /\ (pc <$> car_procs s' !! i) = Some PcFinished
  | _ => False
  end.
Proof.
  intros Hreach H. cbn zeta.
  destruct (reachable_inv _ _ _ _ _ Hreach) as ([_ _ Hprocs] & Hpos & Hlife).
  assert (forall t a car, car_procs s !! i = Some t -> pc_car (pc t) = Some a ->
            heap s !! a = Some car ->
            car_id car = arg_car_id t /\ road_num car = arg_road_num t) as Hmine.
  { intros t a car Ht Hpc Hcar. split; [by apply (li_args s Hlife i t a car)|].
    assert (proc_ok (heap s) t) as Hok
      by (eapply (proj1 (Forall_forall _ _) Hprocs), list_elem_of_lookup_2, Ht).
    destruct (Hok a Hpc) as (c1 & Hc1 & Hn1). congruence. }
  assert (forall a car car', heap s !! a = Some car -> state car' = state car ->
            forall b, state <$> <[a := car']> (heap s) !! b = state <$> heap s !! b)
    as Hkeep.
  { intros a car car' Hcar Hst b. destruct (decide (b = a)) as [->|Hne].
    - rewrite list_lookup_insert_eq by (eapply lookup_lt_Some, Hcar).
      rewrite Hcar. simpl. by rewrite Hst.
    - by rewrite list_lookup_insert_ne. }
  unfold car_process_log. car_cases H.
  - injection H as <-. reflexivity.
  - destruct (_ && _); injection H as <-; intros b; reflexivity.
  - destruct (Hmine t a car eq_refl) as [Hid Hroad]; [by rewrite Hpc|assumption|].
    destruct (li_loop s Hlife i t a) as (c0 & Hc0 & Hst0);
      [first [assumption|reflexivity]|by rewrite Hpc|by rewrite Hpc|].
    assert (c0 = car) as -> by congruence.
    destruct (_ || _); [|injection H as <-; intros b; reflexivity].
    destruct (can_cross _ _ _) as [[|]|]; injection H as <-;
      try (intros b; reflexivity).
    exists a, car. repeat split; assumption.
  - destruct (Hmine t a car eq_refl) as [Hid Hroad]; [by rewrite Hpc|assumption|].
    destruct (li_loop s Hlife i t a) as (c0 & Hc0 & Hst0);
      [first [assumption|reflexivity]|by rewrite Hpc|by rewrite Hpc|].
    assert (c0 = car) as -> by congruence.
    assert (i < length (car_procs s))%nat as Hlt.
    { apply lookup_lt_is_Some. rewrite Ht. eauto. }
    cbn [waiting_time set_waiting_time] in H.
    destruct (PrimFloat.ltb _ _); injection H as <-.
    + split; [by apply (Hkeep a car)|].
      exists t, a, car. repeat split; try assumption; try reflexivity.
      cbn [car_procs set_car_procs set_heap].
      rewrite list_lookup_insert_eq by assumption. cbn.
      unfold after_loop. cbn [state set_waiting_time]. by rewrite Hst0.
    + by apply (Hkeep a car).
  - destruct (Hmine t a car eq_refl) as [Hid Hroad]; [by rewrite Hpc|assumption|].
    destruct (pi_crossing s Hpos i t a st) as (c0 & Hc0 & Hst0);
      [first [assumption|reflexivity]|assumption|].
    assert (c0 = car) as -> by congruence.
    destruct (PrimFloat.ltb _ _); injection H as <-.
    + by apply (Hkeep a car).
    + exists a, car. repeat split; assumption.
Qed.

(** ** The lines of one car, in order *)

(** The entries about the car with a given [id]. *)
Definition about (id : Z) (e : LogEntry) : bool :=
  match e with
  | CarArrived i _ | CarStarted i _ | CarWaitedTooLong i _ | CarFinished i _ => Z.eqb i id
  | LightTurned _ _ | Starting | Stopped => false
  end.

(** A run and what its threads have logged so far. *)
Inductive run_log (s0 : TrafficSimulator) : TrafficSimulator -> list LogEntry -> Prop :=
| rl_here : run_log s0 s0 []
| rl_next s s' e h :
    run_log s0 s h -> is_click e = false -> exec e s = Some s' ->
    run_log s0 s' (h ++ logs (posted e s)).

Lemma run_log_run_from (s0 s : TrafficSimulator) (h : list LogEntry) :
  run_log s0 s h -> run_from s0 s.
Proof.
  induction 1 as [|s s' e h _ IH Hc He]; [constructor|]. eapply run_next; eassumption.
Qed.

Lemma logs_map_MsgLog (l : list LogEntry) : logs (map MsgLog l) = l.
Proof. unfold logs. induction l as [|e l IH]; [reflexivity|]. cbn. by rewrite IH. Qed.

(** What thread [t] has logged, by its program point. *)
Definition stage (t : CarProc) (l : list LogEntry) : Prop :=
  let id := arg_car_id t in
  let n := arg_road_num t in
  match pc t with
  | PcArrive => l = []
  | PcWhile _ | PcLocked _ | PcWaiting _ | PcNotified _ => l = [CarArrived id n]
  | PcCrossing _ _ => l = [CarArrived id n; CarStarted id n]
  | PcFinished =>
      l = [CarArrived id n]
      \/ l = [CarArrived id n; CarWaitedTooLong id n]
      \/ l = [CarArrived id n; CarStarted id n; CarFinished id n]
  end.

Lemma stage_wake (n : RoadNum) (t : CarProc) (l : list LogEntry) :
  stage t l -> stage (wake n t) l.
Proof.
  unfold stage, wake. destruct (pc t) eqn:Hpc; rewrite ?Hpc; try (intros H; exact H).
  destruct (RoadNum_eqb _ _); cbn; rewrite ?Hpc; intros H; exact H.
Qed.

Definition staged (s : TrafficSimulator) (h : list LogEntry) : Prop :=
  (forall i t, car_procs s !! i = Some t -> stage t (List.filter (about (arg_car_id t)) h))
  /\ (forall id, (forall i t, car_procs s !! i = Some t -> arg_car_id t <> id) ->
                 List.filter (about id) h = []).

Lemma staged_wake (s s' : TrafficSimulator) (h : list LogEntry) :
  (car_procs s' = car_procs s \/ exists n, car_procs s' = map (wake n) (car_procs s)) ->
  staged s h -> staged s' h.
Proof.
  unfold staged. intros [Hp|[n Hp]] [H1 H2]; rewrite Hp; [by split|]. split.
  - intros i t. rewrite lookup_map.
    destruct (car_procs s !! i) as [t0|] eqn:Ht0; [|discriminate].
    intros E. injection E as <-. rewrite arg_car_id_wake. apply stage_wake. by apply (H1 i).
  - intros id Hid. apply H2. intros i t Ht E. apply (Hid i (wake n t)).
    + by rewrite lookup_map, Ht.
    + by rewrite arg_car_id_wake.
Qed.

Lemma filter_about_other (id id' : Z) (n : RoadNum) (l : list LogEntry) :
  id' <> id ->
  (forall e, In e l -> e = CarArrived id' n \/ e = CarStarted id' n
                       \/ e = CarWaitedTooLong id' n \/ e = CarFinished id' n) ->
  List.filter (about id) l = [].
Proof.
  intros Hne Hl. induction l as [|e l IH]; [reflexivity|]. cbn [List.filter].
  assert (about id e = false) as ->.
  { destruct (Hl e) as [-> | [-> | [-> | ->]]]; [by left| | | |]; cbn; by apply Z.eqb_neq. }
  apply IH. intros e' He'. apply Hl. by right.
Qed.

(** One thread moves on and logs [l]. *)
Lemma staged_step (s s' : TrafficSimulator) (h l : list LogEntry) (i : nat)
    (t : CarProc) (p : CarPc) :
  (forall j tj, car_procs s !! j = Some tj -> arg_car_id tj = Z.of_nat j + 1) ->
  staged s h ->
  car_procs s !! i = Some t ->
  car_procs s' = <[i := set_pc p t]> (car_procs s) ->
  (forall e, In e l -> e = CarArrived (arg_car_id t) (arg_road_num t)
                       \/ e = CarStarted (arg_car_id t) (arg_road_num t)
                       \/ e = CarWaitedTooLong (arg_car_id t) (arg_road_num t)
                       \/ e = CarFinished (arg_car_id t) (arg_road_num t)) ->
  stage (set_pc p t) (List.filter (about (arg_car_id t)) h
                      ++ List.filter (about (arg_car_id t)) l) ->
  staged s' (h ++ l).
Proof.
  intros Hids [H1 H2] Ht Hp' Hl Hst.
  assert (i < length (car_procs s))%nat as Hlt by (eapply lookup_lt_Some, Ht).
  split.
  - intros j tj. rewrite Hp', list_lookup_insert_Some.
    intros [(-> & <- & _)|[Hji Hj]]; rewrite List.filter_app; [exact Hst|].
    rewrite (filter_about_other (arg_car_id tj) (arg_car_id t) (arg_road_num t) l).
    + rewrite app_nil_r. by apply (H1 j).
    + pose proof (Hids j tj Hj). pose proof (Hids i t Ht). lia.
    + exact Hl.
  - intros id Hid. rewrite List.filter_app.
    assert (arg_car_id t <> id) as Hne.
    { apply (Hid i (set_pc p t)). rewrite Hp'. by apply list_lookup_insert_eq. }
    rewrite (filter_about_other id (arg_car_id t) (arg_road_num t) l) by assumption.
    rewrite app_nil_r. apply H2. intros j tj Hj E.
    destruct (decide (j = i)) as [->|Hji]; [congruence|].
    apply (Hid j tj); [|assumption]. rewrite Hp'. by rewrite list_lookup_insert_ne.
Qed.

Ltac staged_case Hids Hst Ht p l :=
  eapply (staged_step _ _ _ l _ _ p Hids Hst Ht);
  [reflexivity
  |let x := fresh "x" in let Hx := fresh "Hx" in
   cbn [In]; intros x Hx; repeat (destruct Hx as [<-|Hx]; [tauto|]); destruct Hx
  |].

Lemma staged_car_process (i : nat) (now : float) (s s' : TrafficSimulator)
    (h : list LogEntry) :
  pos_inv s -> life_inv s -> run_inv s -> staged s h ->
  car_process i now s = Some s' ->
  staged s' (h ++ car_process_log i now s).
Proof.
  intros Hpos Hlife Hri Hst H.
  pose proof (ri_ids s Hri) as Hids.
  assert (forall t, car_procs s !! i = Some t ->
            stage t (List.filter (about (arg_car_id t)) h)) as H1
    by (intros t; apply (proj1 Hst)).
  assert (forall id, Z.eqb id id = true) as Hrefl by (intros; apply Z.eqb_refl).
  unfold car_process_log. car_cases H.
  - (* arrival *)
    injection H as <-. specialize (H1 t eq_refl). unfold stage in H1. rewrite Hpc in H1.
    staged_case Hids Hst Ht (PcWhile (length (heap s)))
                [CarArrived (arg_car_id t) (arg_road_num t)].
    rewrite H1. unfold stage. cbn. by rewrite Hrefl.
  - (* loop test: the car is waiting *)
    destruct (li_loop s Hlife i t a) as (c0 & Hc0 & Hst0);
      [first [assumption|reflexivity]|by rewrite Hpc|by rewrite Hpc|].
    assert (c0 = car) as -> by congruence.
    specialize (H1 t eq_refl). unfold stage in H1. rewrite Hpc in H1.
    destruct (_ && _); injection H as <-.
    + staged_case Hids Hst Ht (PcLocked a) (@nil LogEntry).
      rewrite H1. reflexivity.
    + staged_case Hids Hst Ht (after_loop a car now) (@nil LogEntry).
      rewrite H1. unfold stage, after_loop. rewrite Hst0. cbn. by left.
  - (* admission test *)
    specialize (H1 t eq_refl). unfold stage in H1. rewrite Hpc in H1.
    destruct (_ || _).
    + destruct (can_cross _ _ _) as [[|]|]; injection H as <-.
      * staged_case Hids Hst Ht (after_loop a (set_state "crossing" car) now)
                    [CarStarted (arg_car_id t) (arg_road_num t)].
        rewrite H1. unfold stage. cbn. by rewrite Hrefl.
      * staged_case Hids Hst Ht (PcWaiting a) (@nil LogEntry). rewrite H1. reflexivity.
      * staged_case Hids Hst Ht PcFinished (@nil LogEntry). rewrite H1. cbn. by left.
    + injection H as <-.
      staged_case Hids Hst Ht (PcWaiting a) (@nil LogEntry). rewrite H1. reflexivity.
  - (* return from wait() *)
    destruct (li_loop s Hlife i t a) as (c0 & Hc0 & Hst0);
      [first [assumption|reflexivity]|by rewrite Hpc|by rewrite Hpc|].
    assert (c0 = car) as -> by congruence.
    specialize (H1 t eq_refl). unfold stage in H1. rewrite Hpc in H1.
    cbn [waiting_time set_waiting_time] in H.
    destruct (PrimFloat.ltb _ _); injection H as <-.
    + staged_case Hids Hst Ht
        (after_loop a (set_waiting_time (PrimFloat.add (waiting_time car) tenth) car) now)
        [CarWaitedTooLong (arg_car_id t) (arg_road_num t)].
      rewrite H1. unfold stage, after_loop. cbn [state set_waiting_time].
      rewrite Hst0. cbn. rewrite Hrefl. right. by left.
    + staged_case Hids Hst Ht (PcWhile a) (@nil LogEntry). rewrite H1. reflexivity.
  - (* crossing loop *)
    specialize (H1 t eq_refl). unfold stage in H1. rewrite Hpc in H1.
    destruct (PrimFloat.ltb _ _); injection H as <-.
    + eapply (staged_step _ _ _ [] _ _ (pc t) Hids Hst Ht).
      * cbn. symmetry. apply list_insert_id.
        replace (set_pc (pc t) t) with t by (by destruct t). first [assumption|reflexivity].
      * intros e [].
      * rewrite H1. unfold stage. cbn. by rewrite Hpc.
    + staged_case Hids Hst Ht PcFinished [CarFinished (arg_car_id t) (arg_road_num t)].
      rewrite H1. unfold stage. cbn. rewrite Hrefl. right. by right.
Qed.

Lemma staged_exec (e : event) (s s' : TrafficSimulator) (h : list LogEntry) :
  pos_inv s -> life_inv s -> run_inv s -> staged s h ->
  is_click e = false -> exec e s = Some s' ->
  staged s' (h ++ logs (posted e s)).
Proof.
  intros Hpos Hlife Hri Hst Hc H.
  assert (forall l, (forall x, In x l -> exists n c, x = LightTurned n c) ->
            staged s (h ++ l)) as Hlights.
  { intros l Hl. destruct Hst as [H1 H2].
    assert (forall id, List.filter (about id) l = []) as Hnone.
    { intros id. induction l as [|x l IH]; [reflexivity|]. cbn [List.filter].
      destruct (Hl x) as (n & c & ->); [by left|]. cbn. apply IH.
      intros y Hy. apply Hl. by right. }
    split.
    - intros i t Ht. rewrite List.filter_app, Hnone, app_nil_r. by apply (H1 i).
    - intros id Hid. rewrite List.filter_app, Hnone, app_nil_r. by apply H2. }
  destruct e as [randint|i now|i now|i]; cbn [posted]; [discriminate Hc| | |].
  - rewrite logs_map_MsgLog. by apply staged_car_process.
  - rewrite logs_map_MsgLog. simpl in H.
    apply (staged_wake s); [apply (light_process_frame _ _ _ _ H)|].
    apply Hlights. intros x. unfold traffic_light_process_log.
    destruct (light_procs s !! i) as [[|[|n rest]|n rest|n rest|]|]; cbn; try tauto.
    + destruct (is_running s); cbn; [|tauto]. intros [<-|[]]. eauto.
    + intros [<-|[]]. eauto.
    + intros [<-|[]]. eauto.
  - simpl in H. apply (staged_wake s).
    { left. apply (update_display_frame _ _ _ H). }
    replace (logs _) with (@nil LogEntry); [by rewrite app_nil_r|].
    destruct (display_procs s !! i) as [[|]|]; try reflexivity.
    by destruct (is_running s).
Qed.

Lemma first_start_arrive (randint : nat -> RoadNum) (case count k : string)
    (now : float) (j : nat) (t : CarProc) :
  car_procs (snd (toggle_simulation randint (init case count k now))) !! j = Some t ->
  pc t = PcArrive.
Proof.
  assert (forall j t,
    car_procs (snd (toggle_simulation randint (init case count k now))) !! j = Some t ->
    arg_car_id t = Z.of_nat j + 1 /\ pc t = PcArrive) as Hprocs.
  { unfold toggle_simulation, start_simulation. cbn [is_running init negb].
    cbn zeta. cbn [case_var cars_entry init set_is_running set_case_type].
    destruct (py_int case); [|intros j' t' Hj; discriminate Hj].
    destruct (py_int count); [|intros j' t' Hj; discriminate Hj].
    cbn [snd]. apply spawn_cars_ids; [reflexivity|].
    intros j' t' Hj. discriminate Hj. }
  intros Hj. exact (proj2 (Hprocs j t Hj)).
Qed.

(** The lines of a car tell its story in order.  In the first run, the
    lines the threads have logged about a car are, in this order,
    "arrived", then "started crossing", then "finished crossing", or
    "arrived" and "waiting too long", or a beginning of one of the two:
    no car starts crossing before it has arrived or finishes before it
    has started, none is reported twice, and a car that has waited too
    long is never reported crossing. *)
Theorem car_log_in_order (randint : nat -> RoadNum) (case count k : string)
    (now : float) (s : TrafficSimulator) (h : list LogEntry) (id : Z) :
  run_log (snd (toggle_simulation randint (init case count k now))) s h ->
  exists n,
    let l := List.filter (about id) h in
    l = []
    \/ l = [CarArrived id n]
    \/ l = [CarArrived id n; CarStarted id n]
    \/ l = [CarArrived id n; CarStarted id n; CarFinished id n]
    \/ l = [CarArrived id n; CarWaitedTooLong id n].
Proof.
  intros Hrun.
  assert (staged s h /\ run_inv s) as [[H1 H2] Hri].
  { induction Hrun as [|s s' e h Hrun [IH _] Hc He].
    - split; [|apply run_inv_first]. split; [|reflexivity].
      intros i t Ht.
      pose proof (first_start_arrive _ _ _ _ _ _ _ Ht) as Hpc.
      unfold stage. by rewrite Hpc.
    - destruct (first_run_inv _ _ _ _ _ _ (run_log_run_from _ _ _ Hrun))
        as (Hwf & Hpos & Hlife & Hri & _).
      split; [by apply staged_exec|]. eapply run_inv_exec; eassumption. }
  destruct (decide (1 <= id <= Z.of_nat (length (car_procs s)))) as [Hin|Hout].
  - destruct (lookup_lt_is_Some_2 (car_procs s) (Z.to_nat (id - 1))) as [t Ht]; [lia|].
    pose proof (ri_ids s Hri _ t Ht) as Hid.
    assert (arg_car_id t = id) as Hid' by lia.
    specialize (H1 _ t Ht). rewrite Hid' in H1. unfold stage in H1. rewrite Hid' in H1.
    exists (arg_road_num t). cbn zeta.
    destruct (pc t); tauto.
  - exists Road1. left. apply H2. intros i t Ht E.
    pose proof (ri_ids s Hri i t Ht). pose proof (lookup_lt_Some _ _ _ Ht). lia.
Qed.

(** ** The lamps *)











Lemma next_id_itemconfig (id : nat) (f : string) (c : Canvas) :
  next_id (itemconfig id f c) = next_id c.
Proof. reflexivity. Qed.













(** ** The window after a stop *)









(** * The theorems on sample runs *)

(** ** Sample states *)

(** A car as [car_process] creates it. *)
Definition fresh_car (id : Z) (n : RoadNum) : Car :=
  mkCar id n (float_of_int 0) (float_of_int 0) (float_of_int 0) "waiting".

(** EXCLUSIVE mode, two cars on road 1, the light of road 1 GREEN: the
    thread of the first car is about to call [can_cross]. *)
Definition at_admission : TrafficSimulator :=
  default (init "1" "2" "3" (float_of_int 1000))
          (run (firstn 6 exclusive_schedule) (init "1" "2" "3" (float_of_int 1000))).

(** The next step of that thread: the car is admitted. *)
Definition admitted : TrafficSimulator :=
  default at_admission (exec (CarStep 0 (float_of_int 1000)) at_admission).

(** BOUNDED(2) mode, three cars on road 1: two are crossing, the thread
    of the third is about to call [can_cross]. *)
Definition at_admission_bounded : TrafficSimulator :=
  default (init "2" "3" "2" (float_of_int 1000))
          (run (firstn 11 bounded_schedule) (init "2" "3" "2" (float_of_int 1000))).

Lemma at_admission_reachable :
  reachable (init "1" "2" "3" (float_of_int 1000)) at_admission.
Proof.
  apply (reachable_run (firstn 6 exclusive_schedule) _ _ _ (reach_init _)).
  vm_compute. reflexivity.
Qed.

Lemma sample_exclusive_reachable :
  reachable (init "1" "2" "3" (float_of_int 1000)) sample_exclusive.
Proof.
  apply (reachable_run exclusive_schedule _ _ _ (reach_init _)).
  vm_compute. reflexivity.
Qed.

Lemma sample_exclusive_first_run :
  run_from (snd (toggle_simulation (fun _ => Road1) (init "1" "2" "3" (float_of_int 1000))))
           sample_exclusive.
Proof.
  apply (run_from_run (tail exclusive_schedule) _ _ _ (run_here _));
    vm_compute; reflexivity.
Qed.

(** ** The life of a car *)

Lemma car_state_lifecycle_witness :
  (state (fresh_car 1 Road1) = "waiting" \/ state (fresh_car 1 Road1) = "crossing"
   \/ state (fresh_car 1 Road1) = "exited")
  /\ exists c',
       heap admitted !! 0%nat = Some c'
       /\ car_id c' = car_id (fresh_car 1 Road1)
       /\ road_num c' = road_num (fresh_car 1 Road1)
       /\ (state (fresh_car 1 Road1) = "exited" -> c' = fresh_car 1 Road1)
       /\ (state c' = state (fresh_car 1 Road1)
           \/ (state (fresh_car 1 Road1) = "waiting" /\ state c' = "crossing")
           \/ (state (fresh_car 1 Road1) = "crossing" /\ state c' = "exited")).
Proof.
  apply (car_state_lifecycle "1" "2" "3" (float_of_int 1000) at_admission admitted
           (CarStep 0 (float_of_int 1000)) 0 (fresh_car 1 Road1)).
  - apply at_admission_reachable.
  - vm_compute. reflexivity.
  - vm_compute. reflexivity.
Defined.

Lemma admission_needs_green_or_yellow_witness :
  (light_state (roads at_admission (road_num (fresh_car 1 Road1))) = GREEN
   \/ light_state (roads at_admission (road_num (fresh_car 1 Road1))) = YELLOW)
  /\ state (fresh_car 1 Road1) = "waiting"
  /\ can_cross at_admission (roads at_admission (road_num (fresh_car 1 Road1)))
                (fresh_car 1 Road1) = Ok true
  /\ exists i now', CarStep 0 (float_of_int 1000) = CarStep i now'
                    /\ (pc <$> car_procs at_admission !! i) = Some (PcLocked 0).
Proof.
  apply (admission_needs_green_or_yellow "1" "2" "3" (float_of_int 1000)
           at_admission admitted (CarStep 0 (float_of_int 1000)) 0
           (fresh_car 1 Road1) (set_state "crossing" (fresh_car 1 Road1))).
  - apply at_admission_reachable.
  - vm_compute. reflexivity.
  - vm_compute. reflexivity.
  - vm_compute. reflexivity.
  - discriminate.
  - reflexivity.
Defined.

Lemma fields_never_written_witness :
  (forall a c, heap sample_exclusive !! a = Some c -> speed c = float_of_int 0)
  /\ (forall n, queue_length (roads sample_exclusive n) = 0).
Proof.
  apply (fields_never_written "1" "2" "3" (float_of_int 1000) sample_exclusive).
  apply sample_exclusive_reachable.
Defined.

Lemma spacing_rule_never_decides_witness :
  state (fresh_car 3 Road1) = "waiting" /\ position (fresh_car 3 Road1) = float_of_int 0
  /\ can_cross at_admission_bounded (roads at_admission_bounded Road1) (fresh_car 3 Road1)
     = Ok (let n := ncross (heap at_admission_bounded)
                           (cars (roads at_admission_bounded Road1)) in
           Nat.eqb n 0 || Z.ltb (Z.of_nat n) 2).
Proof.
  apply (spacing_rule_never_decides "2" "3" "2" (float_of_int 1000) at_admission_bounded
           2 (mkCarProc 3 Road1 (PcLocked 2)) 2 (fresh_car 3 Road1) 2
           (roads at_admission_bounded Road1)).
  - apply (reachable_run (firstn 11 bounded_schedule) _ _ _ (reach_init _)).
    vm_compute. reflexivity.
  - vm_compute. reflexivity.
  - reflexivity.
  - vm_compute. reflexivity.
  - vm_compute. discriminate.
  - vm_compute. reflexivity.
Defined.

(** BOUNDED mode with [k] 1, two cars on road 1 under a green light. *)
Definition sample_small_k : TrafficSimulator :=
  default (init "2" "2" "1" (float_of_int 1000))
          (run exclusive_schedule (init "2" "2" "1" (float_of_int 1000))).

Lemma bounded_small_k_is_exclusive_witness :
  map state (heap sample_small_k) = ["crossing"; "waiting"]
  /\ (forall road car,
         can_cross sample_small_k road car
         = Ok (negb (existsb is_crossing (deref (heap sample_small_k) (cars road)))))
  /\ (forall n, (length (crossing_cars sample_small_k n) <= 1)%nat).
Proof.
  split; [vm_compute; reflexivity|].
  apply (bounded_small_k_is_exclusive "2" "2" "1" (float_of_int 1000) 1 sample_small_k).
  - vm_compute. reflexivity.
  - lia.
  - apply (reachable_run exclusive_schedule _ _ _ (reach_init _)).
    vm_compute. reflexivity.
Defined.

Lemma bounded_without_k_never_admits_witness :
  map pc (car_procs abandoned) = [PcFinished]
  /\ forall a c, heap abandoned !! a = Some c -> state c = "waiting".
Proof.
  split; [vm_compute; reflexivity|].
  intros a c.
  apply (bounded_without_k_never_admits "2" "1" "abc" (float_of_int 0) 2 abandoned a c).
  - vm_compute. reflexivity.
  - lia.
  - vm_compute. reflexivity.
  - apply (reachable_run abandoned_schedule _ _ _ (reach_init _)).
    vm_compute. reflexivity.
Defined.

(** ** Stopping *)

(** Three clicks on a program whose mode entry is not a number. *)
Definition three_clicks : list event :=
  [Click (fun _ => Road1); Click (fun _ => Road1); Click (fun _ => Road1)].

Lemma running_flag_counts_clicks_witness :
  exists s, run three_clicks (init "abc" "2" "3" (float_of_int 0)) = Some s
            /\ is_running s = true /\ car_procs s = [] /\ light_procs s = [].
Proof.
  eexists. split; [vm_compute; reflexivity|].
  split; [|split; reflexivity].
  apply (running_flag_counts_clicks three_clicks (init "abc" "2" "3" (float_of_int 0))).
  vm_compute. reflexivity.
Defined.



(** The light of road 1 turns YELLOW in [sample_exclusive]. *)
Definition turned_yellow : TrafficSimulator :=
  default sample_exclusive (exec (LightStep 0 (float_of_int 1005)) sample_exclusive).

Lemma waiting_car_woken_only_by_light_or_click_witness :
  exists p, light_procs sample_exclusive !! 0%nat = Some p
            /\ car_procs turned_yellow !! 1%nat
               = Some (if sets_light (is_running sample_exclusive) p Road1
                       then mkCarProc 2 Road1 (PcNotified 1)
                       else mkCarProc 2 Road1 (PcWaiting 1)).
Proof.
  apply (waiting_car_woken_only_by_light_or_click (LightStep 0 (float_of_int 1005))
           sample_exclusive turned_yellow 1 (mkCarProc 2 Road1 (PcWaiting 1)) 1).
  - vm_compute. reflexivity.
  - vm_compute. reflexivity.
  - reflexivity.
Defined.

(** The second car has passed the test of its loop when the button is
    clicked; the light thread ends; the car then finds its light red and
    waits. *)
Definition blocked_schedule : list event :=
  let t := float_of_int 1000 in
  firstn 8 exclusive_schedule
  ++ [Click (fun _ => Road1)] ++ repeat (LightStep 0 t) 4 ++ [CarStep 1 t].

Definition blocked_after_stop : TrafficSimulator :=
  default (init "1" "2" "3" (float_of_int 1000))
          (run blocked_schedule (init "1" "2" "3" (float_of_int 1000))).

Lemma stopped_waiter_is_never_woken_witness :
  map pc (car_procs blocked_after_stop) = [PcCrossing 0 (float_of_int 1000); PcWaiting 1]
  /\ forall s', run_from blocked_after_stop s' ->
       car_procs s' !! 1%nat = Some (mkCarProc 2 Road1 (PcWaiting 1))
       /\ is_running s' = false
       /\ Forall (fun p => p = LFinished) (light_procs s').
Proof.
  split; [vm_compute; reflexivity|].
  intros s'.
  apply (stopped_waiter_is_never_woken blocked_after_stop s' 1
           (mkCarProc 2 Road1 (PcWaiting 1)) 1).
  - vm_compute. reflexivity.
  - vm_compute. repeat constructor.
  - vm_compute. reflexivity.
  - reflexivity.
Defined.

Lemma car_admitted_after_stop_witness :
  exists s',
    run [Click (fun _ => Road2); LightStep 0 (float_of_int 1001);
         CarStep 0 (float_of_int 1001)] at_admission = Some s'
    /\ is_running s' = false
    /\ heap s' !! 0%nat = Some (set_state "crossing" (fresh_car 1 Road1))
    /\ (pc <$> car_procs s' !! 0%nat) = Some (PcCrossing 0 (float_of_int 1001))
    /\ forall n, cars (roads s' n) = [].
Proof.
  apply (car_admitted_after_stop (fun _ => Road2) at_admission 0
           (mkCarProc 1 Road1 (PcLocked 0)) 0 (fresh_car 1 Road1) 0 [Road2]
           (float_of_int 1001)).
  - vm_compute. reflexivity.
  - vm_compute. reflexivity.
  - reflexivity.
  - vm_compute. reflexivity.
  - vm_compute. reflexivity.
  - left. vm_compute. reflexivity.
Defined.

(** ** The lists of the roads *)

Lemma road_lists_well_formed_witness :
  NoDup (cars (roads sample_exclusive Road1))
  /\ forall a, a ∈ cars (roads sample_exclusive Road1) ->
               exists c, heap sample_exclusive !! a = Some c /\ road_num c = Road1.
Proof.
  apply (road_lists_well_formed "1" "2" "3" (float_of_int 1000) sample_exclusive Road1).
  apply sample_exclusive_reachable.
Defined.


Lemma first_run_car_ids_witness :
  (forall a c, heap sample_exclusive !! a = Some c ->
               1 <= car_id c <= Z.of_nat (length (car_procs sample_exclusive)))
  /\ (forall a b ca cb, heap sample_exclusive !! a = Some ca ->
                        heap sample_exclusive !! b = Some cb ->
                        car_id ca = car_id cb -> a = b)
  /\ (forall i t a c, car_procs sample_exclusive !! i = Some t -> pc_car (pc t) = Some a ->
                      heap sample_exclusive !! a = Some c -> car_id c = Z.of_nat i + 1).
Proof.
  apply (first_run_car_ids (fun _ => Road1) "1" "2" "3" (float_of_int 1000)
           sample_exclusive).
  apply sample_exclusive_first_run.
Defined.

(** ** The window *)

(** A start and a stop, the main loop not having run in between: the
    queue holds the two messages of the clicks. *)
Definition sample_app : TrafficSimulator * Gui :=
  default (app_init "1" "2" "3" (float_of_int 1000))
          (app_run [Sim (Click (fun _ => Road1)); Sim (Click (fun _ => Road1))]
                   (app_init "1" "2" "3" (float_of_int 1000))).

Lemma start_keeps_pending_messages_witness :
  logs (message_queue (snd sample_app)) = [Starting; Stopped]
  /\ exists s' g',
       app_run [Sim (Click (fun _ => Road1)); ProcessMessages]
               (fst sample_app, snd sample_app) = Some (s', g')
       /\ log_text g'
          = (rendered (logs (message_queue (snd sample_app)))
             ++ content Starting ++ newline)%string.
Proof.
  split; [vm_compute; reflexivity|].
  apply (start_keeps_pending_messages (fun _ => Road1) (fst sample_app) (snd sample_app)).
  - vm_compute. reflexivity.
  - vm_compute. eexists. reflexivity.
  - vm_compute. eexists. reflexivity.
Defined.

(** Two clicks on a program whose car count is not a number. *)
Definition bad_count_schedule : list app_event :=
  [Sim (Click (fun _ => Road1)); ProcessMessages].

Definition bad_count_app : TrafficSimulator * Gui :=
  default (app_init "1" "ten" "3" (float_of_int 1000))
          (app_run bad_count_schedule (app_init "1" "ten" "3" (float_of_int 1000))).

Lemma start_button_text_witness :
  is_running (fst bad_count_app) = true
  /\ start_button (snd bad_count_app)
     = if is_running (fst bad_count_app) && bool_decide (is_Some (py_int "1"))
          && bool_decide (is_Some (py_int "ten"))
       then "Stop Simulation" else "Start Simulation".
Proof.
  split; [vm_compute; reflexivity|].
  apply (start_button_text "1" "ten" "3" (float_of_int 1000) bad_count_schedule
           (fst bad_count_app) (snd bad_count_app)).
  vm_compute. reflexivity.
Defined.

Lemma waiting_cars_drawn_at_entry_witness :
  map state (deref (heap sample_exclusive) (cars (roads sample_exclusive Road1)))
  = ["crossing"; "waiting"]
  /\ forall c, c ∈ deref (heap sample_exclusive) (cars (roads sample_exclusive Road1)) ->
               state c = "waiting" -> car_xy Road1 c = entry_point Road1.
Proof.
  split; [vm_compute; reflexivity|].
  intros c.
  apply (waiting_cars_drawn_at_entry "1" "2" "3" (float_of_int 1000) sample_exclusive
           Road1 c).
  apply sample_exclusive_reachable.
Defined.


Lemma car_log_is_exact_witness :
  car_process_log 0 (float_of_int 1000) at_admission = [CarStarted 1 Road1]
  /\ exists a c, heap at_admission !! a = Some c /\ car_id c = 1 /\ road_num c = Road1
                 /\ state c = "waiting"
                 /\ heap admitted = <[a := set_state "crossing" c]> (heap at_admission).
Proof.
  split; [vm_compute; reflexivity|].
  apply (car_log_is_exact "1" "2" "3" (float_of_int 1000) at_admission admitted 0
           (float_of_int 1000)).
  - apply at_admission_reachable.
  - vm_compute. reflexivity.
Defined.

(** A schedule of thread steps and what it logs. *)
Fixpoint run_logged (es : list event) (s : TrafficSimulator) (h : list LogEntry)
  : option (TrafficSimulator * list LogEntry) :=
  match es with
  | [] => Some (s, h)
  | e :: es' => s' ← exec e s; run_logged es' s' (h ++ logs (posted e s))
  end.

Lemma run_log_run_logged (es : list event) (s0 s1 s : TrafficSimulator)
    (h1 h : list LogEntry) :
  run_log s0 s1 h1 -> forallb (fun e => negb (is_click e)) es = true ->
  run_logged es s1 h1 = Some (s, h) -> run_log s0 s h.
Proof.
  revert s1 h1. induction es as [|e es IH]; intros s1 h1 H1 Hes H; simpl in *.
  - injection H as <- <-. assumption.
  - apply andb_true_iff in Hes as [He Hes]. apply negb_true_iff in He.
    destruct (exec e s1) as [s2|] eqn:Hexec; [|discriminate H].
    apply (IH s2 (h1 ++ logs (posted e s1))); [|assumption|exact H].
    eapply rl_next; eassumption.
Qed.

(** What the threads of [sample_exclusive] have logged. *)
Definition sample_log : list LogEntry :=
  match run_logged (tail exclusive_schedule)
          (snd (toggle_simulation (fun _ => Road1) (init "1" "2" "3" (float_of_int 1000))))
          [] with
  | Some (_, h) => h
  | None => []
  end.

Lemma car_log_in_order_witness :
  sample_log = [CarArrived 1 Road1; CarArrived 2 Road1; LightTurned Road1 GREEN;
                CarStarted 1 Road1]
  /\ forall id, exists n,
       let l := List.filter (about id) sample_log in
       l = []
       \/ l = [CarArrived id n]
       \/ l = [CarArrived id n; CarStarted id n]
       \/ l = [CarArrived id n; CarStarted id n; CarFinished id n]
       \/ l = [CarArrived id n; CarWaitedTooLong id n].
Proof.
  split; [vm_compute; reflexivity|].
  intros id.
  apply (car_log_in_order (fun _ => Road1) "1" "2" "3" (float_of_int 1000)
           sample_exclusive sample_log id).
  apply (run_log_run_logged (tail exclusive_schedule) _ _ _ [] _ (rl_here _));
    vm_compute; reflexivity.
Defined.







